(** * nslogin-web: the credential-batch orchestrator of [src/ts/app.ts]

    A shallow embedding of the [App] class (current variant, and the
    side-channel login request of the earlier variant in [Module Legacy])
    together with the properties claimed for it, followed by [App_start]
    (the whole of [start], with the constructor of the client that may
    throw), the procedures of the earlier variant ([Module LegacyApp]),
    the part of the [Ui] class that reads the form and drives [App]
    ([Module Ui]), and further properties of these.

    Conventions of the embedding.
    - A JavaScript string is a [string]: a sequence of code units below 256
      (the Latin-1 range).  Names outside that range are not covered.
    - A JavaScript number is a [number]: [NaN] or an exact rational.  The
      rounding of IEEE doubles and the infinities are not modelled; the
      only arithmetic of the program is [Date.now() / 1000 - lastLogin > 30].
    - The object returned by [api.nationRequest] is a [gmap string string].
    - Asynchronous code runs against a script of [Tick]s, one per
      suspension ([await]); [Suspended] is an [await] that never resumes. *)

From Stdlib Require Import String Ascii List ZArith QArith Bool Lia.
From Stdlib Require Import DecimalString.
From stdpp Require Import base strings gmap.
Import ListNotations.

Local Open Scope string_scope.
Local Open Scope list_scope.
Local Open Scope Z_scope.

(** ** JavaScript strings *)

Module JsString.

(** [WhiteSpace] and [LineTerminator] code units below 256: TAB, LF, VT,
    FF, CR, SP and NBSP. *)
Definition is_white (c : ascii) : bool :=
  let n := nat_of_ascii c in
  ((9 <=? n) && (n <=? 13) || (n =? 32) || (n =? 160))%nat.

Fixpoint trimStart (s : string) : string :=
  match s with
  | EmptyString => EmptyString
  | String c s' => if is_white c then trimStart s' else s
  end.

Fixpoint trimEnd (s : string) : string :=
  match s with
  | EmptyString => EmptyString
  | String c s' =>
      match trimEnd s' with
      | EmptyString => if is_white c then EmptyString else String c EmptyString
      | r => String c r
      end
  end.

(** [String.prototype.trim] *)
Definition trim (s : string) : string := trimEnd (trimStart s).

(** Lower-casing of one code unit: A-Z, and the Latin-1 capitals
    U+00C0..U+00DE except the multiplication sign U+00D7. *)
Definition lower_unit (c : ascii) : ascii :=
  let n := nat_of_ascii c in
  if ((65 <=? n) && (n <=? 90)
      || (192 <=? n) && (n <=? 222) && negb (n =? 215))%nat
  then ascii_of_nat (n + 32) else c.

(** [String.prototype.toLowerCase] *)
Fixpoint toLowerCase (s : string) : string :=
  match s with
  | EmptyString => EmptyString
  | String c s' => String (lower_unit c) (toLowerCase s')
  end.

Fixpoint drop (n : nat) (s : string) : string :=
  match n, s with
  | O, _ => s
  | S _, EmptyString => EmptyString
  | S n', String _ s' => drop n' s'
  end.

(** [String.prototype.replace] with a string pattern: only the FIRST
    occurrence of [pat] is replaced.  (The replacement strings of the
    program contain no [$], so no replacement pattern is involved.) *)
Fixpoint replace (pat rep s : string) : string :=
  if String.prefix pat s then rep ++ drop (String.length pat) s
  else match s with
       | EmptyString => EmptyString
       | String c s' => String c (replace pat rep s')
       end.

(** What a global replacement would do; used only to state properties. *)
Fixpoint replace_all_units (a b : ascii) (s : string) : string :=
  match s with
  | EmptyString => EmptyString
  | String c s' =>
      String (if Ascii.eqb c a then b else c) (replace_all_units a b s')
  end.

End JsString.

(** ** JavaScript numbers *)

Inductive number : Type :=
| NaN
| Num (q : Q).

(** [a - b] *)
Definition num_sub (a b : number) : number :=
  match a, b with
  | Num x, Num y => Num (x - y)
  | _, _ => NaN
  end.

(** [a > b]: false as soon as one side is [NaN]. *)
Definition num_gt (a b : number) : bool :=
  match a, b with
  | Num x, Num y => negb (Qle_bool x y)
  | _, _ => false
  end.

(** [a <= b]: false as soon as one side is [NaN]. *)
Definition num_le (a b : number) : bool :=
  match a, b with
  | Num x, Num y => Qle_bool x y
  | _, _ => false
  end.

(** [Date.now() / 1000], for a clock reading in milliseconds. *)
Definition seconds_of_ms (ms : Z) : number := Num (inject_Z ms / 1000).

Module JsNumber.

Definition digit_of (c : ascii) : option Z :=
  let n := nat_of_ascii c in
  if ((48 <=? n) && (n <=? 57))%nat then Some (Z.of_nat n - 48) else None.

(** The longest prefix of decimal digits, read as an integer;
    [None] when the prefix is empty. *)
Fixpoint digits (acc : option Z) (s : string) : option Z :=
  match s with
  | EmptyString => acc
  | String c s' =>
      match digit_of c with
      | Some d =>
          digits (Some (10 * match acc with Some a => a | None => 0 end + d)) s'
      | None => acc
      end
  end.

(** [parseInt(s, 10)] on a string: leading white space is skipped, one
    sign is accepted, the digits that follow are read and anything after
    them is ignored; no digit at all gives [NaN].  It never throws. *)
Definition parseInt_string (s : string) : number :=
  let s1 := JsString.trimStart s in
  let '(sign, s2) :=
    match s1 with
    | String "-" r => (-1, r)
    | String "+" r => (1, r)
    | _ => (1, s1)
    end in
  match digits None s2 with
  | Some z => Num (inject_Z (sign * z))
  | None => NaN
  end.

(** [ToString] of a property read: a missing property is [undefined]. *)
Definition ToString (v : option string) : string :=
  match v with
  | Some s => s
  | None => "undefined"
  end.

(** [parseInt(data[key], 10)] *)
Definition parseInt (v : option string) : number :=
  parseInt_string (ToString v).

End JsNumber.


(** ** Data model *)

(** [enum Mode { Login, Restore, Auto }]: a numeric enum, so a mode is a
    number at run time and values other than 0, 1, 2 can reach [start]. *)
Definition Mode := Z.
Definition Mode_Login : Mode := 0.
Definition Mode_Restore : Mode := 1.
Definition Mode_Auto : Mode := 2.

(** [interface Credential] *)
Record Credential : Type := mkCredential {
  nation : string;
  password : string
}.

(** The fields of an [App] instance. *)
Record App : Type := mkApp {
  _cancel : bool;
  _pause : bool;
  _userAgent : string
}.

(** A thrown value: [undefined] (a bare [reject()]) or an [Error]. *)
Inductive Thrown : Type :=
| Undefined
| Error (message : string).

(** The texts handed to [Ui.log], one constructor per call site. *)
Inductive Message : Type :=
| MAutoMode
| MLoginMode
| MRestoreMode
| MProcessCancelled
| MProcessComplete
| MCancelling
| MPausing
| MUnpausing
| MNationExists (n : string)
| MNationDoesNotExist (n : string)
| MLoggingIn (n : string)
| MLoginFailed (n : string)
| MMoreThan30
| MLoginSuccessful (n : string)
| MWaitingForConfirmation (n : string)
| MConfirmationReceived (n : string)
| MRestoreSuccessful (n : string)
| MRestoreFailed (n : string)
| MInspect (err : Thrown).

(** [util.inspect] as the browser build of [util] prints the two kinds of
    thrown value (an [Error] without own properties). *)
Definition util_inspect (err : Thrown) : string :=
  match err with
  | Undefined => "undefined"
  | Error m => "[Error: " ++ m ++ "]"
  end.

(** The text of each message, as the template literals build it. *)
Definition render (m : Message) : string :=
  match m with
  | MAutoMode => "Auto mode"
  | MLoginMode => "Login mode"
  | MRestoreMode => "Restore mode"
  | MProcessCancelled => "Process cancelled."
  | MProcessComplete => "Process complete."
  | MCancelling => "Cancelling..."
  | MPausing => "Pausing..."
  | MUnpausing => "Unpausing..."
  | MNationExists n => n ++ ": Nation exists"
  | MNationDoesNotExist n => n ++ ": Nation does not exist"
  | MLoggingIn n => n ++ ": Logging in..."
  | MLoginFailed n => n ++ ": Login failed"
  | MMoreThan30 => "More than 30 seconds between now and last login"
  | MLoginSuccessful n =>
      n ++ ": Login successful (or nation was logged into in the last 30 seconds)"
  | MWaitingForConfirmation n => n ++ ": Waiting for confirmation..."
  | MConfirmationReceived n => n ++ ": Confirmation received, restoring..."
  | MRestoreSuccessful n =>
      n ++ ": Restore successful (or nation already existed)"
  | MRestoreFailed n => n ++ ": Restore failed"
  | MInspect err => util_inspect err
  end.

(** The values written into the restore (or login) form of the iframe. *)
Record Form : Type := mkForm {
  f_userAgent : string;
  f_loggingIn : string;
  f_nation : string;
  f_restoreNation : option string;
  f_password : string
}.

(** What the program does to its collaborators, in order. *)
Inductive Event : Type :=
| Log (type : string) (m : Message)
| NewNsApi (userAgent : string) (flag : bool) (rateLimit : number)
| NationRequest (nation : string) (shards : list string)
    (auth : option string)
| ApiCleanup
| UiConfirm
| IframeNavigate
| Submit (f : Form)
| Sleep (ms : Z)
| HandleFinish.

(** The outcome of a processed credential and the log line that
    announces it. *)
Inductive Outcome : Type :=
| LoginSucceeded
| LoginFailed
| RestoreSucceeded
| RestoreFailed.

Definition outcome_line (c : Credential) (o : Outcome) : Event :=
  match o with
  | LoginSucceeded => Log "info" (MLoginSuccessful (nation c))
  | LoginFailed => Log "error" (MLoginFailed (nation c))
  | RestoreSucceeded => Log "info" (MRestoreSuccessful (nation c))
  | RestoreFailed => Log "error" (MRestoreFailed (nation c))
  end.

(** ** The host: what happens while the program is suspended *)

(** Calls of the public methods made by the user interface. *)
Inductive UiAction : Type :=
| Cancel
| Pause
| Unpause.

(** How an awaited request of the remote API settles. *)
Inductive Settle : Type :=
| Fulfil (data : gmap string string)
| Reject (err : Thrown).

(** The order in which the iframe and the two timers of a side-channel
    request fire: the form loads and its 6 s timer fires before the 15 s
    timer; the form loads but the 15 s timer fires first; the 15 s timer
    fires before the form has loaded. *)
Inductive Timing : Type :=
| LoadsInTime
| LoadsLate
| NeverLoads.

(** One suspension of the program: the public methods called while it
    waits, how a remote request settles, how a side-channel request
    proceeds, and the clock (ms) when the program resumes.  Each [await]
    uses the fields that concern it. *)
Record Tick : Type := mkTick {
  ui : list UiAction;
  settled : Settle;
  iframe : Timing;
  clock : Z
}.

(** The host as the program sees it: the clock reading at the last
    resumption and the suspensions still to come. *)
Record World : Type := mkWorld {
  time : Z;
  script : list Tick
}.

(** ** Computations

    A method of [App] runs from the fields of [this] and a world, and
    yields how it completes, the fields and world it leaves, and the
    events it produced.  [Suspended] is an [await] on a promise that never
    settles (the script has run out). *)

Inductive Completion (A : Type) : Type :=
| Normal (a : A)
| Abrupt (err : Thrown)
| Suspended.
Arguments Normal {A} a.
Arguments Abrupt {A} err.
Arguments Suspended {A}.

Record Run (A : Type) : Type := mkRun {
  completion : Completion A;
  app : App;
  world : World;
  out : list Event
}.
Arguments mkRun {A} _ _ _ _.
Arguments completion {A} _.
Arguments app {A} _.
Arguments world {A} _.
Arguments out {A} _.

Definition M (A : Type) : Type := App -> World -> Run A.

Definition prepend {A} (evs : list Event) (r : Run A) : Run A :=
  mkRun (completion r) (app r) (world r) (evs ++ out r).

Definition ret {A} (a : A) : M A := fun this w => mkRun (Normal a) this w [].

Definition throw {A} (err : Thrown) : M A :=
  fun this w => mkRun (Abrupt err) this w [].

Definition suspend {A} : M A := fun this w => mkRun Suspended this w [].

Definition bind {A B} (m : M A) (f : A -> M B) : M B :=
  fun this w =>
    let r := m this w in
    match completion r with
    | Normal a => prepend (out r) (f a (app r) (world r))
    | Abrupt err => mkRun (Abrupt err) (app r) (world r) (out r)
    | Suspended => mkRun Suspended (app r) (world r) (out r)
    end.

Notation "x <- c1 ;; c2" := (bind c1 (fun x => c2))
  (at level 100, c1 at next level, right associativity).
Notation "c1 >> c2" := (bind c1 (fun _ => c2))
  (at level 100, right associativity).

Definition emit (e : Event) : M unit := fun this w => mkRun (Normal tt) this w [e].

Definition get_this : M App := fun this w => mkRun (Normal this) this w [].

Definition set_this (f : App -> App) : M unit :=
  fun this w => mkRun (Normal tt) (f this) w [].

(** [try { m } catch (err) { h err }] *)
Definition try_catch {A} (m : M A) (h : Thrown -> M A) : M A :=
  fun this w =>
    let r := m this w in
    match completion r with
    | Abrupt err => prepend (out r) (h err (app r) (world r))
    | _ => r
    end.

(** [try { m } finally { fin }]: [fin] runs when [m] completes, normally
    or not, and the completion of [m] is kept unless [fin] itself does not
    complete normally. *)
Definition try_finally {A} (m : M A) (fin : M unit) : M A :=
  fun this w =>
    let r := m this w in
    match completion r with
    | Suspended => r
    | c =>
        let r' := fin (app r) (world r) in
        match completion r' with
        | Normal _ => mkRun c (app r') (world r') (out r ++ out r')
        | Abrupt err => mkRun (Abrupt err) (app r') (world r') (out r ++ out r')
        | Suspended => mkRun Suspended (app r') (world r') (out r ++ out r')
        end
    end.

(** [for (const x of xs) { body }], where the body says whether it ended
    in [break]. *)
Inductive Flow : Type :=
| Next
| Break.

Fixpoint for_of {A} (xs : list A) (body : A -> M Flow) : M unit :=
  match xs with
  | [] => ret tt
  | x :: xs' =>
      f <- body x ;;
      match f with
      | Break => ret tt
      | Next => for_of xs' body
      end
  end.

(** ** The public control methods *)

(** [App.cancel] *)
Definition cancel (this : App) : list Event * App :=
  ([Log "info" MCancelling], mkApp true false (_userAgent this)).

(** [App.pause] *)
Definition pause (this : App) : list Event * App :=
  ([Log "info" MPausing], mkApp (_cancel this) true (_userAgent this)).

(** [App.unpause] *)
Definition unpause (this : App) : list Event * App :=
  ([Log "info" MUnpausing], mkApp (_cancel this) false (_userAgent this)).

(** [App.isPaused] *)
Definition isPaused (this : App) : bool := _pause this.

(** [App.reset] *)
Definition reset (this : App) : App := mkApp false false (_userAgent this).

Definition call (a : UiAction) : App -> list Event * App :=
  match a with
  | Cancel => cancel
  | Pause => pause
  | Unpause => unpause
  end.

(** The calls made while the program is suspended, in order. *)
Fixpoint deliver (acts : list UiAction) (this : App) : list Event * App :=
  match acts with
  | [] => ([], this)
  | a :: acts' =>
      let '(evs1, this1) := call a this in
      let '(evs2, this2) := deliver acts' this1 in
      (evs1 ++ evs2, this2)
  end.

(** [await p]: the program is suspended; the public methods called in the
    meantime run, and the program resumes with the tick that settles [p]. *)
Definition await : M Tick :=
  fun this w =>
    match script w with
    | [] => mkRun Suspended this w []
    | t :: rest =>
        let '(evs, this') := deliver (ui t) this in
        mkRun (Normal t) this' (mkWorld (clock t) rest) evs
    end.

(** [Date.now()] *)
Definition Date_now : M Z := fun this w => mkRun (Normal (time w)) this w [].

(** [Ui.log] *)
Definition Ui_log (type : string) (m : Message) : M unit := emit (Log type m).

(** [Ui.confirm]: its promise is only ever resolved. *)
Definition Ui_confirm : M unit := emit UiConfirm >> await >> ret tt.

(** [App.sleep]: its promise is only ever resolved. *)
Definition sleep (ms : Z) : M unit := await >> ret tt.

(** [api.nationRequest(nation, shards, {}, {password}, true)] and
    [api.nationRequest(nation, shards)] *)
Definition nationRequest (nation : string) (shards : list string)
    (auth : option string) : M (gmap string string) :=
  emit (NationRequest nation shards auth) >>
  t <- await ;;
  match settled t with
  | Fulfil data => ret data
  | Reject err => throw err
  end.

(** [App.waitUntilUnpaused]: [while (this._pause) await App.sleep(1000)].
    The loop is bounded by the script: each [sleep] consumes one tick. *)
Fixpoint waitUntilUnpaused_from (ticks : list Tick) (now : Z) (this : App)
    : Run unit :=
  if _pause this then
    match ticks with
    | [] => mkRun Suspended this (mkWorld now []) []
    | t :: rest =>
        let '(evs, this') := deliver (ui t) this in
        prepend evs (waitUntilUnpaused_from rest (clock t) this')
    end
  else mkRun (Normal tt) this (mkWorld now ticks) [].

Definition waitUntilUnpaused : M unit :=
  fun this w => waitUntilUnpaused_from (script w) (time w) this.

(** ** Name normalisation *)

(** [App.toId]:
    [name.replace("_", " ").trim().toLowerCase().replace(" ", "_")] *)
Definition toId (name : string) : string :=
  JsString.replace " " "_"
    (JsString.toLowerCase
       (JsString.trim
          (JsString.replace "_" " " name))).

(** ** Side-channel requests (the hidden iframe and its two timers) *)

Inductive PromiseState : Type :=
| Pending
| Fulfilled
| Rejected.

(** Calling [resolve()] or [reject()] on a settled promise does nothing. *)
Definition resolve (p : PromiseState) : PromiseState :=
  match p with
  | Pending => Fulfilled
  | _ => p
  end.

Definition reject (p : PromiseState) : PromiseState :=
  match p with
  | Pending => Rejected
  | _ => p
  end.

(** The closure of one request: the local [resolved], the promise, whether
    the [load] handler is still attached, and the forms submitted. *)
Record Request : Type := mkRequest {
  resolved : bool;
  promise : PromiseState;
  load_handler : bool;
  submitted : list Form
}.

(** The state when the executor returns: [resolved = false], the handler
    attached, both outcomes open. *)
Definition request_init : Request := mkRequest false Pending true [].

Inductive TimerEvent : Type :=
| IframeLoad      (* the [load] event of the iframe *)
| SettleTimer     (* the 6000 ms timer set by the [load] handler *)
| CeilingTimer.   (* the 15000 ms timer set by the executor *)

Definition restoreForm (userAgent : string) (credential : Credential) : Form :=
  mkForm userAgent "1" (toId (nation credential))
         (Some (" Restore " +:+ toId (nation credential) +:+ " "))
         (password credential).

(** The callbacks of [App.restoreRequest]. *)
Definition restoreRequest_on (userAgent : string) (credential : Credential)
    (ev : TimerEvent) (r : Request) : Request :=
  match ev with
  | IframeLoad =>
      if load_handler r
      then mkRequest (resolved r) (promise r) false
                     (submitted r ++ [restoreForm userAgent credential])
      else r
  | SettleTimer =>
      mkRequest true (resolve (promise r)) (load_handler r) (submitted r)
  | CeilingTimer =>
      if negb (resolved r)
      then mkRequest (resolved r) (reject (promise r)) (load_handler r)
                     (submitted r)
      else r
  end.

(** The events of one request in the order the host fires them, for the
    three courses a request can take while the procedure awaits it.  What
    the iframe does once the promise has settled is not among them: the
    [load] handler stays attached after a rejection, and [after_events]
    below, which takes the events in any order, is what says so. *)
Definition timeline (t : Timing) : list TimerEvent :=
  match t with
  | LoadsInTime => [IframeLoad; SettleTimer; CeilingTimer]
  | LoadsLate => [IframeLoad; CeilingTimer; SettleTimer]
  | NeverLoads => [CeilingTimer]
  end.

(** A request after all of [evs]. *)
Definition after_events (step : TimerEvent -> Request -> Request)
    (evs : list TimerEvent) : Request :=
  fold_left (fun r ev => step ev r) evs request_init.

(** A request up to the moment its promise settles, which is when the
    awaiting procedure resumes. *)
Fixpoint until_settled (step : TimerEvent -> Request -> Request)
    (evs : list TimerEvent) (r : Request) : Request :=
  match evs with
  | [] => r
  | ev :: evs' =>
      match promise r with
      | Pending => until_settled step evs' (step ev r)
      | _ => r
      end
  end.

Fixpoint emit_all (evs : list Event) : M unit :=
  match evs with
  | [] => ret tt
  | e :: evs' => emit e >> emit_all evs'
  end.

(** Awaiting a side-channel request: the forms submitted before the promise
    settles, then fulfilment or a rejection with [undefined].  The trace of
    a run holds what happens up to the moment the procedure resumes; a form
    submitted by a [load] event that comes later is not in it. *)
Definition await_request (step : App -> TimerEvent -> Request -> Request)
    : M unit :=
  t <- await ;;
  this <- get_this ;;
  let r := until_settled (step this) (timeline (iframe t)) request_init in
  emit_all (map Submit (submitted r)) >>
  match promise r with
  | Fulfilled => ret tt
  | Rejected => throw Undefined
  | Pending => suspend
  end.

(** [App.restoreRequest] *)
Definition restoreRequest (credential : Credential) : M unit :=
  await_request (fun this => restoreRequest_on (_userAgent this) credential).

Module Legacy.

Definition loginForm (userAgent : string) (credential : Credential) : Form :=
  mkForm userAgent "1" (toId (nation credential)) None (password credential).

(** The callbacks of [App.loginRequest] of the earlier variant, in which
    logging in goes through the iframe as well. *)
Definition loginRequest_on (userAgent : string) (credential : Credential)
    (ev : TimerEvent) (r : Request) : Request :=
  match ev with
  | IframeLoad =>
      if load_handler r
      then mkRequest (resolved r) (promise r) false
                     (submitted r ++ [loginForm userAgent credential])
      else r
  | SettleTimer =>
      mkRequest true (resolve (promise r)) (load_handler r) (submitted r)
  | CeilingTimer =>
      if negb (resolved r)
      then mkRequest (resolved r) (resolve (promise r)) (load_handler r)
                     (submitted r)
      else r
  end.

(** [App.loginRequest] *)
Definition loginRequest (credential : Credential) : M unit :=
  await_request (fun this => loginRequest_on (_userAgent this) credential).

End Legacy.

(** ** The three procedures

    The [api] argument of the source is the remote side of the world and
    is not passed around. *)

(** [App.loginNations]: the [try] statement of the loop body, then the
    body, then the loop. *)
Definition loginNations_try (verbose : bool) (credential : Credential)
    : M unit :=
  try_catch
    (Ui_log "info" (MLoggingIn (nation credential)) >>
     nationRequest (nation credential) ["nextissuetime"]
                   (Some (password credential)) >>
     data <- nationRequest (nation credential) ["lastlogin"] None ;;
     ms <- Date_now ;;
     let now := seconds_of_ms ms in
     let lastLogin := JsNumber.parseInt (data !! "lastlogin") in
     if num_gt (num_sub now lastLogin) (Num 30) then
       Ui_log "error" (MLoginFailed (nation credential)) >>
       if verbose then Ui_log "error" MMoreThan30 else ret tt
     else
       Ui_log "info" (MLoginSuccessful (nation credential)))
    (fun err =>
       Ui_log "error" (MLoginFailed (nation credential)) >>
       if verbose then Ui_log "error" (MInspect err) else ret tt).

Definition loginNations_body (verbose : bool) (credential : Credential)
    : M Flow :=
  this <- get_this ;;
  if _cancel this then ret Break else
  waitUntilUnpaused >>
  loginNations_try verbose credential >>
  ret Next.

Definition loginNations (credentials : list Credential) (verbose : bool)
    : M unit :=
  for_of credentials (loginNations_body verbose).

(** [App.restoreNations] *)
Definition restoreNations_try (verbose : bool) (credential : Credential)
    : M unit :=
  try_catch
    (restoreRequest credential >>
     nationRequest (nation credential) ["name"] None >>
     Ui_log "info" (MRestoreSuccessful (nation credential)))
    (fun err =>
       Ui_log "error" (MRestoreFailed (nation credential)) >>
       if verbose then Ui_log "error" (MInspect err) else ret tt).

Definition restoreNations_body (verbose : bool) (credential : Credential)
    : M Flow :=
  this <- get_this ;;
  if _cancel this then ret Break else
  waitUntilUnpaused >>
  Ui_log "info" (MWaitingForConfirmation (nation credential)) >>
  Ui_confirm >>
  Ui_log "info" (MConfirmationReceived (nation credential)) >>
  restoreNations_try verbose credential >>
  ret Next.

Definition restoreNations (credentials : list Credential) (verbose : bool)
    : M unit :=
  for_of credentials (restoreNations_body verbose).

(** [App.auto]: the [try] statement that sets the local [login], then
    the body. *)
Definition auto_try (credential : Credential) : M bool :=
  try_catch
    (Ui_log "info" (MNationExists (nation credential)) >>
     nationRequest (nation credential) ["name"] None >>
     ret true)
    (fun _ =>
       Ui_log "info" (MNationDoesNotExist (nation credential)) >>
       ret false).

Definition auto_body (verbose : bool) (credential : Credential) : M Flow :=
  this <- get_this ;;
  if _cancel this then ret Break else
  waitUntilUnpaused >>
  login <- auto_try credential ;;
  (if login : bool
   then loginNations [credential] verbose
   else restoreNations [credential] verbose) >>
  ret Next.

Definition auto (credentials : list Credential) (verbose : bool) : M unit :=
  for_of credentials (auto_body verbose).

(** ** [App.start] *)

Definition dquote : string := String (ascii_of_nat 34) EmptyString.

(** The template literal assigned to [this._userAgent]. *)
Definition composed_userAgent (userAgent : string) : string :=
  "nslogin-web (maintained by Auralia, currently used by "
    +:+ dquote +:+ userAgent +:+ dquote +:+ ")".

(** The [if]/[else if] chain inside the [try] of [start]. *)
Definition dispatch (mode : Mode) (credentials : list Credential)
    (verbose : bool) : M unit :=
  if mode =? Mode_Auto then
    Ui_log "info" MAutoMode >> auto credentials verbose
  else if mode =? Mode_Login then
    Ui_log "info" MLoginMode >> loginNations credentials verbose
  else if mode =? Mode_Restore then
    Ui_log "info" MRestoreMode >> restoreNations credentials verbose
  else throw (Error "Unrecognized mode").

(** [App.start] with a client whose constructor returns: the call
    [new NsApi(userAgent, true, rateLimit)] is the event [NewNsApi].  The
    constructor stands before the [try] and belongs to a library; the
    exception it may throw is added in [App_start]. *)
Definition start (userAgent : string) (rateLimit : number) (mode : Mode)
    (credentials : list Credential) (verbose : bool) : M unit :=
  set_this reset >>
  set_this (fun this =>
              mkApp (_cancel this) (_pause this)
                    (composed_userAgent userAgent)) >>
  emit (NewNsApi userAgent true rateLimit) >>
  try_finally (dispatch mode credentials verbose) (emit ApiCleanup) >>
  this <- get_this ;;
  (if _cancel this
   then Ui_log "info" MProcessCancelled
   else Ui_log "info" MProcessComplete) >>
  waitUntilUnpaused >>
  emit HandleFinish.

(** [start] with the procedure inside its [try] left open: the same
    statements around an arbitrary [procedure], which may throw; the
    constructor of the client returns, as in [start]. *)
Definition start_with (userAgent : string) (rateLimit : number)
    (procedure : M unit) : M unit :=
  set_this reset >>
  set_this (fun this =>
              mkApp (_cancel this) (_pause this)
                    (composed_userAgent userAgent)) >>
  emit (NewNsApi userAgent true rateLimit) >>
  try_finally procedure (emit ApiCleanup) >>
  this <- get_this ;;
  (if _cancel this
   then Ui_log "info" MProcessCancelled
   else Ui_log "info" MProcessComplete) >>
  waitUntilUnpaused >>
  emit HandleFinish.

(** The fields after [new App()]: [reset] has run and [_userAgent] is not
    yet assigned. *)
Definition new_App : App := mkApp false false "undefined".


(** * [App.start] and the constructor of the client

    [new NsApi(userAgent, true, rateLimit)] stands before the [try] of
    [start], so what it throws leaves [start] at once, with no cleanup.
    The constructor belongs to the nsapi library, which is not part of
    this repository; it is taken as a parameter: the exception the
    constructor throws for its arguments, if it throws. *)

Section Client.

Variable NsApi_throws : string -> bool -> number -> option Thrown.

(** [new NsApi(userAgent, delay, rateLimit)] *)
Definition new_NsApi (userAgent : string) (delay : bool) (rateLimit : number)
    : M unit :=
  emit (NewNsApi userAgent delay rateLimit) >>
  match NsApi_throws userAgent delay rateLimit with
  | Some err => throw err
  | None => ret tt
  end.

(** [App.start] *)
Definition App_start (userAgent : string) (rateLimit : number) (mode : Mode)
    (credentials : list Credential) (verbose : bool) : M unit :=
  set_this reset >>
  set_this (fun this =>
              mkApp (_cancel this) (_pause this)
                    (composed_userAgent userAgent)) >>
  new_NsApi userAgent true rateLimit >>
  try_finally (dispatch mode credentials verbose) (emit ApiCleanup) >>
  this <- get_this ;;
  (if _cancel this
   then Ui_log "info" MProcessCancelled
   else Ui_log "info" MProcessComplete) >>
  waitUntilUnpaused >>
  emit HandleFinish.

End Client.

(** * The procedures of the earlier variant

    The earlier variant of [App] has no pause: its loops have no pause
    gate, and its user interface calls no other method than [cancel]
    during a run.  Logging in goes through the iframe
    ([Legacy.loginRequest]) instead of an authenticated request of the
    API.  [restoreRequest], [toId] and the [try] statements of
    [restoreNations] and [auto] are those of the current variant. *)

Module LegacyApp.

(** [App.loginNations] *)
Definition loginNations_try (verbose : bool) (credential : Credential)
    : M unit :=
  try_catch
    (Ui_log "info" (MLoggingIn (nation credential)) >>
     Legacy.loginRequest credential >>
     data <- nationRequest (nation credential) ["lastlogin"] None ;;
     ms <- Date_now ;;
     let now := seconds_of_ms ms in
     let lastLogin := JsNumber.parseInt (data !! "lastlogin") in
     if num_gt (num_sub now lastLogin) (Num 30) then
       Ui_log "error" (MLoginFailed (nation credential)) >>
       if verbose then Ui_log "error" MMoreThan30 else ret tt
     else
       Ui_log "info" (MLoginSuccessful (nation credential)))
    (fun err =>
       Ui_log "error" (MLoginFailed (nation credential)) >>
       if verbose then Ui_log "error" (MInspect err) else ret tt).

Definition loginNations_body (verbose : bool) (credential : Credential)
    : M Flow :=
  this <- get_this ;;
  if _cancel this then ret Break else
  loginNations_try verbose credential >>
  ret Next.

Definition loginNations (credentials : list Credential) (verbose : bool)
    : M unit :=
  for_of credentials (loginNations_body verbose).

(** [App.restoreNations] *)
Definition restoreNations_body (verbose : bool) (credential : Credential)
    : M Flow :=
  this <- get_this ;;
  if _cancel this then ret Break else
  Ui_log "info" (MWaitingForConfirmation (nation credential)) >>
  Ui_confirm >>
  Ui_log "info" (MConfirmationReceived (nation credential)) >>
  restoreNations_try verbose credential >>
  ret Next.

Definition restoreNations (credentials : list Credential) (verbose : bool)
    : M unit :=
  for_of credentials (restoreNations_body verbose).

(** [App.auto] *)
Definition auto_body (verbose : bool) (credential : Credential) : M Flow :=
  this <- get_this ;;
  if _cancel this then ret Break else
  login <- auto_try credential ;;
  (if login : bool
   then loginNations [credential] verbose
   else restoreNations [credential] verbose) >>
  ret Next.

Definition auto (credentials : list Credential) (verbose : bool) : M unit :=
  for_of credentials (auto_body verbose).

End LegacyApp.

(** * The user interface ([ui.ts]), the caller of [App] *)

Module JsText.

(** [String.prototype.split] with a separator of one code unit, as in
    [split("\n")] and [split(",")]: the fields between the separators, so
    one field more than there are separators. *)
Fixpoint split (sep : ascii) (s : string) : list string :=
  match s with
  | EmptyString => [EmptyString]
  | String c s' =>
      if Ascii.eqb c sep then EmptyString :: split sep s'
      else match split sep s' with
           | [] => [String c EmptyString]
           | field :: fields => String c field :: fields
           end
  end.

(** The decimal text of a natural number, as a template literal prints
    [${i + 1}]. *)
Definition decimal (n : nat) : string :=
  NilEmpty.string_of_uint (Nat.to_uint n).

(** The line feed and the comma. *)
Definition LF : ascii := ascii_of_nat 10.
Definition comma : ascii := ascii_of_nat 44.

End JsText.

Module Ui.

(** The two errors [Ui.getCredentials] throws, and their messages. *)
Inductive CredentialsError : Type :=
| BadLine (line : nat)
| NoCredentials.

Definition message_of (e : CredentialsError) : string :=
  match e with
  | BadLine line =>
      "Nation names and passwords text box does not"
        +:+ " contain a single nation name and a single"
        +:+ " password in the form 'nation,password' on"
        +:+ " line " +:+ JsText.decimal line
  | NoCredentials =>
      "You must specify at least one nation name and password."
  end.

(** The loop of [Ui.getCredentials], from line index [i] on, with the
    credentials pushed so far. *)
Fixpoint getCredentials_from (lines : list string) (i : nat)
    (credentials : list Credential) : CredentialsError + list Credential :=
  match lines with
  | [] => inr credentials
  | line :: rest =>
      if String.eqb (JsString.trim line) EmptyString
      then getCredentials_from rest (S i) credentials
      else match JsText.split JsText.comma line with
           | [n; p] =>
               getCredentials_from rest (S i)
                 (credentials ++ [mkCredential n p])
           | _ => inl (BadLine (i + 1))
           end
  end.

(** [Ui.getCredentials], on the text of the credentials box. *)
Definition getCredentials (text : string)
    : CredentialsError + list Credential :=
  match getCredentials_from (JsText.split JsText.LF text) 0 [] with
  | inl e => inl e
  | inr [] => inl NoCredentials
  | inr credentials => inr credentials
  end.

(** The inputs of the configuration form that the handlers read and
    write: two text inputs, the three mode radio buttons, the credentials
    box and the verbose check box. *)
Record Inputs : Type := mkInputs {
  in_userAgent : string;
  in_rateLimit : string;
  in_modeLogin : bool;
  in_modeRestore : bool;
  in_modeAuto : bool;
  in_credentials : string;
  in_verbose : bool
}.

(** [Ui.getMode] *)
Definition getMode (f : Inputs) : Thrown + Mode :=
  if in_modeLogin f then inr Mode_Login
  else if in_modeRestore f then inr Mode_Restore
  else if in_modeAuto f then inr Mode_Auto
  else inl (Error "No mode is checked").

(** What [Ui.handleStart] ends in: validation alerts (identifier and
    message) and nothing else; an exception; or the call of [App.start]
    with these arguments, the rate limit being [Number] of the text of its
    input, unchecked. *)
Inductive Decision : Type :=
| Invalid (alerts : list (string * string))
| Throws (err : Thrown)
| Starts (userAgent : string) (rateLimit : number) (mode : Mode)
    (credentials : list Credential) (verbose : bool).

(** [String(b)] for a boolean. *)
Definition String_of_bool (b : bool) : string :=
  if b then "true" else "false".

(** [String(mode)] for a value of the enum. *)
Definition String_of_mode (mode : Mode) : string :=
  JsText.decimal (Z.to_nat mode).

(** The state of the pause and cancel buttons and of the configuration
    controls. *)
Record Buttons : Type := mkButtons {
  pauseText : string;
  pauseDisabled : bool;
  cancelDisabled : bool;
  configDisabled : bool
}.

(** [Ui.toggleUi] *)
Definition toggleUi (running : bool) (b : Buttons) : Buttons :=
  mkButtons (pauseText b) (negb running) (negb running) running.

(** [Ui.handlePause]: the events logged, the fields of the app and the
    buttons afterwards. *)
Definition handlePause (this : App) (b : Buttons)
    : list Event * App * Buttons :=
  if isPaused this
  then let '(evs, this') := unpause this in
       (evs, this',
        mkButtons "Pause" (pauseDisabled b) (cancelDisabled b)
                  (configDisabled b))
  else let '(evs, this') := pause this in
       (evs, this',
        mkButtons "Resume" (pauseDisabled b) (cancelDisabled b)
                  (configDisabled b)).

(** [Ui.handleCancel] *)
Definition handleCancel (this : App) (b : Buttons)
    : list Event * App * Buttons :=
  let '(evs, this') := cancel this in
  (evs, this', mkButtons "Pause" true true (configDisabled b)).

(** A click on a button: a disabled button fires no handler. *)
Inductive Click : Type :=
| ClickPause
| ClickCancel.

Definition click (k : Click) (this : App) (b : Buttons)
    : list Event * App * Buttons :=
  match k with
  | ClickPause =>
      if pauseDisabled b then ([], this, b) else handlePause this b
  | ClickCancel =>
      if cancelDisabled b then ([], this, b) else handleCancel this b
  end.

Fixpoint clicks (ks : list Click) (this : App) (b : Buttons)
    : list Event * App * Buttons :=
  match ks with
  | [] => ([], this, b)
  | k :: ks' =>
      let '(evs1, this1, b1) := click k this b in
      let '(evs2, this2, b2) := clicks ks' this1 b1 in
      (evs1 ++ evs2, this2, b2)
  end.

Section Conversions.

(** [Number(s)] on the text of an input, and the text an input takes when
    its value is set to a number, are left open. *)
Variable Number : string -> number.
Variable String_of_number : number -> string.

(** [Number(localStorage.getItem(key))]: a missing item is [null], and
    [Number(null)] is 0. *)
Definition Number_of_item (item : option string) : number :=
  match item with
  | Some s => Number s
  | None => Num 0
  end.

(** [Ui.handleStart], up to the call of [App.start]. *)
Definition handleStart (f : Inputs) : Decision :=
  let alerts1 :=
    if String.eqb (in_userAgent f) EmptyString
    then [("userAgentValidationAlert", "You must specify a user agent.")]
    else [] in
  let '(alerts2, credentials) :=
    match getCredentials (in_credentials f) with
    | inl e => ([("credentialsValidationAlert", message_of e)], [])
    | inr cs => ([], cs)
    end in
  match alerts1 ++ alerts2 with
  | [] =>
      match getMode f with
      | inl err => Throws err
      | inr mode =>
          Starts (in_userAgent f) (Number (in_rateLimit f)) mode
                 credentials (in_verbose f)
      end
  | alerts => Invalid alerts
  end.

(** [Ui.handleSave] on the local storage, [None] when there is none: the
    items are set in order inside one [try], and the exception of
    [getMode] (no mode checked) ends it where it stands. *)
Definition handleSave (f : Inputs) (storage : option (gmap string string))
    : option (gmap string string) :=
  match storage with
  | None => None
  | Some items =>
      let items1 := <[ "userAgent" := in_userAgent f ]> items in
      let items2 := <[ "rateLimit" := in_rateLimit f ]> items1 in
      match getMode f with
      | inl _ => Some items2
      | inr mode =>
          let items3 := <[ "mode" := String_of_mode mode ]> items2 in
          let items4 := <[ "credentials" := in_credentials f ]> items3 in
          Some (<[ "verbose" := String_of_bool (in_verbose f) ]> items4)
      end
  end.

(** [Ui.handleLoad]: each input is set from its item; the rate limit is
    set when the [userAgent] item exists, as the source tests it.  The
    radio button of the stored mode is checked; the other two are left as
    the code leaves them (what the page does to the rest of a radio group
    is not in this file). *)
Definition handleLoad (storage : option (gmap string string)) (f : Inputs)
    : Inputs :=
  match storage with
  | None => f
  | Some items =>
      let userAgent :=
        match items !! "userAgent" with
        | Some v => v
        | None => in_userAgent f
        end in
      let rateLimit :=
        match items !! "userAgent" with
        | Some _ => String_of_number (Number_of_item (items !! "rateLimit"))
        | None => in_rateLimit f
        end in
      let mode := items !! "mode" in
      let stored m := match mode with
                      | Some v => String.eqb v m
                      | None => false
                      end in
      mkInputs userAgent rateLimit
               (if stored "0" then true else in_modeLogin f)
               (if stored "1" then true else in_modeRestore f)
               (if stored "2" then true else in_modeAuto f)
               match items !! "credentials" with
               | Some v => v
               | None => in_credentials f
               end
               match items !! "verbose" with
               | Some v => String.eqb v "true"
               | None => in_verbose f
               end
  end.

End Conversions.

End Ui.

(** * Vocabulary of the properties *)

(** ** Relations along a computation *)

(** The events a procedure emits by itself when the fields are [this]. *)
Inductive procedure_event (this : App) : Event -> Prop :=
| pe_log type m :
    m <> MCancelling -> m <> MPausing -> m <> MUnpausing ->
    procedure_event this (Log type m)
| pe_request n shards auth :
    procedure_event this (NationRequest n shards auth)
| pe_confirm :
    procedure_event this UiConfirm
| pe_submit c :
    procedure_event this (Submit (restoreForm (_userAgent this) c)).

(** A computation respects [R] when [R] relates the fields before, the
    events produced and the fields after, from every state and world. *)
Definition respects_for (R : App -> list Event -> App -> Prop) {A}
    (m : M A) : Prop :=
  forall this w, R this (out (m this w)) (app (m this w)).

Definition cancelling : Event := Log "info" MCancelling.

(** Once [cancel()] has run, at the start or during the events [evs],
    [_cancel] is set afterwards. *)
Definition cancel_kept (this : App) (evs : list Event) (this' : App) : Prop :=
  _cancel this = true \/ In cancelling evs -> _cancel this' = true.

(** A loop whose body breaks at once when [_cancel] is set does nothing
    for the credentials that follow. *)
Definition breaks_when_cancelled {A} (body : A -> M Flow) : Prop :=
  forall x this w,
    _cancel this = true -> body x this w = mkRun (Normal Break) this w [].

Definition is_cleanup (e : Event) : bool :=
  match e with
  | ApiCleanup => true
  | _ => false
  end.

(** How many times [api.cleanup()] was called. *)
Definition cleanups (evs : list Event) : nat :=
  List.length (List.filter is_cleanup evs).

Definition no_cleanup (this : App) (evs : list Event) (this' : App) : Prop :=
  cleanups evs = 0%nat.

(** The last line [start] logs. *)
Definition terminal_line (this : App) : Event :=
  Log "info" (if _cancel this then MProcessCancelled else MProcessComplete).

(** Along a procedure [_userAgent] does not change, every form submitted
    carries it, and no API client is constructed. *)
Definition identity_kept (this : App) (evs : list Event) (this' : App) : Prop :=
  _userAgent this' = _userAgent this
  /\ (forall f, In (Submit f) evs -> f_userAgent f = _userAgent this)
  /\ (forall ua flag rl, ~ In (NewNsApi ua flag rl) evs).

(** A restore request whose [resolved] is still false is not fulfilled. *)
Definition restore_inv (r : Request) : Prop :=
  resolved r = false -> promise r <> Fulfilled.

(** A login request is never rejected. *)
Definition login_inv (r : Request) : Prop := promise r <> Rejected.

(** ** The lines of one credential *)

(** The events produced and the fields left by the public methods called
    during the tick [t]. *)
Definition during (t : Tick) (this : App) : list Event :=
  fst (deliver (ui t) this).

Definition after (t : Tick) (this : App) : App :=
  snd (deliver (ui t) this).

(** The lines logged by the public control methods. *)
Definition control_line (e : Event) : Prop :=
  e = Log "info" MCancelling \/ e = Log "info" MPausing
  \/ e = Log "info" MUnpausing.

Definition control_lines (this : App) (evs : list Event) (this' : App) : Prop :=
  forall e, In e evs -> control_line e.

(** The lines of the [catch] clause of [loginNations]. *)
Definition login_caught (verbose : bool) (c : Credential) (err : Thrown)
    : list Event :=
  Log "error" (MLoginFailed (nation c))
  :: if verbose then [Log "error" (MInspect err)] else [].

(** The lines of the freshness test of [loginNations]. *)
Definition login_verdict (verbose : bool) (c : Credential) (now_ms : Z)
    (data : gmap string string) : list Event :=
  if num_gt (num_sub (seconds_of_ms now_ms)
                     (JsNumber.parseInt (data !! "lastlogin")))
            (Num 30)
  then Log "error" (MLoginFailed (nation c))
       :: if verbose then [Log "error" MMoreThan30] else []
  else [Log "info" (MLoginSuccessful (nation c))].

Definition login_opening (c : Credential) : list Event :=
  [Log "info" (MLoggingIn (nation c));
   NationRequest (nation c) ["nextissuetime"] (Some (password c))].

(** A loop body of the program breaks only on [_cancel]. *)
Definition break_only_when_cancelled {A} (body : A -> M Flow) : Prop :=
  forall x this w,
    _cancel this = false -> completion (body x this w) <> Normal Break.

(** Events among which there is no outcome line. *)
Definition silent (evs : list Event) : Prop :=
  forall c o, ~ In (outcome_line c o) evs.

(** The lines of the [catch] clause of [restoreNations]. *)
Definition restore_caught (verbose : bool) (c : Credential) (err : Thrown)
    : list Event :=
  Log "error" (MRestoreFailed (nation c))
  :: if verbose then [Log "error" (MInspect err)] else [].

Definition auto_opening (c : Credential) : list Event :=
  [Log "info" (MNationExists (nation c));
   NationRequest (nation c) ["name"] None].

(** ** Name normalisation, as specified and as documented *)

(** Whether the code unit [a] occurs in [s]. *)
Fixpoint occurs (a : ascii) (s : string) : bool :=
  match s with
  | EmptyString => false
  | String c s' => Ascii.eqb c a || occurs a s'
  end.

(** The normalisation in the words of the specification: trim, lowercase,
    collapse internal spaces to a single connector character. *)
Fixpoint collapse_spaces (in_run : bool) (s : string) : string :=
  match s with
  | EmptyString => EmptyString
  | String c s' =>
      if Ascii.eqb c " "
      then if in_run then collapse_spaces true s'
           else String "_" (collapse_spaces true s')
      else String c (collapse_spaces false s')
  end.

Definition toId_spec (name : string) : string :=
  collapse_spaces false (JsString.toLowerCase (JsString.trim name)).

(** The normalisation in the words of the doc comment of [toId]: all
    lowercase, with spaces replaced with underscores. *)
Definition toId_doc (name : string) : string :=
  JsString.replace_all_units " " "_" (JsString.toLowerCase name).

(** ** Scenarios *)

Definition testlandia : Credential := mkCredential "Testlandia" "pw1".

Definition ghostnation : Credential := mkCredential "ghostnation" "pw2".

(** A tick on which nothing is clicked, a request is answered with [data],
    the form loads in time, and the clock reads [ms]. *)
Definition answered (data : gmap string string) (ms : Z) : Tick :=
  mkTick [] (Fulfil data) LoadsInTime ms.

Definition refused (err : Thrown) (ms : Z) : Tick :=
  mkTick [] (Reject err) LoadsInTime ms.

Definition clicked (acts : list UiAction) (ms : Z) : Tick :=
  mkTick acts (Fulfil ∅) LoadsInTime ms.

Definition lastlogin_is (v : string) : gmap string string :=
  {[ "lastlogin" := v ]}.

(** Last login at second 1000, both reads answered, the second one at
    second 1030: a difference of exactly 30 s. *)
Definition world_boundary : World :=
  mkWorld 0 [answered ∅ 1029000; answered (lastlogin_is "1000") 1030000].

(** Both reads answered, but the answer has no [lastlogin] field. *)
Definition world_no_lastlogin : World :=
  mkWorld 0 [answered ∅ 1029000; answered ∅ 1030000].

(** Both reads answered, with a [lastlogin] that is not a number. *)
Definition world_bad_lastlogin : World :=
  mkWorld 0 [answered ∅ 1029000; answered (lastlogin_is "soon") 1030000].

(** The first remote call throws. *)
Definition world_refused : World :=
  mkWorld 0 [refused (Error "404") 5000].

(** Cancel is clicked while the first request of the first credential is
    pending; ticks remain for a second credential. *)
Definition world_cancelled : World :=
  mkWorld 0 [clicked [Cancel] 1000; answered (lastlogin_is "1") 2000;
             answered ∅ 3000; answered (lastlogin_is "3") 4000].

(** Confirmation, a submission that loads in time, a probe that finds the
    nation. *)
Definition world_restored : World :=
  mkWorld 0 [answered ∅ 1000; answered ∅ 7000;
             answered {[ "name" := "ghostnation" ]} 8000].

(** A probe that throws, then the ticks of [world_restored]. *)
Definition world_auto_missing : World :=
  mkWorld 0 (refused (Error "404") 500 :: script world_restored).

(** ** The credentials box *)

(** A line that [getCredentials] skips: empty once trimmed. *)
Definition blank (line : string) : bool :=
  String.eqb (JsString.trim line) EmptyString.

(** A line of exactly two comma-separated fields, read as a credential. *)
Definition reads_as (line : string) (c : Credential) : Prop :=
  JsText.split JsText.comma line = [nation c; password c].

Definition two_fields (line : string) : Prop :=
  exists c, reads_as line c.

(** The lines [getCredentials] does not skip. *)
Definition entries (text : string) : list string :=
  List.filter (fun line => negb (blank line))
              (JsText.split JsText.LF text).

(** A credential written as a line, and a list of them as a text. *)
Definition line_of (c : Credential) : string :=
  nation c +:+ String JsText.comma (password c).

Fixpoint text_of (cs : list Credential) : string :=
  match cs with
  | [] => EmptyString
  | [c] => line_of c
  | c :: cs' => line_of c +:+ String JsText.LF (text_of cs')
  end.

(** A field that can be written in the box: no comma, no line feed. *)
Definition plain (s : string) : Prop :=
  occurs JsText.comma s = false /\ occurs JsText.LF s = false.

(** ** Exceptions *)

(** A computation that never completes by an exception. *)
Definition no_throw {A} (m : M A) : Prop :=
  forall this w err, completion (m this w) <> Abrupt err.

(** ** The buttons *)

(** The pause button reads "Resume" exactly while the app is paused. *)
Definition label_agrees (this : App) (b : Ui.Buttons) : Prop :=
  Ui.pauseText b = "Resume" <-> _pause this = true.

(** ** Runs of [start] *)

(** [_cancel] is set by [cancel] only. *)
Definition cancel_only_by_call (this : App) (evs : list Event) (this' : App)
    : Prop :=
  _cancel this' = true -> _cancel this = true \/ In cancelling evs.

Definition no_finish (this : App) (evs : list Event) (this' : App) : Prop :=
  ~ In HandleFinish evs.

(** The line [start] logs for a recognised mode. *)
Definition mode_line (mode : Mode) : Event :=
  Log "info" (if mode =? Mode_Auto then MAutoMode
              else if mode =? Mode_Login then MLoginMode
                   else MRestoreMode).

(** ** Side-channel requests under any order of events *)

Definition is_timer (ev : TimerEvent) : bool :=
  match ev with
  | IframeLoad => false
  | _ => true
  end.

Definition is_load (ev : TimerEvent) : bool :=
  match ev with
  | IframeLoad => true
  | _ => false
  end.

(** The first of the two timers to fire, if one has. *)
Definition first_timer (evs : list TimerEvent) : option TimerEvent :=
  List.find is_timer evs.

(** ** What a run touches *)

(** The nation a log line is about, if it is about one. *)
Definition nation_of (m : Message) : option string :=
  match m with
  | MNationExists n | MNationDoesNotExist n | MLoggingIn n | MLoginFailed n
  | MLoginSuccessful n | MWaitingForConfirmation n | MConfirmationReceived n
  | MRestoreSuccessful n | MRestoreFailed n => Some n
  | _ => None
  end.

(** An event that concerns nobody but the listed credentials: a log line
    about a nation names the nation of a credential as it was typed; a
    request of the API is for the nation of a credential and is one of the
    three the procedures make, the password going with [nextissuetime]
    only; a form is the restore form of a credential.  The other events
    carry no nation. *)
Definition concerns (userAgent : string) (cs : list Credential) (e : Event)
    : Prop :=
  match e with
  | Log _ m =>
      match nation_of m with
      | Some n => exists c, In c cs /\ n = nation c
      | None => True
      end
  | NationRequest n shards auth =>
      exists c, In c cs /\ n = nation c
                /\ ((shards = ["nextissuetime"] /\ auth = Some (password c))
                    \/ (shards = ["lastlogin"] /\ auth = None)
                    \/ (shards = ["name"] /\ auth = None))
  | Submit f => exists c, In c cs /\ f = restoreForm userAgent c
  | _ => True
  end.

Definition confined (cs : list Credential) {A} (m : M A) : Prop :=
  forall this w,
    _userAgent (app (m this w)) = _userAgent this
    /\ forall e, In e (out (m this w)) -> concerns (_userAgent this) cs e.

(** ** The outcomes a run reports *)

(** The nation whose outcome a log line announces, if it is one of the
    four outcome lines. *)
Definition outcome_of (e : Event) : option string :=
  match e with
  | Log _ (MLoginSuccessful n) | Log _ (MLoginFailed n)
  | Log _ (MRestoreSuccessful n) | Log _ (MRestoreFailed n) => Some n
  | _ => None
  end.

(** The nations of the outcome lines of a log, in order. *)
Fixpoint reported (evs : list Event) : list string :=
  match evs with
  | [] => []
  | e :: evs' =>
      match outcome_of e with
      | Some n => n :: reported evs'
      | None => reported evs'
      end
  end.

(** A computation that reports the outcomes [ns] when it completes,
    nothing when it throws, and a first part of [ns] in any case. *)
Definition reports (ns : list string) {A} (m : M A) : Prop :=
  forall this w,
    (exists rest, ns = reported (out (m this w)) ++ rest)
    /\ (forall a, completion (m this w) = Normal a ->
                  reported (out (m this w)) = ns)
    /\ (forall err, completion (m this w) = Abrupt err ->
                    reported (out (m this w)) = []).

(** The same for a computation that cancellation may cut short. *)
Definition reports_unless_cancelled (ns : list string) {A} (m : M A) : Prop :=
  forall this w,
    (exists rest, ns = reported (out (m this w)) ++ rest)
    /\ (forall a, completion (m this w) = Normal a ->
                  _cancel (app (m this w)) = false ->
                  reported (out (m this w)) = ns).

(** ** The verbose flag *)

(** The two lines logged under [if (verbose)]. *)
Definition is_detail (e : Event) : bool :=
  match e with
  | Log _ MMoreThan30 | Log _ (MInspect _) => true
  | _ => false
  end.

Definition without_detail (evs : list Event) : list Event :=
  List.filter (fun e => negb (is_detail e)) evs.

(** [m1] does what [m2] does and logs detail lines besides. *)
Definition mirrors {A} (m1 m2 : M A) : Prop :=
  forall this w,
    completion (m1 this w) = completion (m2 this w)
    /\ app (m1 this w) = app (m2 this w)
    /\ world (m1 this w) = world (m2 this w)
    /\ without_detail (out (m1 this w)) = out (m2 this w).

(** ** A client that refuses a short delay *)

(** The constructor of a client that refuses a delay between requests
    below 600 ms, as the nsapi library does, with a [RangeError] (the text
    of its message is not in this repository). *)
Definition refuses_below_600 (userAgent : string) (delay : bool)
    (rateLimit : number) : option Thrown :=
  if num_gt (Num 600) rateLimit then Some (Error "RangeError") else None.

(** ** Waiting *)


(** A computation that is suspended only when the host has nothing more
    to deliver. *)
Definition waits_for_host_only {A} (m : M A) : Prop :=
  forall this w,
    completion (m this w) = Suspended -> script (world (m this w)) = [].

(** ** The two variants *)

(** Only [cancel] is called during the suspensions of [w]. *)
Definition calm (w : World) : Prop :=
  Forall (fun t => Forall (eq Cancel) (ui t)) (script w).

(** Two computations that run alike from an app that is not paused, in a
    world where only [cancel] is called; the app is then still not paused
    and the rest of the world is of the same kind. *)
Definition same_when_calm {A} (m1 m2 : M A) : Prop :=
  forall this w,
    _pause this = false -> calm w ->
    m1 this w = m2 this w
    /\ _pause (app (m1 this w)) = false
    /\ calm (world (m1 this w)).

(** * Properties *)

(** ** Events and state along a computation

    A relation [R this evs this'] between the fields before, the events
    produced and the fields after, that holds of no event at all and
    composes along sequencing, holds of every procedure as soon as it holds
    of the events the procedures emit and of the public control methods. *)

Section Respects.

Variable R : App -> list Event -> App -> Prop.
Hypothesis R_nil : forall this, R this [] this.
Hypothesis R_app : forall a b c l1 l2,
    R a l1 b -> R b l2 c -> R a (l1 ++ l2) c.
Hypothesis R_event : forall this e, procedure_event this e -> R this [e] this.
Hypothesis R_call : forall act this,
    R this (fst (call act this)) (snd (call act this)).

Local Abbreviation respects := (respects_for R).

Lemma respects_ret {A} (a : A) : respects (ret a).
Proof. intros this w; apply R_nil. Qed.

Lemma respects_throw {A} err : respects (@throw A err).
Proof. intros this w; apply R_nil. Qed.

Lemma respects_suspend {A} : respects (@suspend A).
Proof. intros this w; apply R_nil. Qed.

Lemma respects_get_this : respects get_this.
Proof. intros this w; apply R_nil. Qed.

Lemma respects_Date_now : respects Date_now.
Proof. intros this w; apply R_nil. Qed.

Lemma respects_bind {A B} (m : M A) (f : A -> M B) :
  respects m -> (forall a, respects (f a)) -> respects (bind m f).
Proof.
  intros Hm Hf this w. unfold bind.
  specialize (Hm this w).
  destruct (completion (m this w)) as [a| |]; simpl; try exact Hm.
  eapply R_app; [exact Hm | apply Hf].
Qed.

Lemma respects_try_catch {A} (m : M A) (h : Thrown -> M A) :
  respects m -> (forall err, respects (h err)) -> respects (try_catch m h).
Proof.
  intros Hm Hh this w. unfold try_catch.
  specialize (Hm this w).
  destruct (completion (m this w)) as [a|err|]; simpl; try exact Hm.
  eapply R_app; [exact Hm | apply Hh].
Qed.

Lemma respects_try_finally {A} (m : M A) (fin : M unit) :
  respects m -> respects fin -> respects (try_finally m fin).
Proof.
  intros Hm Hf this w. unfold try_finally.
  specialize (Hm this w).
  specialize (Hf (app (m this w)) (world (m this w))).
  destruct (completion (m this w)) as [a|err|]; simpl; try exact Hm;
    destruct (completion (fin _ _)); simpl; eapply R_app; eauto.
Qed.

Lemma respects_for_of {A} (xs : list A) (body : A -> M Flow) :
  (forall x, respects (body x)) -> respects (for_of xs body).
Proof.
  intros Hb. induction xs as [|x xs IH]; simpl.
  - apply respects_ret.
  - apply respects_bind; [apply Hb|].
    intros [|]; [exact IH | apply respects_ret].
Qed.

Lemma respects_emit e :
  (forall this, procedure_event this e) -> respects (emit e).
Proof. intros He this w. simpl. apply R_event, He. Qed.

Lemma respects_Ui_log type m :
  m <> MCancelling -> m <> MPausing -> m <> MUnpausing ->
  respects (Ui_log type m).
Proof. intros; apply respects_emit; intros; now constructor. Qed.

Lemma R_deliver acts : forall this,
    R this (fst (deliver acts this)) (snd (deliver acts this)).
Proof.
  induction acts as [|a acts IH]; intros this; simpl.
  - apply R_nil.
  - pose proof (R_call a this) as Ha.
    destruct (call a this) as [evs1 this1]; simpl in Ha.
    specialize (IH this1).
    destruct (deliver acts this1) as [evs2 this2]; simpl in *.
    eapply R_app; eauto.
Qed.

Lemma respects_await : respects await.
Proof.
  intros this w. unfold await.
  destruct (script w) as [|t rest]; simpl; [apply R_nil|].
  pose proof (R_deliver (ui t) this) as Hd.
  destruct (deliver (ui t) this); exact Hd.
Qed.

Lemma respects_waitUntilUnpaused : respects waitUntilUnpaused.
Proof.
  intros this w. unfold waitUntilUnpaused.
  generalize (time w) as now. revert this.
  induction (script w) as [|t rest IH]; intros this now; simpl.
  - destruct (_pause this); apply R_nil.
  - destruct (_pause this); [|apply R_nil].
    pose proof (R_deliver (ui t) this) as Hd.
    destruct (deliver (ui t) this) as [evs this']; simpl in *.
    eapply R_app; [exact Hd | apply IH].
Qed.

Lemma respects_get_bind {B} (f : App -> M B) :
  (forall this, respects (f this)) -> respects (bind get_this f).
Proof.
  intros Hf. apply respects_bind; [apply respects_get_this | exact Hf].
Qed.

Lemma respects_nationRequest n shards auth :
  respects (nationRequest n shards auth).
Proof.
  unfold nationRequest.
  apply respects_bind; [apply respects_emit; intros; constructor|].
  intros _. apply respects_bind; [apply respects_await|].
  intros t. destruct (settled t); [apply respects_ret | apply respects_throw].
Qed.

Lemma respects_Ui_confirm : respects Ui_confirm.
Proof.
  unfold Ui_confirm.
  apply respects_bind; [apply respects_emit; intros; constructor|].
  intros _. apply respects_bind; [apply respects_await|].
  intros _. apply respects_ret.
Qed.

Lemma R_events this evs :
  Forall (procedure_event this) evs -> R this evs this.
Proof.
  induction 1 as [|e evs He _ IH]; [apply R_nil|].
  change (e :: evs) with ([e] ++ evs).
  eapply R_app; [apply R_event, He | exact IH].
Qed.

Lemma emit_all_run evs this w :
  emit_all evs this w = mkRun (Normal tt) this w evs.
Proof.
  induction evs as [|e evs IH]; simpl; [reflexivity|].
  unfold bind; simpl. rewrite IH. reflexivity.
Qed.

Lemma restoreRequest_forms ua c evs : forall r,
    Forall (eq (restoreForm ua c)) (submitted r) ->
    Forall (eq (restoreForm ua c))
           (submitted (until_settled (restoreRequest_on ua c) evs r)).
Proof.
  induction evs as [|ev evs IH]; intros r Hr; simpl; [exact Hr|].
  destruct (promise r); try exact Hr.
  apply IH. destruct ev; simpl.
  - destruct (load_handler r); simpl; [|exact Hr].
    apply Forall_app; split; [exact Hr | repeat constructor].
  - exact Hr.
  - destruct (negb (resolved r)); exact Hr.
Qed.

Lemma respects_restoreRequest c : respects (restoreRequest c).
Proof.
  unfold restoreRequest, await_request.
  apply respects_bind; [apply respects_await|]. intros t this0 w0.
  unfold bind at 1, get_this; simpl.
  set (r := until_settled _ _ _).
  unfold bind. rewrite emit_all_run. simpl.
  assert (Hev : Forall (procedure_event this0) (map Submit (submitted r))).
  { pose proof (restoreRequest_forms (_userAgent this0) c
                  (timeline (iframe t)) request_init (List.Forall_nil _)) as Hf.
    fold r in Hf.
    induction Hf as [|f fs <- _ IH]; simpl; constructor;
      [constructor | exact IH]. }
  destruct (promise r); simpl; rewrite app_nil_r; apply R_events, Hev.
Qed.

Lemma respects_loginNations_body verbose c :
  respects (loginNations_body verbose c).
Proof.
  unfold loginNations_body, loginNations_try.
  apply respects_get_bind; intros this.
  destruct (_cancel this); [apply respects_ret|].
  apply respects_bind; [apply respects_waitUntilUnpaused|]. intros _.
  apply respects_bind; [|intros; apply respects_ret].
  apply respects_try_catch.
  - apply respects_bind; [now apply respects_Ui_log|]. intros _.
    apply respects_bind; [apply respects_nationRequest|]. intros _.
    apply respects_bind; [apply respects_nationRequest|]. intros data.
    apply respects_bind; [apply respects_Date_now|]. intros ms.
    cbv zeta. destruct (num_gt _ _); [|now apply respects_Ui_log].
    apply respects_bind; [now apply respects_Ui_log|]. intros _.
    destruct verbose; [now apply respects_Ui_log | apply respects_ret].
  - intros err.
    apply respects_bind; [now apply respects_Ui_log|]. intros _.
    destruct verbose; [now apply respects_Ui_log | apply respects_ret].
Qed.

Lemma respects_loginNations cs verbose : respects (loginNations cs verbose).
Proof. apply respects_for_of, respects_loginNations_body. Qed.

Lemma respects_restoreNations_body verbose c :
  respects (restoreNations_body verbose c).
Proof.
  unfold restoreNations_body, restoreNations_try.
  apply respects_get_bind; intros this.
  destruct (_cancel this); [apply respects_ret|].
  apply respects_bind; [apply respects_waitUntilUnpaused|]. intros _.
  apply respects_bind; [now apply respects_Ui_log|]. intros _.
  apply respects_bind; [apply respects_Ui_confirm|]. intros _.
  apply respects_bind; [now apply respects_Ui_log|]. intros _.
  apply respects_bind; [|intros; apply respects_ret].
  apply respects_try_catch.
  - apply respects_bind; [apply respects_restoreRequest|]. intros _.
    apply respects_bind; [apply respects_nationRequest|]. intros _.
    now apply respects_Ui_log.
  - intros err.
    apply respects_bind; [now apply respects_Ui_log|]. intros _.
    destruct verbose; [now apply respects_Ui_log | apply respects_ret].
Qed.

Lemma respects_restoreNations cs verbose :
  respects (restoreNations cs verbose).
Proof. apply respects_for_of, respects_restoreNations_body. Qed.

Lemma respects_auto_body verbose c : respects (auto_body verbose c).
Proof.
  unfold auto_body, auto_try.
  apply respects_get_bind; intros this.
  destruct (_cancel this); [apply respects_ret|].
  apply respects_bind; [apply respects_waitUntilUnpaused|]. intros _.
  apply respects_bind.
  - apply respects_try_catch.
    + apply respects_bind; [now apply respects_Ui_log|]. intros _.
      apply respects_bind; [apply respects_nationRequest|]. intros _.
      apply respects_ret.
    + intros _.
      apply respects_bind; [now apply respects_Ui_log|]. intros _.
      apply respects_ret.
  - intros login.
    apply respects_bind; [|intros; apply respects_ret].
    destruct login;
      [apply respects_loginNations | apply respects_restoreNations].
Qed.

Lemma respects_auto cs verbose : respects (auto cs verbose).
Proof. apply respects_for_of, respects_auto_body. Qed.

Lemma respects_dispatch mode cs verbose :
  respects (dispatch mode cs verbose).
Proof.
  unfold dispatch.
  destruct (mode =? Mode_Auto).
  { apply respects_bind; [now apply respects_Ui_log|]. intros _.
    apply respects_auto. }
  destruct (mode =? Mode_Login).
  { apply respects_bind; [now apply respects_Ui_log|]. intros _.
    apply respects_loginNations. }
  destruct (mode =? Mode_Restore).
  { apply respects_bind; [now apply respects_Ui_log|]. intros _.
    apply respects_restoreNations. }
  apply respects_throw.
Qed.

End Respects.

(** ** Cancellation *)

Lemma cancel_kept_nil this : cancel_kept this [] this.
Proof. intros [H|[]]; exact H. Qed.

Lemma cancel_kept_app a b c l1 l2 :
  cancel_kept a l1 b -> cancel_kept b l2 c -> cancel_kept a (l1 ++ l2) c.
Proof.
  unfold cancel_kept. intros H1 H2 [H|H].
  - auto.
  - apply in_app_or in H as [H|H]; auto.
Qed.

Lemma cancel_kept_event this e :
  procedure_event this e -> cancel_kept this [e] this.
Proof.
  intros He [H|[H|[]]]; [exact H|].
  subst e. inversion He; congruence.
Qed.

Lemma cancel_kept_call act this :
  cancel_kept this (fst (call act this)) (snd (call act this)).
Proof.
  destruct act; simpl; intros [H|[H|[]]]; auto; discriminate.
Qed.

Lemma dispatch_cancel_kept mode cs verbose this w :
  cancel_kept this (out (dispatch mode cs verbose this w))
              (app (dispatch mode cs verbose this w)).
Proof.
  apply (respects_dispatch cancel_kept cancel_kept_nil cancel_kept_app
           cancel_kept_event cancel_kept_call).
Qed.

Lemma for_of_cancelled {A} (body : A -> M Flow) xs this w :
  breaks_when_cancelled body ->
  _cancel this = true ->
  for_of xs body this w = mkRun (Normal tt) this w [].
Proof.
  intros Hb Hc. destruct xs as [|x xs]; [reflexivity|].
  simpl. unfold bind. rewrite (Hb x this w Hc). reflexivity.
Qed.

Lemma prepend_nil {A} (r : Run A) : prepend [] r = r.
Proof. destruct r; reflexivity. Qed.

Lemma bind_normal_run {A B} (m : M A) (f : A -> M B) this w a this' w' o :
  m this w = mkRun (Normal a) this' w' o ->
  bind m f this w = prepend o (f a this' w').
Proof. intros H. unfold bind. now rewrite H. Qed.

Lemma bind_abrupt_run {A B} (m : M A) (f : A -> M B) this w err this' w' o :
  m this w = mkRun (Abrupt err) this' w' o ->
  bind m f this w = mkRun (Abrupt err) this' w' o.
Proof. intros H. unfold bind. now rewrite H. Qed.

Lemma bind_suspended_run {A B} (m : M A) (f : A -> M B) this w this' w' o :
  m this w = mkRun Suspended this' w' o ->
  bind m f this w = mkRun Suspended this' w' o.
Proof. intros H. unfold bind. now rewrite H. Qed.

Lemma try_catch_suspended_run {A} (m : M A) h this w this' w' o :
  m this w = mkRun Suspended this' w' o ->
  try_catch m h this w = mkRun Suspended this' w' o.
Proof. intros H. unfold try_catch. now rewrite H. Qed.

Lemma try_catch_normal_run {A} (m : M A) h this w a this' w' o :
  m this w = mkRun (Normal a) this' w' o ->
  try_catch m h this w = mkRun (Normal a) this' w' o.
Proof. intros H. unfold try_catch. now rewrite H. Qed.

Lemma try_catch_abrupt_run {A} (m : M A) h this w err this' w' o :
  m this w = mkRun (Abrupt err) this' w' o ->
  try_catch m h this w = prepend o (h err this' w').
Proof. intros H. unfold try_catch. now rewrite H. Qed.

Lemma bind_normal_inv {A B} (m : M A) (f : A -> M B) this w b :
  completion (bind m f this w) = Normal b ->
  exists a,
    completion (m this w) = Normal a
    /\ completion (f a (app (m this w)) (world (m this w))) = Normal b.
Proof.
  unfold bind. destruct (completion (m this w)) as [a|err|]; simpl;
    try discriminate.
  intros H. now exists a.
Qed.

(** A body that ends in [ret Next] does not break. *)
Ltac never_breaks H :=
  repeat (apply bind_normal_inv in H; destruct H as (? & _ & H));
  discriminate H.

Lemma for_of_app_cancelled {A} (body : A -> M Flow) pre post :
  breaks_when_cancelled body ->
  forall this w,
    _cancel (app (for_of pre body this w)) = true ->
    for_of (pre ++ post) body this w = for_of pre body this w.
Proof.
  intros Hb. induction pre as [|x pre IH]; intros this w Hc.
  - simpl in *. now apply for_of_cancelled.
  - simpl in *. unfold bind in *.
    destruct (completion (body x this w)) as [[|]| |]; simpl in *;
      try reflexivity.
    now rewrite IH.
Qed.

Lemma loginNations_body_cancelled verbose :
  breaks_when_cancelled (loginNations_body verbose).
Proof.
  intros c this w Hc. unfold loginNations_body, bind, get_this; simpl.
  rewrite Hc. reflexivity.
Qed.

Lemma restoreNations_body_cancelled verbose :
  breaks_when_cancelled (restoreNations_body verbose).
Proof.
  intros c this w Hc. unfold restoreNations_body, bind, get_this; simpl.
  rewrite Hc. reflexivity.
Qed.

Lemma auto_body_cancelled verbose :
  breaks_when_cancelled (auto_body verbose).
Proof.
  intros c this w Hc. unfold auto_body, bind, get_this; simpl.
  rewrite Hc. reflexivity.
Qed.

(** C2: in every mode, once [cancel()] has been invoked (before or while
    the credentials [pre] are processed), [_cancel] is still set when the
    procedure ends, and the credentials [post] that follow produce nothing:
    the run over [pre ++ post] is the run over [pre], event for event. *)
Theorem cancel_stops_the_batch :
  forall (mode : Mode) (pre post : list Credential) (verbose : bool)
         (this : App) (w : World),
    _cancel this = true
    \/ In cancelling (out (dispatch mode pre verbose this w)) ->
    _cancel (app (dispatch mode pre verbose this w)) = true
    /\ dispatch mode (pre ++ post) verbose this w
       = dispatch mode pre verbose this w.
Proof.
  intros mode pre post verbose this w H.
  pose proof (dispatch_cancel_kept mode pre verbose this w H) as Hc.
  split; [exact Hc|].
  unfold dispatch in *.
  destruct (mode =? Mode_Auto);
    [|destruct (mode =? Mode_Login);
      [|destruct (mode =? Mode_Restore); [|reflexivity]]];
    unfold bind, Ui_log, emit in *; simpl in *; f_equal.
  - unfold auto. rewrite for_of_app_cancelled;
      auto using auto_body_cancelled.
  - unfold loginNations. rewrite for_of_app_cancelled;
      auto using loginNations_body_cancelled.
  - unfold restoreNations. rewrite for_of_app_cancelled;
      auto using restoreNations_body_cancelled.
Qed.

(** ** Release of the API client *)

Lemma cleanups_app l1 l2 : cleanups (l1 ++ l2) = (cleanups l1 + cleanups l2)%nat.
Proof. unfold cleanups. now rewrite List.filter_app, List.length_app. Qed.

Lemma no_cleanup_event this e : procedure_event this e -> no_cleanup this [e] this.
Proof. now destruct 1. Qed.

Lemma no_cleanup_call act this :
  no_cleanup this (fst (call act this)) (snd (call act this)).
Proof. now destruct act. Qed.

Lemma no_cleanup_app (a b c : App) l1 l2 :
  no_cleanup a l1 b -> no_cleanup b l2 c -> no_cleanup a (l1 ++ l2) c.
Proof. unfold no_cleanup. rewrite cleanups_app. lia. Qed.

Lemma dispatch_no_cleanup mode cs verbose this w :
  cleanups (out (dispatch mode cs verbose this w)) = 0%nat.
Proof.
  apply (respects_dispatch no_cleanup (fun _ => eq_refl) no_cleanup_app
           no_cleanup_event no_cleanup_call).
Qed.

Lemma waitUntilUnpaused_no_cleanup this w :
  cleanups (out (waitUntilUnpaused this w)) = 0%nat.
Proof.
  apply (respects_waitUntilUnpaused no_cleanup (fun _ => eq_refl)
           no_cleanup_app no_cleanup_call).
Qed.

(** The pause gate never throws. *)
Lemma waitUntilUnpaused_no_throw this w err :
  completion (waitUntilUnpaused this w) <> Abrupt err.
Proof.
  unfold waitUntilUnpaused. generalize (time w) as now. revert this.
  induction (script w) as [|t rest IH]; intros this now; simpl.
  - destruct (_pause this); discriminate.
  - destruct (_pause this); [|discriminate].
    destruct (deliver (ui t) this) as [evs this']. apply IH.
Qed.

(** [try { m } finally { api.cleanup() }]: whatever way [m] completes,
    normally or by an exception, the cleanup runs once and the completion of
    [m] is kept; it does not run while [m] is still suspended. *)
Lemma try_finally_cleanup {A} (m : M A) this w :
  cleanups (out (m this w)) = 0%nat ->
  let r := try_finally m (emit ApiCleanup) this w in
  completion r = completion (m this w)
  /\ cleanups (out r)
     = match completion (m this w) with
       | Suspended => 0%nat
       | _ => 1%nat
       end.
Proof.
  intros H. unfold try_finally.
  destruct (completion (m this w)) eqn:E; simpl; rewrite ?E;
    rewrite ?cleanups_app, ?H; auto.
Qed.

(** [start_with], unfolded along the completion of the procedure. *)
Lemma start_with_run userAgent rateLimit (procedure : M unit) this w :
  let this1 := mkApp false false (composed_userAgent userAgent) in
  let rd := procedure this1 w in
  let rw := waitUntilUnpaused (app rd) (world rd) in
  start_with userAgent rateLimit procedure this w =
  match completion rd with
  | Normal _ =>
      mkRun (match completion rw with
             | Normal _ => Normal tt
             | Abrupt err => Abrupt err
             | Suspended => Suspended
             end)
            (app rw) (world rw)
            ([NewNsApi userAgent true rateLimit] ++ out rd
               ++ [ApiCleanup; terminal_line (app rd)] ++ out rw
               ++ match completion rw with
                  | Normal _ => [HandleFinish]
                  | _ => []
                  end)
  | Abrupt err =>
      mkRun (Abrupt err) (app rd) (world rd)
            ([NewNsApi userAgent true rateLimit] ++ out rd ++ [ApiCleanup])
  | Suspended =>
      mkRun Suspended (app rd) (world rd)
            ([NewNsApi userAgent true rateLimit] ++ out rd)
  end.
Proof.
  intros this1 rd rw. subst rw rd. unfold start_with.
  do 3 (erewrite bind_normal_run by reflexivity).
  rewrite !prepend_nil. cbn [reset _cancel _pause _userAgent]. fold this1.
  unfold bind at 1, try_finally.
  destruct (procedure this1 w) as [[[]|err|] ad wd od];
    cbn [completion app world out]; try reflexivity.
  unfold emit at 1. cbn [completion app world out].
  erewrite bind_normal_run by reflexivity. rewrite prepend_nil.
  assert (Hline : (if _cancel ad
                   then Ui_log "info" MProcessCancelled
                   else Ui_log "info" MProcessComplete) ad wd
                  = mkRun (Normal tt) ad wd [terminal_line ad]).
  { unfold terminal_line. now destruct (_cancel ad). }
  erewrite bind_normal_run by exact Hline.
  unfold bind, emit.
  destruct (waitUntilUnpaused ad wd) as [[[]|err|] aw ww ow];
    unfold prepend; cbn [completion app world out];
    rewrite <- ?app_assoc, ?app_nil_r; reflexivity.
Qed.

Lemma start_is_start_with userAgent rateLimit mode credentials verbose :
  start userAgent rateLimit mode credentials verbose
  = start_with userAgent rateLimit (dispatch mode credentials verbose).
Proof. reflexivity. Qed.

Lemma start_run userAgent rateLimit mode credentials verbose this w :
  let this1 := mkApp false false (composed_userAgent userAgent) in
  let rd := dispatch mode credentials verbose this1 w in
  let rw := waitUntilUnpaused (app rd) (world rd) in
  start userAgent rateLimit mode credentials verbose this w =
  match completion rd with
  | Normal _ =>
      mkRun (match completion rw with
             | Normal _ => Normal tt
             | Abrupt err => Abrupt err
             | Suspended => Suspended
             end)
            (app rw) (world rw)
            ([NewNsApi userAgent true rateLimit] ++ out rd
               ++ [ApiCleanup; terminal_line (app rd)] ++ out rw
               ++ match completion rw with
                  | Normal _ => [HandleFinish]
                  | _ => []
                  end)
  | Abrupt err =>
      mkRun (Abrupt err) (app rd) (world rd)
            ([NewNsApi userAgent true rateLimit] ++ out rd ++ [ApiCleanup])
  | Suspended =>
      mkRun Suspended (app rd) (world rd)
            ([NewNsApi userAgent true rateLimit] ++ out rd)
  end.
Proof. rewrite start_is_start_with. apply start_with_run. Qed.

(** How often the cleanup ran when [start_with] ends, for a procedure
    that does not call it itself. *)
Lemma start_with_cleanups userAgent rateLimit (procedure : M unit) this w :
  (forall this' w', cleanups (out (procedure this' w')) = 0%nat) ->
  let r := start_with userAgent rateLimit procedure this w in
  match completion r with
  | Normal _ => cleanups (out r) = 1%nat
  | Abrupt err =>
      cleanups (out r) = 1%nat /\ List.last (out r) HandleFinish = ApiCleanup
  | Suspended => (cleanups (out r) <= 1)%nat
  end.
Proof.
  intros Hp r. subst r. rewrite start_with_run.
  set (this1 := mkApp false false (composed_userAgent userAgent)).
  pose proof (Hp this1 w) as Hd.
  set (rd := procedure this1 w) in *.
  pose proof (waitUntilUnpaused_no_cleanup (app rd) (world rd)) as Hw.
  destruct (completion rd) as [[]|err|]; cbn [completion out].
  - pose proof (waitUntilUnpaused_no_throw (app rd) (world rd)) as Ht.
    destruct (completion (waitUntilUnpaused (app rd) (world rd)))
      as [[]|err|]; [| now destruct (Ht err) |];
      rewrite !cleanups_app, Hd, Hw; cbn; lia.
  - split.
    + rewrite !cleanups_app, Hd. reflexivity.
    + rewrite app_assoc. apply List.last_last.
  - rewrite !cleanups_app, Hd. cbn. lia.
Qed.

Lemma dispatch_unrecognized mode cs verbose this w :
  mode <> Mode_Auto -> mode <> Mode_Login -> mode <> Mode_Restore ->
  dispatch mode cs verbose this w
  = mkRun (Abrupt (Error "Unrecognized mode")) this w [].
Proof.
  intros H1 H2 H3. unfold dispatch.
  apply Z.eqb_neq in H1, H2, H3. now rewrite H1, H2, H3.
Qed.

(** C7: whenever [start] returns or propagates an exception,
    [api.cleanup()] has been called exactly once, and when an exception
    propagates the cleanup is the last thing [start] did; while [start] is
    still suspended the cleanup has run at most once.  This holds around
    any procedure inside the [try], whether it completes, is cancelled or
    throws, and so for the three procedures of the program; an
    unrecognised mode makes [start] throw after the cleanup. *)
Theorem cleanup_exactly_once :
  (forall (userAgent : string) (rateLimit : number) (procedure : M unit)
          (this : App) (w : World),
      (forall this' w', cleanups (out (procedure this' w')) = 0%nat) ->
      let r := start_with userAgent rateLimit procedure this w in
      match completion r with
      | Normal _ => cleanups (out r) = 1%nat
      | Abrupt err =>
          cleanups (out r) = 1%nat
          /\ List.last (out r) HandleFinish = ApiCleanup
      | Suspended => (cleanups (out r) <= 1)%nat
      end)
  /\ (forall (userAgent : string) (rateLimit : number) (mode : Mode)
             (credentials : list Credential) (verbose : bool)
             (this : App) (w : World),
         let r := start userAgent rateLimit mode credentials verbose this w in
         match completion r with
         | Normal _ => cleanups (out r) = 1%nat
         | Abrupt err =>
             cleanups (out r) = 1%nat
             /\ List.last (out r) HandleFinish = ApiCleanup
         | Suspended => (cleanups (out r) <= 1)%nat
         end
         /\ (mode <> Mode_Auto -> mode <> Mode_Login ->
             mode <> Mode_Restore ->
             completion r = Abrupt (Error "Unrecognized mode"))).
Proof.
  split; [exact start_with_cleanups|].
  intros userAgent rateLimit mode credentials verbose this w r. split.
  - subst r. rewrite start_is_start_with.
    apply start_with_cleanups. intros this' w'. apply dispatch_no_cleanup.
  - intros H1 H2 H3. subst r. rewrite start_run.
    rewrite (dispatch_unrecognized mode credentials verbose _ w H1 H2 H3).
    reflexivity.
Qed.

(** ** The client identity *)

Lemma identity_kept_nil this : identity_kept this [] this.
Proof.
  split; [reflexivity|]. split; [intros f [] | intros ua flag rl []].
Qed.

Lemma identity_kept_app a b c l1 l2 :
  identity_kept a l1 b -> identity_kept b l2 c -> identity_kept a (l1 ++ l2) c.
Proof.
  intros (Hu1 & Hs1 & Hn1) (Hu2 & Hs2 & Hn2). split; [|split].
  - congruence.
  - intros f Hf. apply in_app_or in Hf as [Hf|Hf]; [auto|].
    rewrite <- Hu1. auto.
  - intros ua flag rl Hf. apply in_app_or in Hf as [Hf|Hf];
      [eapply Hn1 | eapply Hn2]; eauto.
Qed.

Lemma identity_kept_event this e :
  procedure_event this e -> identity_kept this [e] this.
Proof.
  intros He. split; [reflexivity|]. split.
  - intros f [Hf|[]]. subst e. inversion He. reflexivity.
  - intros ua flag rl [Hf|[]]. subst e. inversion He.
Qed.

Lemma identity_kept_call act this :
  identity_kept this (fst (call act this)) (snd (call act this)).
Proof.
  destruct act; simpl; (split; [reflexivity|]);
    (split; [intros f [H|[]] | intros ua flag rl [H|[]]]); discriminate.
Qed.

Lemma dispatch_identity_kept mode cs verbose this w :
  identity_kept this (out (dispatch mode cs verbose this w))
                (app (dispatch mode cs verbose this w)).
Proof.
  apply (respects_dispatch identity_kept identity_kept_nil identity_kept_app
           identity_kept_event identity_kept_call).
Qed.

Lemma waitUntilUnpaused_identity_kept this w :
  identity_kept this (out (waitUntilUnpaused this w))
                (app (waitUntilUnpaused this w)).
Proof.
  apply (respects_waitUntilUnpaused identity_kept identity_kept_nil
           identity_kept_app identity_kept_call).
Qed.

(** C9, as the code has it: [start] constructs the one API client of the
    run from the operator tag itself, [new NsApi(userAgent, true,
    rateLimit)], and from nothing else; the composed identity string is what
    [start] stores in [_userAgent], and it is the user agent written into
    every side-channel form submitted during the run. *)
Theorem client_built_from_operator_tag :
  forall (userAgent : string) (rateLimit : number) (mode : Mode)
         (credentials : list Credential) (verbose : bool)
         (this : App) (w : World),
    let r := start userAgent rateLimit mode credentials verbose this w in
    (exists rest,
        out r = NewNsApi userAgent true rateLimit :: rest
        /\ forall ua flag rl, ~ In (NewNsApi ua flag rl) rest)
    /\ _userAgent (app r) = composed_userAgent userAgent
    /\ (forall f, In (Submit f) (out r) ->
                  f_userAgent f = composed_userAgent userAgent).
Proof.
  intros userAgent rateLimit mode credentials verbose this w r.
  subst r. rewrite start_run.
  set (this1 := mkApp false false (composed_userAgent userAgent)).
  set (rd := dispatch mode credentials verbose this1 w).
  destruct (dispatch_identity_kept mode credentials verbose this1 w)
    as (Hu & Hs & Hn). fold rd in Hu, Hs, Hn.
  destruct (waitUntilUnpaused_identity_kept (app rd) (world rd))
    as (Huw & Hsw & Hnw).
  set (rw := waitUntilUnpaused (app rd) (world rd)) in *.
  assert (Htail : forall tl : list Event,
             (tl = [HandleFinish] \/ tl = []) ->
             (forall ua flag rl,
                 ~ In (NewNsApi ua flag rl)
                      (out rd ++ [ApiCleanup; terminal_line (app rd)]
                           ++ out rw ++ tl))
             /\ (forall f,
                    In (Submit f)
                       ([NewNsApi userAgent true rateLimit] ++ out rd
                          ++ [ApiCleanup; terminal_line (app rd)]
                          ++ out rw ++ tl) ->
                    f_userAgent f = composed_userAgent userAgent)).
  { intros tl Htl. split.
    - intros ua flag rl H.
      destruct Htl; subst tl; rewrite !in_app_iff in H; simpl in H;
        rewrite ?in_app_iff in H; simpl in H; decompose [or] H;
        try discriminate; try contradiction;
        solve [eapply Hn; eassumption | eapply Hnw; eassumption].
    - intros f H.
      destruct Htl; subst tl; rewrite !in_app_iff in H; simpl in H;
        rewrite ?in_app_iff in H; simpl in H; decompose [or] H;
        try discriminate; try contradiction;
        solve [now apply Hs
              | match goal with
                | Hf : In (Submit f) (out rw) |- _ =>
                    rewrite (Hsw f Hf); exact Hu
                end]. }
  destruct (completion rd) as [[]|err|]; simpl.
  - assert (Hcase : match completion rw with
                    | Normal _ => [HandleFinish]
                    | _ => []
                    end = [HandleFinish]
                    \/ match completion rw with
                       | Normal _ => [HandleFinish]
                       | _ => []
                       end = ([] : list Event))
      by (destruct (completion rw); auto).
    destruct (Htail _ Hcase) as [H1 H2].
    split; [eexists; split; [reflexivity | exact H1]|].
    split; [rewrite Huw, Hu; reflexivity | exact H2].
  - split; [eexists; split; [reflexivity|]|split; [exact Hu|]].
    + intros ua flag rl H. rewrite in_app_iff in H. simpl in H.
      decompose [or] H; try discriminate; try contradiction.
      eapply Hn; eassumption.
    + intros f H. simpl in H. rewrite in_app_iff in H. simpl in H.
      decompose [or] H; try discriminate; try contradiction.
      now apply Hs.
  - split; [eexists; split; [reflexivity | exact Hn]|split; [exact Hu|]].
    intros f [H|H]; [discriminate | now apply Hs].
Qed.

(** ** The 15 s ceiling of side-channel requests *)

Section Ceiling.

Variables (userAgent : string) (credential : Credential).

Local Abbreviation restore_step :=
  (restoreRequest_on userAgent credential).
Local Abbreviation login_step :=
  (Legacy.loginRequest_on userAgent credential).

Lemma restore_inv_step ev r : restore_inv r -> restore_inv (restore_step ev r).
Proof.
  unfold restore_inv. destruct ev; simpl.
  - destruct (load_handler r); simpl; auto.
  - discriminate.
  - destruct (resolved r) eqn:E; simpl; [congruence|].
    intros H _. specialize (H eq_refl).
    destruct (promise r); simpl; congruence.
Qed.

Lemma login_inv_step ev r : login_inv r -> login_inv (login_step ev r).
Proof.
  unfold login_inv. destruct ev; simpl.
  - destruct (load_handler r); simpl; auto.
  - destruct (promise r); simpl; congruence.
  - destruct (resolved r); simpl; [auto|].
    destruct (promise r); simpl; congruence.
Qed.

Lemma fold_inv (step : TimerEvent -> Request -> Request) (P : Request -> Prop) :
  (forall ev r, P r -> P (step ev r)) ->
  forall evs r, P r -> P (fold_left (fun r ev => step ev r) evs r).
Proof.
  intros Hstep. induction evs as [|ev evs IH]; intros r Hr; simpl; auto.
Qed.

Lemma restore_inv_after evs : restore_inv (after_events restore_step evs).
Proof.
  unfold after_events.
  apply (fold_inv restore_step restore_inv); [apply restore_inv_step|].
  intros _. discriminate.
Qed.

Lemma login_inv_after evs : login_inv (after_events login_step evs).
Proof.
  unfold after_events.
  apply (fold_inv login_step login_inv); [apply login_inv_step|].
  discriminate.
Qed.

End Ceiling.

(** C8: whatever happened to a side-channel request before (the events
    [evs]), if its [resolved] flag is still false when the 15 s timer
    fires, the promise of a restore request is rejected after that timer,
    and the promise of a login request is fulfilled. *)
Theorem timeout_asymmetry :
  forall (userAgent : string) (credential : Credential)
         (evs : list TimerEvent),
    (resolved (after_events (restoreRequest_on userAgent credential) evs)
     = false ->
     promise (restoreRequest_on userAgent credential CeilingTimer
                (after_events (restoreRequest_on userAgent credential) evs))
     = Rejected)
    /\ (resolved (after_events (Legacy.loginRequest_on userAgent credential) evs)
        = false ->
        promise (Legacy.loginRequest_on userAgent credential CeilingTimer
                   (after_events (Legacy.loginRequest_on userAgent credential)
                                 evs))
        = Fulfilled).
Proof.
  intros userAgent credential evs. split; intros H.
  - pose proof (restore_inv_after userAgent credential evs H) as Hp.
    simpl. rewrite H. simpl.
    destruct (promise _); simpl; congruence.
  - pose proof (login_inv_after userAgent credential evs) as Hp.
    unfold login_inv in Hp.
    simpl. rewrite H. simpl.
    destruct (promise _); simpl; congruence.
Qed.

(** What the awaiting procedure sees: unless the form loads and settles in
    time, awaiting a restore request throws [undefined]; awaiting a login
    request never throws. *)
Lemma await_request_timeout (credential : Credential) (this : App)
    (now : Z) (t : Tick) (rest : list Tick) :
  (iframe t <> LoadsInTime ->
   completion (restoreRequest credential this (mkWorld now (t :: rest)))
   = Abrupt Undefined)
  /\ completion (Legacy.loginRequest credential this (mkWorld now (t :: rest)))
     = Normal tt.
Proof.
  unfold restoreRequest, Legacy.loginRequest, await_request, bind, await,
    get_this; simpl.
  destruct (deliver (ui t) this) as [evs this']; simpl.
  split; [intros H|]; destruct (iframe t); try congruence; reflexivity.
Qed.

(** ** One suspension *)

Lemma control_lines_app (a b c : App) l1 l2 :
  control_lines a l1 b -> control_lines b l2 c -> control_lines a (l1 ++ l2) c.
Proof.
  intros H1 H2 e He. apply in_app_or in He as [He|He]; auto.
Qed.

Lemma control_lines_call act this :
  control_lines this (fst (call act this)) (snd (call act this)).
Proof.
  destruct act; intros e [<-|[]]; unfold control_line; auto.
Qed.

Lemma during_control_lines t this e : In e (during t this) -> control_line e.
Proof.
  apply (R_deliver control_lines (fun _ _ H => match H with end)
           control_lines_app control_lines_call (ui t) this).
Qed.

Lemma waitUntilUnpaused_control_lines this w e :
  In e (out (waitUntilUnpaused this w)) -> control_line e.
Proof.
  apply (respects_waitUntilUnpaused control_lines
           (fun _ _ H => match H with end)
           control_lines_app control_lines_call this w).
Qed.

Lemma outcome_line_not_control c o : ~ control_line (outcome_line c o).
Proof. destruct o; intros [H|[H|H]]; discriminate. Qed.

Lemma await_run this now t rest :
  await this (mkWorld now (t :: rest))
  = mkRun (Normal t) (after t this) (mkWorld (clock t) rest) (during t this).
Proof.
  unfold await, after, during; simpl. now destruct (deliver (ui t) this).
Qed.

Lemma nationRequest_run n shards auth this now t rest :
  nationRequest n shards auth this (mkWorld now (t :: rest))
  = mkRun match settled t with
          | Fulfil data => Normal data
          | Reject err => Abrupt err
          end
          (after t this) (mkWorld (clock t) rest)
          (NationRequest n shards auth :: during t this).
Proof.
  unfold nationRequest, bind at 1, emit; simpl.
  unfold bind. rewrite await_run. simpl.
  destruct (settled t); unfold prepend, ret, throw; simpl;
    now rewrite app_nil_r.
Qed.

(** The pause gate is the loop of the source:
    [while (this._pause) { await App.sleep(1000); }]. *)
Lemma waitUntilUnpaused_loop this w :
  waitUntilUnpaused this w
  = if _pause this
    then (sleep 1000 >> waitUntilUnpaused) this w
    else ret tt this w.
Proof.
  unfold waitUntilUnpaused at 1. destruct w as [now ticks].
  cbn [script time]. destruct ticks as [|t rest]; cbn [waitUntilUnpaused_from];
    destruct (_pause this); try reflexivity.
  unfold sleep. unfold bind at 1 2. rewrite await_run.
  cbn [completion app world out]. unfold during, after.
  destruct (deliver (ui t) this) as [evs this'].
  unfold prepend, ret, waitUntilUnpaused;
    cbn [completion app world out script time fst snd].
  now rewrite !app_nil_r.
Qed.

(** ** The Login procedure, one credential *)

Lemma nationRequest_fulfil n shards auth this now t rest data :
  settled t = Fulfil data ->
  nationRequest n shards auth this (mkWorld now (t :: rest))
  = mkRun (Normal data) (after t this) (mkWorld (clock t) rest)
          (NationRequest n shards auth :: during t this).
Proof. intros H. now rewrite nationRequest_run, H. Qed.

Lemma nationRequest_reject n shards auth this now t rest err :
  settled t = Reject err ->
  nationRequest n shards auth this (mkWorld now (t :: rest))
  = mkRun (Abrupt err) (after t this) (mkWorld (clock t) rest)
          (NationRequest n shards auth :: during t this).
Proof. intros H. now rewrite nationRequest_run, H. Qed.

Lemma login_caught_run (verbose : bool) c err this w :
  ((Ui_log "error" (MLoginFailed (nation c)) >>
    if verbose then Ui_log "error" (MInspect err) else ret tt) : M unit)
    this w
  = mkRun (Normal tt) this w (login_caught verbose c err).
Proof. now destruct verbose. Qed.

Lemma loginNations_try_first_throws verbose c this now t1 rest err :
  settled t1 = Reject err ->
  loginNations_try verbose c this (mkWorld now (t1 :: rest))
  = mkRun (Normal tt) (after t1 this) (mkWorld (clock t1) rest)
          (login_opening c ++ during t1 this ++ login_caught verbose c err).
Proof.
  intros H1. unfold loginNations_try.
  erewrite try_catch_abrupt_run.
  2:{ erewrite bind_normal_run by reflexivity.
      erewrite bind_abrupt_run by (apply nationRequest_reject; eassumption).
      reflexivity. }
  rewrite login_caught_run. unfold prepend, login_opening; simpl.
  rewrite <- ?app_assoc. reflexivity.
Qed.

Lemma loginNations_try_second_throws verbose c this now t1 t2 rest d1 err :
  settled t1 = Fulfil d1 ->
  settled t2 = Reject err ->
  loginNations_try verbose c this (mkWorld now (t1 :: t2 :: rest))
  = mkRun (Normal tt) (after t2 (after t1 this)) (mkWorld (clock t2) rest)
          (login_opening c ++ during t1 this
             ++ NationRequest (nation c) ["lastlogin"] None
             :: during t2 (after t1 this) ++ login_caught verbose c err).
Proof.
  intros H1 H2. unfold loginNations_try.
  erewrite try_catch_abrupt_run.
  2:{ erewrite bind_normal_run by reflexivity.
      erewrite bind_normal_run by (apply nationRequest_fulfil; eassumption).
      erewrite bind_abrupt_run by (apply nationRequest_reject; eassumption).
      reflexivity. }
  rewrite login_caught_run. unfold prepend, login_opening; simpl.
  rewrite <- ?app_assoc. simpl. rewrite <- ?app_assoc. reflexivity.
Qed.

Lemma login_verdict_run (verbose : bool) c ms data this w :
  ((let now := seconds_of_ms ms in
    let lastLogin := JsNumber.parseInt (data !! "lastlogin") in
    if num_gt (num_sub now lastLogin) (Num 30) then
      Ui_log "error" (MLoginFailed (nation c)) >>
      if verbose then Ui_log "error" MMoreThan30 else ret tt
    else
      Ui_log "info" (MLoginSuccessful (nation c))) : M unit) this w
  = mkRun (Normal tt) this w (login_verdict verbose c ms data).
Proof.
  unfold login_verdict. cbv zeta.
  destruct (num_gt _ _); [now destruct verbose | reflexivity].
Qed.

Lemma loginNations_try_reads verbose c this now t1 t2 rest d1 d2 :
  settled t1 = Fulfil d1 ->
  settled t2 = Fulfil d2 ->
  loginNations_try verbose c this (mkWorld now (t1 :: t2 :: rest))
  = mkRun (Normal tt) (after t2 (after t1 this)) (mkWorld (clock t2) rest)
          (login_opening c ++ during t1 this
             ++ NationRequest (nation c) ["lastlogin"] None
             :: during t2 (after t1 this)
             ++ login_verdict verbose c (clock t2) d2).
Proof.
  intros H1 H2. unfold loginNations_try.
  erewrite try_catch_normal_run; [reflexivity|].
  erewrite bind_normal_run by reflexivity.
  erewrite bind_normal_run by (apply nationRequest_fulfil; eassumption).
  erewrite bind_normal_run by (apply nationRequest_fulfil; eassumption).
  erewrite bind_normal_run by reflexivity.
  rewrite login_verdict_run. unfold prepend, login_opening; simpl.
  rewrite <- ?app_assoc. simpl. rewrite <- ?app_assoc. reflexivity.
Qed.

Lemma for_of_cons {A} (body : A -> M Flow) x xs this w :
  breaks_when_cancelled body ->
  break_only_when_cancelled body ->
  for_of (x :: xs) body this w = (for_of [x] body >> for_of xs body) this w.
Proof.
  intros Hb Ho. destruct (_cancel this) eqn:Hc.
  - rewrite (for_of_cancelled body (x :: xs) this w Hb Hc).
    unfold bind at 1.
    rewrite (for_of_cancelled body [x] this w Hb Hc). simpl.
    now rewrite (for_of_cancelled body xs this w Hb Hc).
  - specialize (Ho x this w Hc). simpl. unfold bind in *.
    destruct (body x this w) as [[[|]|err|] a w' o]; simpl in *;
      try reflexivity; [|congruence].
    rewrite app_nil_r. reflexivity.
Qed.

Lemma loginNations_body_run verbose c this w :
  _cancel this = false ->
  completion (waitUntilUnpaused this w) = Normal tt ->
  loginNations_body verbose c this w
  = prepend (out (waitUntilUnpaused this w))
      ((loginNations_try verbose c >> ret Next)
         (app (waitUntilUnpaused this w)) (world (waitUntilUnpaused this w))).
Proof.
  intros Hc Hg. unfold loginNations_body.
  unfold bind at 1, get_this; simpl. rewrite Hc.
  unfold bind at 1. rewrite Hg. now rewrite prepend_nil.
Qed.

Lemma loginNations_body_breaks verbose :
  break_only_when_cancelled (loginNations_body verbose).
Proof.
  intros c this w Hc H. unfold loginNations_body in H.
  unfold bind at 1, get_this in H; simpl in H. rewrite Hc in H.
  rewrite ?prepend_nil in H. never_breaks H.
Qed.

(** [loginNations] on one credential: the pause gate, then the [try]
    statement. *)
Lemma loginNations_one verbose c this w :
  _cancel this = false ->
  completion (waitUntilUnpaused this w) = Normal tt ->
  loginNations [c] verbose this w
  = prepend (out (waitUntilUnpaused this w))
      (loginNations_try verbose c
         (app (waitUntilUnpaused this w)) (world (waitUntilUnpaused this w))).
Proof.
  intros Hc Hg. unfold loginNations. cbn [for_of].
  unfold bind at 1. rewrite (loginNations_body_run verbose c this w Hc Hg).
  generalize (out (waitUntilUnpaused this w)) as og.
  generalize (app (waitUntilUnpaused this w)) as ag.
  generalize (world (waitUntilUnpaused this w)) as wg.
  intros wg ag og. unfold bind.
  generalize (loginNations_try verbose c ag wg) as rt.
  intros [[[]|err|] a2 w2 o2]; unfold prepend, ret; cbn;
    rewrite ?app_nil_r; reflexivity.
Qed.

(** The loop goes on with the credentials that follow. *)
Lemma loginNations_cons verbose c cs this w :
  loginNations (c :: cs) verbose this w
  = (loginNations [c] verbose >> loginNations cs verbose) this w.
Proof.
  apply for_of_cons;
    [apply loginNations_body_cancelled | apply loginNations_body_breaks].
Qed.

Lemma silent_nil : silent [].
Proof. intros c o []. Qed.

Lemma silent_app l1 l2 : silent l1 -> silent l2 -> silent (l1 ++ l2).
Proof.
  intros H1 H2 c o H. apply in_app_or in H as [H|H];
    [eapply H1 | eapply H2]; eauto.
Qed.

Lemma silent_cons e l :
  (forall c o, e <> outcome_line c o) -> silent l -> silent (e :: l).
Proof. intros He Hl c o [H|H]; [eapply He | eapply Hl]; eauto. Qed.

Lemma silent_during t this : silent (during t this).
Proof.
  intros c o H. eapply outcome_line_not_control, during_control_lines, H.
Qed.

Lemma silent_gate this w : silent (out (waitUntilUnpaused this w)).
Proof.
  intros c o H.
  eapply outcome_line_not_control, waitUntilUnpaused_control_lines, H.
Qed.

Lemma in_outcome_app pre tail c o :
  silent pre ->
  In (outcome_line c o) (pre ++ tail) <-> In (outcome_line c o) tail.
Proof.
  intros Hp. rewrite in_app_iff. split; [intros [H|H]|auto]; auto.
  destruct (Hp c o H).
Qed.

Ltac silence :=
  repeat first
    [ apply silent_nil
    | apply silent_gate
    | apply silent_during
    | apply silent_app
    | apply silent_cons; [intros ? []; discriminate|] ].

Lemma login_verdict_succeeded verbose c ms data (T : Q) :
  JsNumber.parseInt (data !! "lastlogin") = Num T ->
  In (outcome_line c LoginSucceeded) (login_verdict verbose c ms data)
  <-> (inject_Z ms / 1000 - T <= 30)%Q.
Proof.
  intros HT. unfold login_verdict. rewrite HT. simpl.
  destruct (Qle_bool _ _) eqn:E; simpl.
  - apply Qle_bool_iff in E. split; [intros _; exact E | auto].
  - split.
    + destruct verbose; simpl; intros H; decompose [or] H;
        try discriminate; contradiction.
    + intros H. apply Qle_bool_iff in H. congruence.
Qed.

Lemma login_verdict_failed verbose c ms data (T : Q) :
  JsNumber.parseInt (data !! "lastlogin") = Num T ->
  In (outcome_line c LoginFailed) (login_verdict verbose c ms data)
  <-> (30 < inject_Z ms / 1000 - T)%Q.
Proof.
  intros HT. unfold login_verdict. rewrite HT. simpl.
  destruct (Qle_bool _ _) eqn:E; simpl.
  - apply Qle_bool_iff in E. split.
    + intros [H|[]]; discriminate.
    + intros H. exfalso. eapply Qlt_not_le; eauto.
  - split; [intros _|auto].
    apply Qnot_le_lt. intros H. apply Qle_bool_iff in H. congruence.
Qed.

(** The run of [loginNations] on one credential whose two reads complete:
    events without outcome line, then the lines of the freshness test. *)
Lemma loginNations_one_reads verbose c this w t1 t2 rest d1 d2 :
  _cancel this = false ->
  completion (waitUntilUnpaused this w) = Normal tt ->
  script (world (waitUntilUnpaused this w)) = t1 :: t2 :: rest ->
  settled t1 = Fulfil d1 ->
  settled t2 = Fulfil d2 ->
  exists pre,
    silent pre
    /\ loginNations [c] verbose this w
       = mkRun (Normal tt)
               (after t2 (after t1 (app (waitUntilUnpaused this w))))
               (mkWorld (clock t2) rest)
               (pre ++ login_verdict verbose c (clock t2) d2).
Proof.
  intros Hc Hg Hs H1 H2.
  rewrite (loginNations_one verbose c this w Hc Hg).
  destruct (world (waitUntilUnpaused this w)) as [now ticks].
  simpl in Hs. subst ticks.
  rewrite (loginNations_try_reads verbose c _ now t1 t2 rest d1 d2 H1 H2).
  exists (out (waitUntilUnpaused this w)
            ++ login_opening c ++ during t1 (app (waitUntilUnpaused this w))
            ++ NationRequest (nation c) ["lastlogin"] None
            :: during t2 (after t1 (app (waitUntilUnpaused this w)))).
  split; [unfold login_opening; silence|].
  unfold prepend; simpl. f_equal.
  rewrite <- !app_assoc. simpl. rewrite <- !app_assoc. reflexivity.
Qed.

(** The same when one of the two remote calls throws [err]: events
    without outcome line, then the lines of the [catch] clause. *)
Lemma loginNations_one_throws verbose c this w t1 rest err :
  _cancel this = false ->
  completion (waitUntilUnpaused this w) = Normal tt ->
  script (world (waitUntilUnpaused this w)) = t1 :: rest ->
  (settled t1 = Reject err
   \/ exists d1 t2 rest',
       settled t1 = Fulfil d1 /\ rest = t2 :: rest'
       /\ settled t2 = Reject err) ->
  exists pre,
    silent pre
    /\ completion (loginNations [c] verbose this w) = Normal tt
    /\ out (loginNations [c] verbose this w)
       = pre ++ login_caught verbose c err.
Proof.
  intros Hc Hg Hs Hthrow.
  rewrite (loginNations_one verbose c this w Hc Hg).
  destruct (world (waitUntilUnpaused this w)) as [now ticks].
  simpl in Hs. subst ticks.
  destruct Hthrow as [H1|(d1 & t2 & rest' & H1 & -> & H2)].
  - rewrite (loginNations_try_first_throws verbose c _ now t1 rest err H1).
    exists (out (waitUntilUnpaused this w)
              ++ login_opening c ++ during t1 (app (waitUntilUnpaused this w))).
    split; [unfold login_opening; silence|]. split; [reflexivity|].
    unfold prepend; simpl. now rewrite <- !app_assoc.
  - rewrite (loginNations_try_second_throws verbose c _ now t1 t2 rest'
               d1 err H1 H2).
    exists (out (waitUntilUnpaused this w)
              ++ login_opening c ++ during t1 (app (waitUntilUnpaused this w))
              ++ NationRequest (nation c) ["lastlogin"] None
              :: during t2 (after t1 (app (waitUntilUnpaused this w)))).
    split; [unfold login_opening; silence|]. split; [reflexivity|].
    unfold prepend; simpl.
    rewrite <- !app_assoc. simpl. rewrite <- !app_assoc. reflexivity.
Qed.

(** The freshness test on a [lastlogin] that is a number: when the two
    remote reads of a credential complete without throwing and the
    [lastlogin] field parses to a number [T], the outcome is LoginSucceeded
    exactly when [now - T <= 30] and LoginFailed exactly when
    [now - T > 30], with [now] the clock when the [lastlogin] read resumes;
    a difference of exactly 30 s succeeds. *)
Theorem login_freshness :
  forall (verbose : bool) (c : Credential) (this : App) (w : World)
         (t1 t2 : Tick) (rest : list Tick) (d1 d2 : gmap string string)
         (T : Q),
    _cancel this = false ->
    completion (waitUntilUnpaused this w) = Normal tt ->
    script (world (waitUntilUnpaused this w)) = t1 :: t2 :: rest ->
    settled t1 = Fulfil d1 ->
    settled t2 = Fulfil d2 ->
    JsNumber.parseInt (d2 !! "lastlogin") = Num T ->
    let r := loginNations [c] verbose this w in
    let elapsed := (inject_Z (clock t2) / 1000 - T)%Q in
    (In (outcome_line c LoginSucceeded) (out r) <-> (elapsed <= 30)%Q)
    /\ (In (outcome_line c LoginFailed) (out r) <-> (30 < elapsed)%Q).
Proof.
  intros verbose c this w t1 t2 rest d1 d2 T Hc Hg Hs H1 H2 HT r elapsed.
  subst r elapsed.
  destruct (loginNations_one_reads verbose c this w t1 t2 rest d1 d2
              Hc Hg Hs H1 H2) as (pre & Hpre & ->).
  cbn [out]. rewrite !in_outcome_app by exact Hpre.
  split;
    [apply login_verdict_succeeded | apply login_verdict_failed]; exact HT.
Qed.

(** The exceptions of the remote calls: an exception thrown by either
    remote call of a credential is caught inside the loop body; the
    credential is classified LoginFailed (and not LoginSucceeded), verbose
    mode logs the exception, nothing propagates, and the loop goes on with
    the next credential. *)
Theorem login_exceptions_caught :
  forall (verbose : bool) (c : Credential) (cs : list Credential)
         (this : App) (w : World) (t1 : Tick) (rest : list Tick)
         (err : Thrown),
    _cancel this = false ->
    completion (waitUntilUnpaused this w) = Normal tt ->
    script (world (waitUntilUnpaused this w)) = t1 :: rest ->
    (settled t1 = Reject err
     \/ exists d1 t2 rest',
         settled t1 = Fulfil d1 /\ rest = t2 :: rest'
         /\ settled t2 = Reject err) ->
    let r := loginNations [c] verbose this w in
    completion r = Normal tt
    /\ In (outcome_line c LoginFailed) (out r)
    /\ ~ In (outcome_line c LoginSucceeded) (out r)
    /\ (verbose = true -> In (Log "error" (MInspect err)) (out r))
    /\ loginNations (c :: cs) verbose this w
       = prepend (out r) (loginNations cs verbose (app r) (world r)).
Proof.
  intros verbose c cs this w t1 rest err Hc Hg Hs Hthrow r.
  destruct (loginNations_one_throws verbose c this w t1 rest err
              Hc Hg Hs Hthrow) as (pre & Hpre & Hn & Ho).
  fold r in Hn, Ho.
  split; [exact Hn|]. rewrite Ho, !in_outcome_app by exact Hpre.
  split; [now left|]. split; [|split].
  - unfold login_caught. destruct verbose; simpl; intros H;
      decompose [or] H; try discriminate; contradiction.
  - intros ->. apply in_or_app. right. simpl. auto.
  - rewrite loginNations_cons. unfold bind. fold r. rewrite Hn, Ho.
    reflexivity.
Qed.

(** ** The Restore procedure, one credential *)

Lemma restore_caught_run (verbose : bool) c err this w :
  ((Ui_log "error" (MRestoreFailed (nation c)) >>
    if verbose then Ui_log "error" (MInspect err) else ret tt) : M unit)
    this w
  = mkRun (Normal tt) this w (restore_caught verbose c err).
Proof. now destruct verbose. Qed.

Lemma silent_submits forms : silent (map Submit forms).
Proof.
  induction forms as [|f forms IH]; simpl; [apply silent_nil|].
  apply silent_cons; [intros ? []; discriminate | exact IH].
Qed.

Lemma silent_await this w : silent (out (await this w)).
Proof.
  unfold await. destruct (script w) as [|t rest]; simpl; [apply silent_nil|].
  pose proof (silent_during t this) as H. unfold during in H.
  now destruct (deliver (ui t) this).
Qed.

Lemma silent_restoreRequest c this w : silent (out (restoreRequest c this w)).
Proof.
  unfold restoreRequest, await_request, bind at 1.
  pose proof (silent_await this w) as Ha.
  destruct (await this w) as [[t|err|] a1 w1 o1]; simpl in *; try exact Ha.
  apply silent_app; [exact Ha|].
  unfold bind at 1, get_this; simpl.
  unfold bind. rewrite emit_all_run. simpl.
  destruct (promise _); simpl; rewrite app_nil_r; apply silent_submits.
Qed.

Lemma silent_nationRequest n shards auth this w :
  silent (out (nationRequest n shards auth this w)).
Proof.
  unfold nationRequest, bind at 1, emit; simpl.
  apply silent_cons; [intros ? []; discriminate|].
  unfold bind. pose proof (silent_await this w) as Ha.
  destruct (await this w) as [[t|err|] a1 w1 o1]; simpl in *; try exact Ha.
  destruct (settled t); simpl; now rewrite app_nil_r.
Qed.

(** The [try] statement of [restoreNations], along the completions of the
    submission and of the probe that follows it. *)
Lemma restoreNations_try_run verbose c this w :
  let rs := restoreRequest c this w in
  let rp := nationRequest (nation c) ["name"] None (app rs) (world rs) in
  restoreNations_try verbose c this w
  = match completion rs with
    | Normal _ =>
        match completion rp with
        | Normal _ =>
            mkRun (Normal tt) (app rp) (world rp)
                  (out rs ++ out rp
                     ++ [Log "info" (MRestoreSuccessful (nation c))])
        | Abrupt err =>
            mkRun (Normal tt) (app rp) (world rp)
                  (out rs ++ out rp ++ restore_caught verbose c err)
        | Suspended =>
            mkRun Suspended (app rp) (world rp) (out rs ++ out rp)
        end
    | Abrupt err =>
        mkRun (Normal tt) (app rs) (world rs)
              (out rs ++ restore_caught verbose c err)
    | Suspended => mkRun Suspended (app rs) (world rs) (out rs)
    end.
Proof.
  intros rs rp. subst rp rs. unfold restoreNations_try.
  destruct (restoreRequest c this w) as [[[]|err|] a1 w1 o1] eqn:Es;
    cbn [completion app world out].
  - destruct (nationRequest (nation c) ["name"] None a1 w1)
      as [[data|err|] a2 w2 o2] eqn:Ep; cbn [completion app world out].
    + erewrite try_catch_normal_run; [reflexivity|].
      erewrite bind_normal_run by exact Es.
      erewrite bind_normal_run by exact Ep.
      unfold prepend, Ui_log, emit; cbn [completion app world out].
      reflexivity.
    + erewrite try_catch_abrupt_run.
      2:{ erewrite bind_normal_run by exact Es.
          erewrite bind_abrupt_run by exact Ep. reflexivity. }
      rewrite restore_caught_run.
      unfold prepend; cbn [completion app world out].
      now rewrite <- app_assoc.
    + erewrite try_catch_suspended_run; [reflexivity|].
      erewrite bind_normal_run by exact Es.
      erewrite bind_suspended_run by exact Ep. reflexivity.
  - erewrite try_catch_abrupt_run
      by (erewrite bind_abrupt_run by exact Es; reflexivity).
    now rewrite restore_caught_run.
  - erewrite try_catch_suspended_run; [reflexivity|].
    erewrite bind_suspended_run by exact Es. reflexivity.
Qed.

Lemma restoreNations_body_breaks verbose :
  break_only_when_cancelled (restoreNations_body verbose).
Proof.
  intros c this w Hc H. unfold restoreNations_body in H.
  unfold bind at 1, get_this in H; simpl in H. rewrite Hc in H.
  rewrite ?prepend_nil in H. never_breaks H.
Qed.

Lemma restoreNations_cons verbose c cs this w :
  restoreNations (c :: cs) verbose this w
  = (restoreNations [c] verbose >> restoreNations cs verbose) this w.
Proof.
  apply for_of_cons;
    [apply restoreNations_body_cancelled | apply restoreNations_body_breaks].
Qed.

Lemma Ui_confirm_run this now t rest :
  Ui_confirm this (mkWorld now (t :: rest))
  = mkRun (Normal tt) (after t this) (mkWorld (clock t) rest)
          (UiConfirm :: during t this).
Proof.
  unfold Ui_confirm.
  erewrite bind_normal_run by reflexivity.
  erewrite bind_normal_run by apply await_run.
  unfold prepend, ret; simpl. now rewrite app_nil_r.
Qed.

Lemma restoreNations_body_run verbose c this w :
  _cancel this = false ->
  completion (waitUntilUnpaused this w) = Normal tt ->
  restoreNations_body verbose c this w
  = prepend (out (waitUntilUnpaused this w))
      ((Ui_log "info" (MWaitingForConfirmation (nation c)) >>
        Ui_confirm >>
        Ui_log "info" (MConfirmationReceived (nation c)) >>
        restoreNations_try verbose c >>
        ret Next)
         (app (waitUntilUnpaused this w)) (world (waitUntilUnpaused this w))).
Proof.
  intros Hc Hg. unfold restoreNations_body.
  unfold bind at 1, get_this; simpl. rewrite Hc.
  unfold bind at 1. rewrite Hg. now rewrite prepend_nil.
Qed.

(** [restoreNations] on one credential that reaches the submission step:
    events without outcome line, then the [try] statement. *)
Lemma restoreNations_one verbose c this w tq rest :
  _cancel this = false ->
  completion (waitUntilUnpaused this w) = Normal tt ->
  script (world (waitUntilUnpaused this w)) = tq :: rest ->
  exists pre,
    silent pre
    /\ restoreNations [c] verbose this w
       = prepend pre
           (restoreNations_try verbose c
              (after tq (app (waitUntilUnpaused this w)))
              (mkWorld (clock tq) rest)).
Proof.
  intros Hc Hg Hs.
  exists (out (waitUntilUnpaused this w)
            ++ Log "info" (MWaitingForConfirmation (nation c))
            :: UiConfirm :: during tq (app (waitUntilUnpaused this w))
            ++ [Log "info" (MConfirmationReceived (nation c))]).
  split; [silence|].
  unfold restoreNations. cbn [for_of].
  unfold bind at 1. rewrite (restoreNations_body_run verbose c this w Hc Hg).
  generalize (out (waitUntilUnpaused this w)) as og.
  generalize (app (waitUntilUnpaused this w)) as ag.
  destruct (world (waitUntilUnpaused this w)) as [now ticks].
  simpl in Hs. subst ticks. intros ag og.
  erewrite (bind_normal_run (Ui_log _ _)) by reflexivity.
  erewrite (bind_normal_run Ui_confirm) by apply Ui_confirm_run.
  erewrite (bind_normal_run (Ui_log _ _)) by reflexivity.
  unfold bind.
  generalize (restoreNations_try verbose c (after tq ag)
                (mkWorld (clock tq) rest)) as rt.
  intros [[[]|err|] a2 w2 o2]; unfold prepend, ret;
    cbn [completion app world out];
    rewrite ?app_nil_r, <- ?app_assoc; cbn; rewrite <- ?app_assoc;
    reflexivity.
Qed.

(** C5: for a credential that reaches the submission step, the outcome is
    RestoreSucceeded exactly when neither the submission nor the probe of
    [name] that follows it throws, and RestoreFailed exactly when one of
    them throws; nothing else (such as an earlier existence probe) enters. *)
Theorem restore_success_criterion :
  forall (verbose : bool) (c : Credential) (this : App) (w : World)
         (tq : Tick) (rest : list Tick),
    _cancel this = false ->
    completion (waitUntilUnpaused this w) = Normal tt ->
    script (world (waitUntilUnpaused this w)) = tq :: rest ->
    let submission :=
      restoreRequest c (after tq (app (waitUntilUnpaused this w)))
                     (mkWorld (clock tq) rest) in
    let probe :=
      nationRequest (nation c) ["name"] None
                    (app submission) (world submission) in
    let r := restoreNations [c] verbose this w in
    (In (outcome_line c RestoreSucceeded) (out r)
     <-> completion submission = Normal tt
         /\ exists data, completion probe = Normal data)
    /\ (In (outcome_line c RestoreFailed) (out r)
        <-> (exists err, completion submission = Abrupt err)
            \/ (completion submission = Normal tt
                /\ exists err, completion probe = Abrupt err)).
Proof.
  intros verbose c this w tq rest Hc Hg Hs submission probe r.
  destruct (restoreNations_one verbose c this w tq rest Hc Hg Hs)
    as (pre & Hpre & Hr).
  subst r. rewrite Hr, restoreNations_try_run. fold submission. fold probe.
  pose proof (silent_restoreRequest c
                (after tq (app (waitUntilUnpaused this w)))
                (mkWorld (clock tq) rest)) as Hss.
  pose proof (silent_nationRequest (nation c) ["name"] None
                (app submission) (world submission)) as Hsp.
  fold submission in Hss. fold probe in Hsp.
  assert (Hcaught : forall err,
             ~ In (outcome_line c RestoreSucceeded)
                  (restore_caught verbose c err)).
  { intros err H. unfold restore_caught in H.
    destruct verbose; simpl in H; decompose [or] H;
      try discriminate; contradiction. }
  assert (Hfailed : forall err,
             In (outcome_line c RestoreFailed) (restore_caught verbose c err))
    by (intros err; now left).
  destruct (completion submission) as [[]|err|];
    [destruct (completion probe) as [data|err|]|..];
    unfold prepend; cbn [out]; rewrite ?app_assoc.
  - rewrite !(in_outcome_app ((pre ++ out submission) ++ out probe))
      by (apply silent_app; [apply silent_app|]; assumption).
    split; split.
    + intros _. split; [reflexivity | now exists data].
    + intros _. now left.
    + intros H. simpl in H. decompose [or] H; try discriminate; contradiction.
    + intros [[err H]|[_ [err H]]]; discriminate.
  - rewrite !(in_outcome_app ((pre ++ out submission) ++ out probe))
      by (apply silent_app; [apply silent_app|]; assumption).
    split; split.
    + intros H. destruct (Hcaught err H).
    + intros [_ [data H]]. discriminate.
    + intros _. right. split; [reflexivity | now exists err].
    + intros _. apply Hfailed.
  - assert (Hall : silent ((pre ++ out submission) ++ out probe))
      by (apply silent_app; [apply silent_app|]; assumption).
    split; split.
    + intros H. destruct (Hall _ _ H).
    + intros [_ [data H]]. discriminate.
    + intros H. destruct (Hall _ _ H).
    + intros [[err H]|[_ [err H]]]; discriminate.
  - rewrite !(in_outcome_app (pre ++ out submission))
      by (apply silent_app; assumption).
    split; split.
    + intros H. destruct (Hcaught err H).
    + intros [H _]. discriminate.
    + intros _. left. now exists err.
    + intros _. apply Hfailed.
  - assert (Hall : silent (pre ++ out submission))
      by (apply silent_app; assumption).
    split; split.
    + intros H. destruct (Hall _ _ H).
    + intros [H _]. discriminate.
    + intros H. destruct (Hall _ _ H).
    + intros [[err H]|[H _]]; discriminate.
Qed.

(** ** The Auto procedure, one credential *)

Lemma auto_try_exists c this now t rest data :
  settled t = Fulfil data ->
  auto_try c this (mkWorld now (t :: rest))
  = mkRun (Normal true) (after t this) (mkWorld (clock t) rest)
          (auto_opening c ++ during t this).
Proof.
  intros H. unfold auto_try.
  erewrite try_catch_normal_run; [reflexivity|].
  erewrite bind_normal_run by reflexivity.
  erewrite bind_normal_run by (apply nationRequest_fulfil; eassumption).
  unfold prepend, ret; simpl. now rewrite app_nil_r.
Qed.

Lemma auto_try_missing c this now t rest err :
  settled t = Reject err ->
  auto_try c this (mkWorld now (t :: rest))
  = mkRun (Normal false) (after t this) (mkWorld (clock t) rest)
          (auto_opening c ++ during t this
             ++ [Log "info" (MNationDoesNotExist (nation c))]).
Proof.
  intros H. unfold auto_try.
  erewrite try_catch_abrupt_run.
  2:{ erewrite bind_normal_run by reflexivity.
      erewrite bind_abrupt_run by (apply nationRequest_reject; eassumption).
      reflexivity. }
  erewrite bind_normal_run by reflexivity.
  unfold prepend, ret; simpl. reflexivity.
Qed.

Lemma auto_try_suspended c this now :
  auto_try c this (mkWorld now [])
  = mkRun Suspended this (mkWorld now []) (auto_opening c).
Proof. reflexivity. Qed.

Lemma auto_body_run verbose c this w :
  _cancel this = false ->
  completion (waitUntilUnpaused this w) = Normal tt ->
  auto_body verbose c this w
  = prepend (out (waitUntilUnpaused this w))
      ((login <- auto_try c ;;
        (if login : bool
         then loginNations [c] verbose
         else restoreNations [c] verbose) >>
        ret Next)
         (app (waitUntilUnpaused this w)) (world (waitUntilUnpaused this w))).
Proof.
  intros Hc Hg. unfold auto_body.
  unfold bind at 1, get_this; simpl. rewrite Hc.
  unfold bind at 1. rewrite Hg. now rewrite prepend_nil.
Qed.

(** After the branch taken for one credential, the loop of [auto] goes on
    with the credentials that follow. *)
Lemma auto_continues (branch : M unit) verbose cs this w :
  bind (branch >> ret Next)
       (fun f => match f with
                 | Break => ret tt
                 | Next => auto cs verbose
                 end) this w
  = (branch >> auto cs verbose) this w.
Proof.
  unfold bind.
  generalize (branch this w) as rb.
  intros [[[]|err|] a1 w1 o1]; unfold prepend, ret;
    cbn [completion app world out]; rewrite ?app_nil_r; reflexivity.
Qed.

Lemma prepend_prepend {A} l1 l2 (r : Run A) :
  prepend l1 (prepend l2 r) = prepend (l1 ++ l2) r.
Proof. unfold prepend; simpl. now rewrite app_assoc. Qed.

Lemma bind_of_prepend {A B} (m m' : M A) (k : A -> M B) this w l this' w' :
  m this w = prepend l (m' this' w') ->
  bind m k this w = prepend l (bind m' k this' w').
Proof.
  intros H. unfold bind. rewrite H.
  generalize (m' this' w') as r.
  intros [[a|err|] a1 w1 o1]; unfold prepend; cbn [completion app world out];
    rewrite ?app_assoc; reflexivity.
Qed.

Lemma bind_ret_tt (m : M unit) this w : (m >> ret tt) this w = m this w.
Proof.
  unfold bind. generalize (m this w) as r.
  intros [[[]|err|] a1 w1 o1]; unfold prepend, ret;
    cbn [completion app world out]; rewrite ?app_nil_r; reflexivity.
Qed.

(** [auto] on a credential whose probe is answered: the Login procedure on
    that credential alone, then the rest of the batch. *)
Lemma auto_cons_exists verbose c cs this w t rest data :
  _cancel this = false ->
  completion (waitUntilUnpaused this w) = Normal tt ->
  script (world (waitUntilUnpaused this w)) = t :: rest ->
  settled t = Fulfil data ->
  auto (c :: cs) verbose this w
  = prepend (out (waitUntilUnpaused this w) ++ auto_opening c
               ++ during t (app (waitUntilUnpaused this w)))
      ((loginNations [c] verbose >> auto cs verbose)
         (after t (app (waitUntilUnpaused this w)))
         (mkWorld (clock t) rest)).
Proof.
  intros Hc Hg Hs Ht. unfold auto at 1. cbn [for_of].
  erewrite bind_of_prepend.
  2:{ rewrite (auto_body_run verbose c this w Hc Hg).
      destruct (world (waitUntilUnpaused this w)) as [now ticks].
      simpl in Hs. subst ticks.
      erewrite bind_normal_run by (eapply auto_try_exists; eassumption).
      rewrite prepend_prepend. reflexivity. }
  cbv beta iota. rewrite <- ?app_assoc. f_equal. apply auto_continues.
Qed.

(** [auto] on a credential whose probe throws: the Restore procedure on
    that credential alone, then the rest of the batch. *)
Lemma auto_cons_missing verbose c cs this w t rest err :
  _cancel this = false ->
  completion (waitUntilUnpaused this w) = Normal tt ->
  script (world (waitUntilUnpaused this w)) = t :: rest ->
  settled t = Reject err ->
  auto (c :: cs) verbose this w
  = prepend (out (waitUntilUnpaused this w) ++ auto_opening c
               ++ during t (app (waitUntilUnpaused this w))
               ++ [Log "info" (MNationDoesNotExist (nation c))])
      ((restoreNations [c] verbose >> auto cs verbose)
         (after t (app (waitUntilUnpaused this w)))
         (mkWorld (clock t) rest)).
Proof.
  intros Hc Hg Hs Ht. unfold auto at 1. cbn [for_of].
  erewrite bind_of_prepend.
  2:{ rewrite (auto_body_run verbose c this w Hc Hg).
      destruct (world (waitUntilUnpaused this w)) as [now ticks].
      simpl in Hs. subst ticks.
      erewrite bind_normal_run by (eapply auto_try_missing; eassumption).
      rewrite prepend_prepend. reflexivity. }
  cbv beta iota. rewrite <- ?app_assoc. f_equal. apply auto_continues.
Qed.

(** C6: for a credential processed in Auto mode, once the existence probe
    is answered the run is the run of the Login procedure on the singleton
    list of that credential, and once it throws it is the run of the
    Restore procedure on that singleton list -- from the fields and world
    the probe leaves, with the same events and the same completion; in a
    batch the remaining credentials follow. *)
Theorem auto_dispatch :
  forall (verbose : bool) (c : Credential) (cs : list Credential)
         (this : App) (w : World) (t : Tick) (rest : list Tick),
    _cancel this = false ->
    completion (waitUntilUnpaused this w) = Normal tt ->
    script (world (waitUntilUnpaused this w)) = t :: rest ->
    let gate := waitUntilUnpaused this w in
    let this' := after t (app gate) in
    let w' := mkWorld (clock t) rest in
    let probed := out gate ++ auto_opening c ++ during t (app gate) in
    match settled t with
    | Fulfil _ =>
        auto [c] verbose this w
        = prepend probed (loginNations [c] verbose this' w')
        /\ auto (c :: cs) verbose this w
           = prepend probed
               ((loginNations [c] verbose >> auto cs verbose) this' w')
    | Reject _ =>
        auto [c] verbose this w
        = prepend (probed ++ [Log "info" (MNationDoesNotExist (nation c))])
            (restoreNations [c] verbose this' w')
        /\ auto (c :: cs) verbose this w
           = prepend (probed ++ [Log "info" (MNationDoesNotExist (nation c))])
               ((restoreNations [c] verbose >> auto cs verbose) this' w')
    end.
Proof.
  intros verbose c cs this w t rest Hc Hg Hs gate this' w' probed.
  subst gate this' w' probed.
  destruct (settled t) as [data|err] eqn:Ht.
  - split.
    + rewrite (auto_cons_exists verbose c [] this w t rest data Hc Hg Hs Ht).
      f_equal. apply bind_ret_tt.
    + apply (auto_cons_exists verbose c cs this w t rest data Hc Hg Hs Ht).
  - rewrite <- !app_assoc. split.
    + rewrite (auto_cons_missing verbose c [] this w t rest err Hc Hg Hs Ht).
      f_equal. apply bind_ret_tt.
    + apply (auto_cons_missing verbose c cs this w t rest err Hc Hg Hs Ht).
Qed.

(** C10: in Auto mode the line "<nation>: Nation exists" is logged right
    before the probe request is issued, whatever the probe will answer; so
    when the probe throws, the log has "<nation>: Nation exists" and, after
    it, "<nation>: Nation does not exist". *)
Theorem auto_logs_exists_before_probe :
  forall (verbose : bool) (c : Credential) (cs : list Credential)
         (this : App) (w : World),
    _cancel this = false ->
    completion (waitUntilUnpaused this w) = Normal tt ->
    let gate := waitUntilUnpaused this w in
    let r := auto (c :: cs) verbose this w in
    (exists tail,
        out r = out gate
                  ++ Log "info" (MNationExists (nation c))
                  :: NationRequest (nation c) ["name"] None :: tail)
    /\ (forall t rest err,
           script (world gate) = t :: rest ->
           settled t = Reject err ->
           exists mid tail,
             out r = out gate
                       ++ Log "info" (MNationExists (nation c))
                       :: NationRequest (nation c) ["name"] None :: mid
                       ++ Log "info" (MNationDoesNotExist (nation c)) :: tail)
    /\ render (MNationExists (nation c)) = nation c +:+ ": Nation exists"
    /\ render (MNationDoesNotExist (nation c))
       = nation c +:+ ": Nation does not exist".
Proof.
  intros verbose c cs this w Hc Hg gate r. subst gate r.
  split; [|split; [|split; reflexivity]].
  - destruct (script (world (waitUntilUnpaused this w))) as [|t rest] eqn:Hs.
    + exists []. unfold auto. cbn [for_of].
      erewrite bind_of_prepend
        by (rewrite (auto_body_run verbose c this w Hc Hg); reflexivity).
      destruct (world (waitUntilUnpaused this w)) as [now ticks].
      simpl in Hs. subst ticks.
      erewrite bind_suspended_run
        by (erewrite bind_suspended_run by apply auto_try_suspended;
            reflexivity).
      reflexivity.
    + destruct (settled t) as [data|err] eqn:Ht.
      * rewrite (auto_cons_exists verbose c cs this w t rest data Hc Hg Hs Ht).
        eexists. unfold prepend, auto_opening; cbn [out].
        rewrite <- !app_assoc. reflexivity.
      * rewrite (auto_cons_missing verbose c cs this w t rest err Hc Hg Hs Ht).
        eexists. unfold prepend, auto_opening; cbn [out].
        rewrite <- !app_assoc. reflexivity.
  - intros t rest err Hs Ht.
    rewrite (auto_cons_missing verbose c cs this w t rest err Hc Hg Hs Ht).
    exists (during t (app (waitUntilUnpaused this w))). eexists.
    unfold prepend, auto_opening; cbn [out].
    rewrite <- !app_assoc. reflexivity.
Qed.

(** ** Name normalisation *)

(** [replace] with a one-unit pattern rewrites the first occurrence and
    copies what follows it, further occurrences included. *)
Lemma replace_first_occurrence (a b : ascii) (s1 s2 : string) :
  occurs a s1 = false ->
  JsString.replace (String a EmptyString) (String b EmptyString)
                   (s1 +:+ String a s2)
  = s1 +:+ String b s2.
Proof.
  induction s1 as [|c s1 IH]; intros H; simpl in *.
  - destruct (ascii_dec a a) as [_|Hn]; [|now destruct Hn].
    now destruct s2.
  - apply orb_false_iff in H as [Hc Hs].
    destruct (ascii_dec a c) as [->|_].
    + now rewrite Ascii.eqb_refl in Hc.
    + now rewrite IH.
Qed.

(** C4 fails on the code: [replace] with a string pattern replaces the
    first occurrence only, so of the two spaces of "The Holy Empire" the
    second one stays, where the specification and the doc comment of [toId]
    both give "the_holy_empire". *)
Theorem toId_replaces_first_space_only :
  toId "The Holy Empire" = "the_holy empire"
  /\ toId_spec "The Holy Empire" = "the_holy_empire"
  /\ toId_doc "The Holy Empire" = "the_holy_empire".
Proof. repeat split; reflexivity. Qed.

(** On a name without underscore and with one internal space, the three
    agree. *)
Example toId_one_space :
  toId " New Lazarus " = "new_lazarus"
  /\ toId_spec " New Lazarus " = "new_lazarus".
Proof. split; reflexivity. Qed.

(** ** The claims on concrete runs *)

(** A difference of exactly 30 s is a success. *)
Lemma login_freshness_witness :
  (In (outcome_line testlandia LoginSucceeded)
      (out (loginNations [testlandia] false new_App world_boundary))
   <-> (inject_Z 1030000 / 1000 - 1000 <= 30)%Q)
  /\ (In (outcome_line testlandia LoginFailed)
         (out (loginNations [testlandia] false new_App world_boundary))
      <-> (30 < inject_Z 1030000 / 1000 - 1000)%Q).
Proof.
  apply (login_freshness false testlandia new_App world_boundary
           (answered ∅ 1029000) (answered (lastlogin_is "1000") 1030000)
           [] ∅ (lastlogin_is "1000") 1000%Q);
    vm_compute; reflexivity.
Defined.

(** The freshness test is [now - lastLogin > 30] and nothing else: where
    [lastlogin] does not parse, [lastLogin] is [NaN], the test is false and
    the verdict is the success line, whatever the clock. *)
Lemma login_verdict_not_a_number verbose c ms data :
  JsNumber.parseInt (data !! "lastlogin") = NaN ->
  login_verdict verbose c ms data = [outcome_line c LoginSucceeded].
Proof. intros H. unfold login_verdict. now rewrite H. Qed.

(** C1 fails on the code: both reads complete, the answer has no
    [lastlogin] field, [parseInt] yields [NaN], [now - NaN > 30] is false
    and the credential is classified LoginSucceeded and not LoginFailed,
    although [now - lastlogin <= 30] does not hold: that comparison is
    false as well. *)
Theorem login_without_lastlogin_succeeds :
  completion (loginNations [testlandia] false new_App world_no_lastlogin)
  = Normal tt
  /\ JsNumber.parseInt ((∅ : gmap string string) !! "lastlogin") = NaN
  /\ In (outcome_line testlandia LoginSucceeded)
        (out (loginNations [testlandia] false new_App world_no_lastlogin))
  /\ ~ In (outcome_line testlandia LoginFailed)
          (out (loginNations [testlandia] false new_App world_no_lastlogin))
  /\ num_le (num_sub (seconds_of_ms 1030000)
                     (JsNumber.parseInt ((∅ : gmap string string)
                                           !! "lastlogin")))
            (Num 30) = false.
Proof.
  split; [vm_compute; reflexivity|].
  split; [vm_compute; reflexivity|]. split; [|split].
  - vm_compute. auto 10.
  - vm_compute. intros H. decompose [or] H; try discriminate; contradiction.
  - vm_compute. reflexivity.
Qed.

Lemma cancel_stops_the_batch_witness :
  _cancel (app (dispatch Mode_Login [testlandia] false new_App
                         world_cancelled)) = true
  /\ dispatch Mode_Login ([testlandia] ++ [ghostnation]) false new_App
              world_cancelled
     = dispatch Mode_Login [testlandia] false new_App world_cancelled.
Proof.
  apply (cancel_stops_the_batch Mode_Login [testlandia] [ghostnation] false
           new_App world_cancelled).
  right. vm_compute. auto 10.
Defined.

Lemma login_exceptions_caught_witness :
  In (outcome_line testlandia LoginFailed)
     (out (loginNations [testlandia] true new_App world_refused))
  /\ In (Log "error" (MInspect (Error "404")))
        (out (loginNations [testlandia] true new_App world_refused)).
Proof.
  destruct (login_exceptions_caught true testlandia [ghostnation] new_App
              world_refused (refused (Error "404") 5000) [] (Error "404")
              eq_refl eq_refl eq_refl (or_introl eq_refl))
    as (_ & H1 & _ & H2 & _).
  split; [exact H1 | exact (H2 eq_refl)].
Defined.

(** C3 fails on the code: a [lastlogin] that is not a valid integer
    raises nothing that the [catch] could classify; it parses to [NaN],
    the test [now - NaN > 30] is false, and the credential is classified
    LoginSucceeded, not LoginFailed. *)
Theorem login_unparsable_lastlogin_succeeds :
  completion (loginNations [testlandia] true new_App world_bad_lastlogin)
  = Normal tt
  /\ JsNumber.parseInt (lastlogin_is "soon" !! "lastlogin") = NaN
  /\ In (outcome_line testlandia LoginSucceeded)
        (out (loginNations [testlandia] true new_App world_bad_lastlogin))
  /\ ~ In (outcome_line testlandia LoginFailed)
          (out (loginNations [testlandia] true new_App world_bad_lastlogin)).
Proof.
  split; [vm_compute; reflexivity|].
  split; [vm_compute; reflexivity|]. split.
  - vm_compute. auto 10.
  - vm_compute. intros H. decompose [or] H; try discriminate; contradiction.
Qed.

Lemma restore_success_criterion_witness :
  In (outcome_line ghostnation RestoreSucceeded)
     (out (restoreNations [ghostnation] false new_App world_restored)).
Proof.
  destruct (restore_success_criterion false ghostnation new_App
              world_restored (answered ∅ 1000)
              [answered ∅ 7000; answered {[ "name" := "ghostnation" ]} 8000]
              eq_refl eq_refl eq_refl) as [[_ H] _].
  apply H. split; [vm_compute; reflexivity|].
  exists {[ "name" := "ghostnation" ]}. vm_compute. reflexivity.
Defined.

Lemma auto_dispatch_witness :
  auto [ghostnation] false new_App world_auto_missing
  = prepend ([Log "info" (MNationExists "ghostnation");
              NationRequest "ghostnation" ["name"] None]
               ++ [Log "info" (MNationDoesNotExist "ghostnation")])
      (restoreNations [ghostnation] false new_App
         (mkWorld 500 (script world_restored))).
Proof.
  exact (proj1 (auto_dispatch false ghostnation [] new_App world_auto_missing
                  (refused (Error "404") 500) (script world_restored)
                  eq_refl eq_refl eq_refl)).
Defined.

(** A procedure that throws, and an unrecognised mode. *)
Lemma cleanup_exactly_once_witness :
  (cleanups (out (start_with "me" (Num 1) (throw (Error "boom")) new_App
                             world_boundary)) = 1%nat
   /\ List.last (out (start_with "me" (Num 1) (throw (Error "boom")) new_App
                                 world_boundary)) HandleFinish
      = ApiCleanup)
  /\ completion (start "me" (Num 1) 7 [testlandia] false new_App
                       world_boundary)
     = Abrupt (Error "Unrecognized mode").
Proof.
  split.
  - apply (proj1 cleanup_exactly_once "me" (Num 1) (throw (Error "boom"))
             new_App world_boundary).
    intros this' w'. reflexivity.
  - apply (proj2 cleanup_exactly_once "me" (Num 1) 7 [testlandia] false
             new_App world_boundary); discriminate.
Defined.

Lemma timeout_asymmetry_witness :
  promise (restoreRequest_on "me" ghostnation CeilingTimer
             (after_events (restoreRequest_on "me" ghostnation) [IframeLoad]))
  = Rejected
  /\ promise (Legacy.loginRequest_on "me" ghostnation CeilingTimer
                (after_events (Legacy.loginRequest_on "me" ghostnation)
                              [IframeLoad]))
     = Fulfilled.
Proof.
  destruct (timeout_asymmetry "me" ghostnation [IframeLoad]) as [H1 H2].
  split; [apply H1 | apply H2]; reflexivity.
Defined.

(** C9 as stated fails: the client is not constructed with the composed
    identity string. *)
Lemma client_identity_counterexample :
  ~ In (NewNsApi (composed_userAgent "t") true (Num 1))
       (out (start "t" (Num 1) Mode_Login [] false new_App (mkWorld 0 []))).
Proof.
  vm_compute. intros H. decompose [or] H; try discriminate; contradiction.
Qed.

Lemma client_built_from_operator_tag_witness :
  f_userAgent (restoreForm (composed_userAgent "t") ghostnation)
  = composed_userAgent "t".
Proof.
  apply (client_built_from_operator_tag "t" (Num 1) Mode_Restore
           [ghostnation] false new_App world_restored).
  vm_compute. auto 10.
Defined.

Lemma auto_logs_exists_before_probe_witness :
  exists mid tail,
    out (auto [ghostnation] false new_App world_auto_missing)
    = [] ++ Log "info" (MNationExists "ghostnation")
         :: NationRequest "ghostnation" ["name"] None :: mid
         ++ Log "info" (MNationDoesNotExist "ghostnation") :: tail.
Proof.
  apply (proj1 (proj2 (auto_logs_exists_before_probe false ghostnation []
                         new_App world_auto_missing eq_refl eq_refl))
           (refused (Error "404") 500) (script world_restored)
           (Error "404") eq_refl eq_refl).
Defined.

(** * Further properties *)

(** ** [String.prototype.split] and [trim] *)

Lemma split_not_nil sep s : JsText.split sep s <> [].
Proof.
  destruct s as [|c s]; simpl; [discriminate|].
  destruct (Ascii.eqb c sep); [discriminate|].
  destruct (JsText.split sep s); discriminate.
Qed.

Lemma split_absent sep s :
  occurs sep s = false -> JsText.split sep s = [s].
Proof.
  induction s as [|c s IH]; simpl; [reflexivity|].
  intros H. apply orb_false_iff in H as [Hc Hs].
  rewrite Hc, (IH Hs). reflexivity.
Qed.

Lemma split_at_separator sep a b :
  occurs sep a = false ->
  JsText.split sep (a +:+ String sep b) = a :: JsText.split sep b.
Proof.
  induction a as [|c a IH]; simpl; intros H.
  - now rewrite Ascii.eqb_refl.
  - apply orb_false_iff in H as [Hc Ha]. rewrite Hc, (IH Ha). reflexivity.
Qed.

Lemma trimStart_empty s :
  JsString.trimStart s = EmptyString ->
  forall c, occurs c s = true -> JsString.is_white c = true.
Proof.
  induction s as [|d s IH]; simpl; [discriminate|].
  destruct (JsString.is_white d) eqn:Hd; [|discriminate].
  intros H c Hc. apply orb_true_iff in Hc as [Hc|Hc]; [|now apply IH].
  apply Ascii.eqb_eq in Hc. now subst.
Qed.

Lemma trimEnd_empty s :
  JsString.trimEnd s = EmptyString ->
  forall c, occurs c s = true -> JsString.is_white c = true.
Proof.
  induction s as [|d s IH]; simpl; [discriminate|].
  destruct (JsString.trimEnd s) eqn:E; [|discriminate].
  destruct (JsString.is_white d) eqn:Hd; [|discriminate].
  intros _ c Hc. apply orb_true_iff in Hc as [Hc|Hc]; [|now apply IH].
  apply Ascii.eqb_eq in Hc. now subst.
Qed.

Lemma trimStart_keeps s c :
  JsString.is_white c = false -> occurs c s = true ->
  occurs c (JsString.trimStart s) = true.
Proof.
  intros Hw. induction s as [|d s IH]; simpl; [discriminate|].
  intros H. destruct (JsString.is_white d) eqn:Hd.
  - apply orb_true_iff in H as [H|H]; [|now apply IH].
    apply Ascii.eqb_eq in H. congruence.
  - exact H.
Qed.

(** A line with a code unit that is not white space is not blank. *)
Lemma not_blank line c :
  JsString.is_white c = false -> occurs c line = true -> blank line = false.
Proof.
  intros Hw Hc. unfold blank, JsString.trim.
  destruct (String.eqb _ _) eqn:E; [|reflexivity].
  apply String.eqb_eq in E.
  pose proof (trimEnd_empty _ E c (trimStart_keeps line c Hw Hc)).
  congruence.
Qed.

Lemma occurs_app c a b : occurs c (a +:+ b) = occurs c a || occurs c b.
Proof.
  induction a as [|d a IH]; simpl; [reflexivity|].
  now rewrite IH, orb_assoc.
Qed.

(** ** [Ui.getCredentials] *)

Lemma reads_as_unique line c c' : reads_as line c -> reads_as line c' -> c = c'.
Proof.
  unfold reads_as. intros H H'. rewrite H in H'.
  destruct c, c'; simpl in *. congruence.
Qed.

(** The loop succeeds exactly when every line it does not skip has two
    fields, and then pushes these lines in order. *)
Lemma getCredentials_from_inr lines : forall i acc cs,
    Ui.getCredentials_from lines i acc = inr cs
    <-> exists new,
        cs = acc ++ new
        /\ Forall2 reads_as
                   (List.filter (fun line => negb (blank line)) lines) new.
Proof.
  induction lines as [|line rest IH]; intros i acc cs; simpl.
  - split.
    + intros [= <-]. exists []. now rewrite app_nil_r.
    + intros (new & -> & H). inversion H. now rewrite app_nil_r.
  - fold (blank line). destruct (blank line); simpl; [apply IH|].
    destruct (JsText.split JsText.comma line) as [|n [|p [|x fields]]] eqn:E.
    + split; [discriminate|].
      intros (new & _ & H). inversion H as [|? c ? ? Hc]; subst.
      unfold reads_as in Hc. congruence.
    + split; [discriminate|].
      intros (new & _ & H). inversion H as [|? c ? ? Hc]; subst.
      unfold reads_as in Hc. congruence.
    + rewrite IH. split.
      * intros (new & -> & H). exists (mkCredential n p :: new).
        rewrite <- app_assoc. split; [reflexivity|].
        constructor; [exact E | exact H].
      * intros (new & -> & H). inversion H as [|? c ? new' Hc Hrest]; subst.
        exists new'. split; [|exact Hrest].
        unfold reads_as in Hc. rewrite E in Hc.
        destruct c; simpl in *. injection Hc as <- <-.
        now rewrite <- app_assoc.
    + split; [discriminate|].
      intros (new & _ & H). inversion H as [|? c ? ? Hc]; subst.
      unfold reads_as in Hc. congruence.
Qed.

(** The loop fails exactly at the first line that is neither skipped nor
    of two fields, and reports its position counted from 1. *)
Lemma getCredentials_from_inl lines : forall i acc e,
    Ui.getCredentials_from lines i acc = inl e
    <-> exists pre line post,
        lines = pre ++ line :: post
        /\ e = Ui.BadLine (i + List.length pre + 1)
        /\ blank line = false
        /\ ~ two_fields line
        /\ Forall (fun l => blank l = true \/ two_fields l) pre.
Proof.
  induction lines as [|line rest IH]; intros i acc e; simpl.
  - split; [discriminate|].
    intros (pre & l & post & H & _). now destruct pre.
  - fold (blank line). destruct (blank line) eqn:Hb; simpl.
    + rewrite IH. split.
      * intros (pre & l & post & -> & -> & H1 & H2 & H3).
        exists (line :: pre), l, post. simpl.
        repeat split; auto; try (f_equal; lia).
      * intros ([|l0 pre] & l & post & H & -> & H1 & H2 & H3);
          simpl in H; injection H as <- ->; [congruence|].
        exists pre, l, post. inversion H3; subst.
        repeat split; auto; try (simpl; f_equal; lia).
    + assert (Hcase :
        (exists n p, JsText.split JsText.comma line = [n; p])
        \/ ~ two_fields line).
      { destruct (JsText.split JsText.comma line)
          as [|n [|p [|x fields]]] eqn:E;
          [right|right|left; eauto|right];
          intros [c Hc]; unfold reads_as in Hc; congruence. }
      destruct Hcase as [(n & p & E)|Hn].
      * rewrite E, IH. split.
        -- intros (pre & l & post & -> & -> & H1 & H2 & H3).
           exists (line :: pre), l, post. simpl.
           repeat split; auto; try (f_equal; lia).
           constructor; [|exact H3]. right.
           exists (mkCredential n p). exact E.
        -- intros ([|l0 pre] & l & post & H & -> & H1 & H2 & H3);
             simpl in H; injection H as <- ->.
           ++ destruct H2. exists (mkCredential n p). exact E.
           ++ exists pre, l, post. inversion H3; subst.
              repeat split; auto; try (simpl; f_equal; lia).
      * assert (Hres : match JsText.split JsText.comma line with
                       | [n; p] =>
                           Ui.getCredentials_from rest (S i)
                             (acc ++ [mkCredential n p])
                       | _ => inl (Ui.BadLine (i + 1))
                       end = inl (Ui.BadLine (i + 1))).
        { destruct (JsText.split JsText.comma line)
            as [|n [|p [|x fields]]] eqn:E; try reflexivity.
          destruct Hn. exists (mkCredential n p). exact E. }
        rewrite Hres. split.
        -- intros [= <-]. exists [], line, rest. simpl.
           repeat split; auto; try (f_equal; lia).
        -- intros ([|l0 pre] & l & post & H & -> & H1 & H2 & H3);
             simpl in H; injection H as <- ->.
           ++ simpl. f_equal. f_equal. lia.
           ++ inversion H3 as [|? ? [Hx|Hx] ?]; subst; congruence.
Qed.

Lemma reads_as_list_unique lines : forall cs cs',
    Forall2 reads_as lines cs -> Forall2 reads_as lines cs' -> cs = cs'.
Proof.
  induction lines as [|l lines IH]; intros cs cs' H H';
    inversion H; inversion H'; subst; [reflexivity|].
  f_equal; [eapply reads_as_unique; eauto | now apply IH].
Qed.

Lemma getCredentials_inr (text : string) (cs : list Credential) :
  Ui.getCredentials text = inr cs
  <-> cs <> [] /\ Forall2 reads_as (entries text) cs.
Proof.
  unfold Ui.getCredentials, entries.
  destruct (Ui.getCredentials_from (JsText.split JsText.LF text) 0 [])
    as [e|l] eqn:E.
  - split; [discriminate|]. intros [_ H].
    assert (Hok : Ui.getCredentials_from (JsText.split JsText.LF text) 0 []
                  = inr cs)
      by (apply getCredentials_from_inr; now exists cs).
    congruence.
  - apply getCredentials_from_inr in E as (new & -> & H). simpl.
    destruct new as [|c new].
    + split; [discriminate|]. intros [Hne H'].
      destruct Hne. eapply reads_as_list_unique; eauto.
    + split.
      * intros [= <-]. split; [discriminate | exact H].
      * intros [_ H']. f_equal. eapply reads_as_list_unique; eauto.
Qed.

(** X1: [getCredentials] returns a list exactly when at least one line
    is not blank and every line that is not blank has exactly two
    comma-separated fields; the list then has one credential per such
    line, in the order of the text, with the two fields taken as they are
    (not trimmed). *)
Theorem getCredentials_accepts :
  forall (text : string) (cs : list Credential),
    Ui.getCredentials text = inr cs
    <-> cs <> [] /\ Forall2 reads_as (entries text) cs.
Proof. exact getCredentials_inr. Qed.

(** X2: [getCredentials] throws the line error with number [k] exactly
    when the [k]-th line of the text (counted from 1, blank lines
    included) is the first line that is neither blank nor of exactly two
    fields. *)
Theorem getCredentials_first_bad_line :
  forall (text : string) (k : nat),
    Ui.getCredentials text = inl (Ui.BadLine k)
    <-> exists pre line post,
        JsText.split JsText.LF text = pre ++ line :: post
        /\ k = (List.length pre + 1)%nat
        /\ blank line = false
        /\ ~ two_fields line
        /\ Forall (fun l => blank l = true \/ two_fields l) pre.
Proof.
  intros text k. unfold Ui.getCredentials.
  destruct (Ui.getCredentials_from (JsText.split JsText.LF text) 0 [])
    as [e|l] eqn:E.
  - pose proof (getCredentials_from_inl (JsText.split JsText.LF text) 0 [] e)
      as Hiff.
    split.
    + intros [= ->]. apply Hiff in E as (pre & line & post & H & He & Hrest).
      exists pre, line, post. injection He as ->. tauto.
    + intros (pre & line & post & H & -> & Hrest).
      assert (E' : Ui.getCredentials_from (JsText.split JsText.LF text) 0 []
                   = inl (Ui.BadLine (0 + List.length pre + 1)))
        by (apply getCredentials_from_inl; exists pre, line, post; tauto).
      rewrite E in E'. exact E'.
  - split.
    + destruct l; discriminate.
    + intros (pre & line & post & H & -> & Hrest).
      assert (E' : Ui.getCredentials_from (JsText.split JsText.LF text) 0 []
                   = inl (Ui.BadLine (0 + List.length pre + 1)))
        by (apply getCredentials_from_inl; exists pre, line, post; tauto).
      congruence.
Qed.

(** X3: [getCredentials] throws "You must specify at least one nation
    name and password." exactly when every line of the text is blank --
    the empty text included. *)
Theorem getCredentials_nothing :
  forall text : string,
    Ui.getCredentials text = inl Ui.NoCredentials
    <-> Forall (fun line => blank line = true)
               (JsText.split JsText.LF text).
Proof.
  intros text. unfold Ui.getCredentials.
  destruct (Ui.getCredentials_from (JsText.split JsText.LF text) 0 [])
    as [e|l] eqn:E.
  - apply getCredentials_from_inl in E
      as (pre & line & post & H & -> & Hb & _).
    split; [discriminate|]. rewrite H. intros Hall.
    apply Forall_app in Hall as [_ Hall]. inversion Hall; congruence.
  - apply getCredentials_from_inr in E as (new & -> & H). simpl.
    assert (Hfilter : forall lines : list string,
               List.filter (fun line => negb (blank line)) lines = []
               <-> Forall (fun line => blank line = true) lines).
    { induction lines as [|x lines IH]; simpl.
      - split; constructor.
      - destruct (blank x) eqn:Hx; simpl.
        + rewrite IH. split; [now constructor|].
          intros Hall. now inversion Hall.
        + split; [discriminate|]. intros Hall. inversion Hall; congruence. }
    rewrite <- Hfilter. destruct new as [|c new].
    + inversion H. tauto.
    + split; [discriminate|]. intros Hnil. rewrite Hnil in H. inversion H.
Qed.

Lemma plain_line_split c :
  plain (nation c) -> plain (password c) ->
  JsText.split JsText.comma (line_of c) = [nation c; password c].
Proof.
  intros [Hn _] [Hp _]. unfold line_of.
  rewrite (split_at_separator _ _ _ Hn). now rewrite (split_absent _ _ Hp).
Qed.

Lemma line_of_not_blank c : blank (line_of c) = false.
Proof.
  apply (not_blank _ JsText.comma); [reflexivity|].
  unfold line_of. rewrite occurs_app. simpl.
  rewrite ?Ascii.eqb_refl. simpl. apply orb_true_r.
Qed.

Lemma line_of_no_LF c :
  plain (nation c) -> plain (password c) ->
  occurs JsText.LF (line_of c) = false.
Proof.
  intros [_ Hn] [_ Hp]. unfold line_of. rewrite occurs_app. simpl.
  now rewrite Hn, Hp.
Qed.

Lemma split_text_of cs :
  cs <> [] ->
  Forall (fun c => plain (nation c) /\ plain (password c)) cs ->
  JsText.split JsText.LF (text_of cs) = map line_of cs.
Proof.
  induction cs as [|c cs IH]; intros Hne Hall; [now destruct Hne|].
  inversion Hall as [|? ? [Hn Hp] Hrest]; subst.
  destruct cs as [|c' cs].
  - simpl. now rewrite (split_absent _ _ (line_of_no_LF c Hn Hp)).
  - change (text_of (c :: c' :: cs))
      with (line_of c +:+ String JsText.LF (text_of (c' :: cs))).
    rewrite (split_at_separator _ _ _ (line_of_no_LF c Hn Hp)).
    rewrite IH by (try discriminate; exact Hrest). reflexivity.
Qed.

(** X4: a non-empty list of credentials whose names and passwords contain
    neither a comma nor a line feed, written one [nation,password] per
    line, is read back by [getCredentials] as it was -- spaces inside and
    around the fields included. *)
Theorem getCredentials_round_trip :
  forall cs : list Credential,
    cs <> [] ->
    Forall (fun c => plain (nation c) /\ plain (password c)) cs ->
    Ui.getCredentials (text_of cs) = inr cs.
Proof.
  intros cs Hne Hall. apply getCredentials_inr. split; [exact Hne|].
  unfold entries. rewrite (split_text_of cs Hne Hall). clear Hne.
  induction Hall as [|c cs [Hn Hp] _ IH]; simpl; [constructor|].
  rewrite line_of_not_blank. simpl.
  constructor; [now apply plain_line_split | exact IH].
Qed.

(** ** Nothing escapes a procedure *)

Lemma no_throw_ret {A} (a : A) : no_throw (ret a).
Proof. intros this w err. discriminate. Qed.

Lemma no_throw_emit e : no_throw (emit e).
Proof. intros this w err. discriminate. Qed.

Lemma no_throw_get_this : no_throw get_this.
Proof. intros this w err. discriminate. Qed.

Lemma no_throw_bind {A B} (m : M A) (f : A -> M B) :
  no_throw m -> (forall a, no_throw (f a)) -> no_throw (bind m f).
Proof.
  intros Hm Hf this w err. unfold bind.
  specialize (Hm this w).
  destruct (completion (m this w)) as [a|e|]; simpl;
    [apply Hf | now destruct (Hm e) | discriminate].
Qed.

(** A [try] whose handler does not throw does not throw, whatever its
    block does. *)
Lemma no_throw_try_catch {A} (m : M A) (h : Thrown -> M A) :
  (forall e, no_throw (h e)) -> no_throw (try_catch m h).
Proof.
  intros Hh this w err. unfold try_catch.
  destruct (completion (m this w)) as [a|e|] eqn:E; simpl;
    [now rewrite E | apply Hh | now rewrite E].
Qed.

Lemma no_throw_for_of {A} (xs : list A) (body : A -> M Flow) :
  (forall x, no_throw (body x)) -> no_throw (for_of xs body).
Proof.
  intros Hb. induction xs as [|x xs IH]; simpl; [apply no_throw_ret|].
  apply no_throw_bind; [apply Hb|].
  intros [|]; [exact IH | apply no_throw_ret].
Qed.

Lemma no_throw_await : no_throw await.
Proof.
  intros this w err. unfold await.
  destruct (script w) as [|t rest]; simpl; [discriminate|].
  destruct (deliver (ui t) this). discriminate.
Qed.

Lemma no_throw_waitUntilUnpaused : no_throw waitUntilUnpaused.
Proof. intros this w err. apply waitUntilUnpaused_no_throw. Qed.

Lemma no_throw_Ui_confirm : no_throw Ui_confirm.
Proof.
  unfold Ui_confirm. apply no_throw_bind; [apply no_throw_emit|].
  intros _. apply no_throw_bind; [apply no_throw_await|].
  intros _. apply no_throw_ret.
Qed.

Lemma no_throw_caught (verbose : bool) (line : Message) err :
  no_throw (Ui_log "error" line >>
            if verbose then Ui_log "error" (MInspect err) else ret tt).
Proof.
  apply no_throw_bind; [apply no_throw_emit|]. intros _.
  destruct verbose; [apply no_throw_emit | apply no_throw_ret].
Qed.

Lemma no_throw_loginNations cs verbose : no_throw (loginNations cs verbose).
Proof.
  apply no_throw_for_of. intros c. unfold loginNations_body.
  apply no_throw_bind; [apply no_throw_get_this|]. intros this.
  destruct (_cancel this); [apply no_throw_ret|].
  apply no_throw_bind; [apply no_throw_waitUntilUnpaused|]. intros _.
  apply no_throw_bind; [|intros; apply no_throw_ret].
  apply no_throw_try_catch. intros e. apply no_throw_caught.
Qed.

Lemma no_throw_restoreNations cs verbose :
  no_throw (restoreNations cs verbose).
Proof.
  apply no_throw_for_of. intros c. unfold restoreNations_body.
  apply no_throw_bind; [apply no_throw_get_this|]. intros this.
  destruct (_cancel this); [apply no_throw_ret|].
  apply no_throw_bind; [apply no_throw_waitUntilUnpaused|]. intros _.
  apply no_throw_bind; [apply no_throw_emit|]. intros _.
  apply no_throw_bind; [apply no_throw_Ui_confirm|]. intros _.
  apply no_throw_bind; [apply no_throw_emit|]. intros _.
  apply no_throw_bind; [|intros; apply no_throw_ret].
  apply no_throw_try_catch. intros e. apply no_throw_caught.
Qed.

Lemma no_throw_auto cs verbose : no_throw (auto cs verbose).
Proof.
  apply no_throw_for_of. intros c. unfold auto_body.
  apply no_throw_bind; [apply no_throw_get_this|]. intros this.
  destruct (_cancel this); [apply no_throw_ret|].
  apply no_throw_bind; [apply no_throw_waitUntilUnpaused|]. intros _.
  apply no_throw_bind.
  - apply no_throw_try_catch. intros _.
    apply no_throw_bind; [apply no_throw_emit | intros; apply no_throw_ret].
  - intros login. apply no_throw_bind; [|intros; apply no_throw_ret].
    destruct login;
      [apply no_throw_loginNations | apply no_throw_restoreNations].
Qed.

Lemma recognised_mode_cases (mode : Mode) :
  mode = Mode_Auto \/ mode = Mode_Login \/ mode = Mode_Restore
  \/ (mode <> Mode_Auto /\ mode <> Mode_Login /\ mode <> Mode_Restore).
Proof. unfold Mode_Auto, Mode_Login, Mode_Restore, Mode in *. lia. Qed.

Lemma no_throw_dispatch mode cs verbose :
  mode = Mode_Login \/ mode = Mode_Restore \/ mode = Mode_Auto ->
  no_throw (dispatch mode cs verbose).
Proof.
  intros [ -> | [ -> | -> ] ]; unfold dispatch; simpl;
    (apply no_throw_bind; [apply no_throw_emit|]); intros _;
    [apply no_throw_loginNations | apply no_throw_restoreNations
    | apply no_throw_auto].
Qed.

Lemma start_throws_only_from_dispatch
    userAgent rateLimit mode cs verbose this w err :
  completion (start userAgent rateLimit mode cs verbose this w) = Abrupt err ->
  completion (dispatch mode cs verbose
                (mkApp false false (composed_userAgent userAgent)) w)
  = Abrupt err.
Proof.
  rewrite start_run.
  destruct (completion (dispatch _ _ _ _ _)) as [[]|e|] eqn:E;
    cbn [completion]; try discriminate; [|congruence].
  pose proof (waitUntilUnpaused_no_throw
                (app (dispatch mode cs verbose
                        (mkApp false false (composed_userAgent userAgent)) w))
                (world (dispatch mode cs verbose
                          (mkApp false false (composed_userAgent userAgent))
                          w))) as Hw.
  destruct (completion (waitUntilUnpaused _ _)) as [[]|e|];
    try discriminate. now destruct (Hw e).
Qed.

(** [start] is [App_start] once the constructor of the client has
    returned. *)
Lemma bind_ext_run {A B} (m : M A) (f g : A -> M B) this w :
  (forall a this' w', f a this' w' = g a this' w') ->
  bind m f this w = bind m g this w.
Proof.
  intros H. unfold bind.
  destruct (completion (m this w)); [now rewrite H | reflexivity..].
Qed.

Lemma bind_cong_run {A B} (m1 m2 : M A) (f : A -> M B) this w :
  m1 this w = m2 this w -> bind m1 f this w = bind m2 f this w.
Proof. intros H. unfold bind. now rewrite H. Qed.

Lemma App_start_constructed NsApi_throws userAgent rateLimit mode cs verbose
    this w :
  NsApi_throws userAgent true rateLimit = None ->
  App_start NsApi_throws userAgent rateLimit mode cs verbose this w
  = start userAgent rateLimit mode cs verbose this w.
Proof.
  intros H. unfold App_start, start.
  apply bind_ext_run. intros _ this1 w1.
  apply bind_ext_run. intros _ this2 w2.
  apply bind_cong_run. unfold new_NsApi. rewrite H. reflexivity.
Qed.

Lemma App_start_refused NsApi_throws userAgent rateLimit mode cs verbose
    this w err :
  NsApi_throws userAgent true rateLimit = Some err ->
  App_start NsApi_throws userAgent rateLimit mode cs verbose this w
  = mkRun (Abrupt err) (mkApp false false (composed_userAgent userAgent)) w
          [NewNsApi userAgent true rateLimit].
Proof.
  intros H. unfold App_start.
  erewrite bind_normal_run by reflexivity.
  erewrite bind_normal_run by reflexivity.
  erewrite bind_abrupt_run
    by (unfold new_NsApi; rewrite H; reflexivity).
  reflexivity.
Qed.

Lemma start_constructed_throws
    userAgent rateLimit mode credentials verbose this w err :
  completion (start userAgent rateLimit mode credentials verbose this w)
  = Abrupt err
  <-> err = Error "Unrecognized mode"
      /\ mode <> Mode_Auto /\ mode <> Mode_Login /\ mode <> Mode_Restore.
Proof.
  split.
  - intros H. apply start_throws_only_from_dispatch in H.
    destruct (recognised_mode_cases mode) as [Hm|[Hm|[Hm|(H1 & H2 & H3)]]].
    + destruct (no_throw_dispatch mode credentials verbose
                  (or_intror (or_intror Hm)) _ _ _ H).
    + destruct (no_throw_dispatch mode credentials verbose
                  (or_introl Hm) _ _ _ H).
    + destruct (no_throw_dispatch mode credentials verbose
                  (or_intror (or_introl Hm)) _ _ _ H).
    + rewrite (dispatch_unrecognized mode credentials verbose _ w H1 H2 H3)
        in H. simpl in H. injection H as <-. tauto.
  - intros (-> & H1 & H2 & H3). rewrite start_run.
    rewrite (dispatch_unrecognized mode credentials verbose _ w H1 H2 H3).
    reflexivity.
Qed.

(** X5: what [App.start] throws.  It throws what the constructor of the
    client throws, which stands before the [try]: the run then ends with
    the constructor call, with no mode line, no cleanup and no call of
    [Ui.handleFinish], the app reset and its user agent composed.  Once the
    client is constructed, [start] throws exactly when the mode is not one
    of the three, and then [Error("Unrecognized mode")]: every exception of
    the remote calls and of the side channel is caught inside the
    procedures. *)
Theorem start_throws_at_construction_or_on_unrecognised_mode :
  forall (NsApi_throws : string -> bool -> number -> option Thrown)
         (userAgent : string) (rateLimit : number) (mode : Mode)
         (credentials : list Credential) (verbose : bool)
         (this : App) (w : World) (err : Thrown),
    (completion (App_start NsApi_throws userAgent rateLimit mode credentials
                           verbose this w) = Abrupt err
     <-> NsApi_throws userAgent true rateLimit = Some err
         \/ (NsApi_throws userAgent true rateLimit = None
             /\ err = Error "Unrecognized mode"
             /\ mode <> Mode_Auto /\ mode <> Mode_Login
             /\ mode <> Mode_Restore))
    /\ (NsApi_throws userAgent true rateLimit = Some err ->
        App_start NsApi_throws userAgent rateLimit mode credentials verbose
                  this w
        = mkRun (Abrupt err)
                (mkApp false false (composed_userAgent userAgent)) w
                [NewNsApi userAgent true rateLimit]).
Proof.
  intros NsApi_throws ua rl mode cs v this w err.
  split; [|apply App_start_refused].
  destruct (NsApi_throws ua true rl) as [e|] eqn:E.
  - rewrite (App_start_refused NsApi_throws ua rl mode cs v this w e E).
    cbn [completion]. split.
    + intros [= ->]. now left.
    + intros [[= ->]|[H _]]; [reflexivity | discriminate].
  - rewrite (App_start_constructed NsApi_throws ua rl mode cs v this w E).
    rewrite start_constructed_throws. split.
    + intros H. right. now split.
    + intros [H|[_ H]]; [discriminate | exact H].
Qed.

Lemma start_throws_at_construction_or_on_unrecognised_mode_witness :
  App_start refuses_below_600 "ua" (Num 6) Mode_Login [testlandia] false
            new_App world_boundary
  = mkRun (Abrupt (Error "RangeError"))
          (mkApp false false (composed_userAgent "ua")) world_boundary
          [NewNsApi "ua" true (Num 6)].
Proof.
  apply (start_throws_at_construction_or_on_unrecognised_mode
           refuses_below_600 "ua" (Num 6) Mode_Login [testlandia] false
           new_App world_boundary (Error "RangeError")).
  reflexivity.
Defined.

(** ** [Ui.handleStart] *)

Lemma handleStart_starts Number f ua rl mode cs v :
  Ui.handleStart Number f = Ui.Starts ua rl mode cs v
  <-> Ui.in_userAgent f <> EmptyString
      /\ Ui.getCredentials (Ui.in_credentials f) = inr cs
      /\ Ui.getMode f = inr mode
      /\ ua = Ui.in_userAgent f
      /\ rl = Number (Ui.in_rateLimit f)
      /\ v = Ui.in_verbose f.
Proof.
  unfold Ui.handleStart.
  destruct (String.eqb (Ui.in_userAgent f) EmptyString) eqn:Eua.
  - apply String.eqb_eq in Eua.
    destruct (Ui.getCredentials (Ui.in_credentials f)); simpl;
      (split; [discriminate | intros [H _]; congruence]).
  - apply String.eqb_neq in Eua.
    destruct (Ui.getCredentials (Ui.in_credentials f)) as [e|cs0]; simpl.
    + split; [discriminate | intros (_ & H & _); discriminate].
    + destruct (Ui.getMode f) as [err|m].
      * split; [discriminate | intros (_ & _ & H & _); discriminate].
      * split.
        -- intros [= <- <- <- <- <-]. tauto.
        -- intros (_ & [= <-] & [= <-] & -> & -> & ->). reflexivity.
Qed.

Lemma getMode_recognised f mode :
  Ui.getMode f = inr mode ->
  mode = Mode_Login \/ mode = Mode_Restore \/ mode = Mode_Auto.
Proof.
  unfold Ui.getMode.
  destruct (Ui.in_modeLogin f); [intros [= <-]; auto|].
  destruct (Ui.in_modeRestore f); [intros [= <-]; auto|].
  destruct (Ui.in_modeAuto f); [intros [= <-]; auto | discriminate].
Qed.

(** X6: [handleStart] calls [App.start] only with a user agent that is not
    empty, with the non-empty list [getCredentials] reads from the box and
    with the mode of the checked radio button, Login before Restore before
    Auto.  The rate limit is [Number] of the text of its input and goes to
    the client unchecked: the run [handleStart] starts throws exactly when
    the constructor of the client refuses its arguments, and then what the
    constructor throws. *)
Theorem handleStart_checks_all_but_the_rate_limit :
  forall (NsApi_throws : string -> bool -> number -> option Thrown)
         (Number : string -> number) (f : Ui.Inputs)
         (userAgent : string) (rateLimit : number) (mode : Mode)
         (credentials : list Credential) (verbose : bool),
    Ui.handleStart Number f
    = Ui.Starts userAgent rateLimit mode credentials verbose ->
    userAgent <> EmptyString
    /\ credentials <> []
    /\ Ui.getCredentials (Ui.in_credentials f) = inr credentials
    /\ mode = (if Ui.in_modeLogin f then Mode_Login
               else if Ui.in_modeRestore f then Mode_Restore
                    else Mode_Auto)
    /\ rateLimit = Number (Ui.in_rateLimit f)
    /\ forall this w err,
        completion (App_start NsApi_throws userAgent rateLimit mode
                              credentials verbose this w) = Abrupt err
        <-> NsApi_throws userAgent true rateLimit = Some err.
Proof.
  intros NsApi_throws Number f ua rl mode cs v H.
  apply handleStart_starts in H as (Hua & Hcs & Hm & -> & -> & ->).
  split; [exact Hua|]. split; [|split; [exact Hcs|split; [|split]]].
  - apply getCredentials_inr in Hcs. tauto.
  - unfold Ui.getMode in Hm.
    destruct (Ui.in_modeLogin f); [congruence|].
    destruct (Ui.in_modeRestore f); [congruence|].
    destruct (Ui.in_modeAuto f); [congruence | discriminate].
  - reflexivity.
  - intros this w err.
    destruct (NsApi_throws (Ui.in_userAgent f) true
                           (Number (Ui.in_rateLimit f))) as [e|] eqn:E.
    + rewrite (App_start_refused NsApi_throws _ _ mode cs _ this w e E).
      cbn [completion]. split; intros [= ->]; reflexivity.
    + rewrite (App_start_constructed NsApi_throws _ _ mode cs _ this w E).
      split; [|discriminate].
      intros Habs. exfalso.
      apply start_throws_only_from_dispatch in Habs.
      exact (no_throw_dispatch mode cs (Ui.in_verbose f)
               (getMode_recognised f mode Hm) _ _ _ Habs).
Qed.

(** X7: validation comes first.  [handleStart] ends in alerts, without
    consulting the mode and without calling [App.start], exactly when the
    user agent is empty or [getCredentials] throws; the alerts are the
    user-agent alert if the user agent is empty, then the credentials alert
    with the message of the exception if [getCredentials] throws. *)
Theorem handleStart_validates_first :
  forall (Number : string -> number) (f : Ui.Inputs),
    let ua_alert :=
      if String.eqb (Ui.in_userAgent f) EmptyString
      then [("userAgentValidationAlert", "You must specify a user agent.")]
      else [] in
    let cred_alert :=
      match Ui.getCredentials (Ui.in_credentials f) with
      | inl e => [("credentialsValidationAlert", Ui.message_of e)]
      | inr _ => []
      end in
    (Ui.in_userAgent f = EmptyString
     \/ exists e, Ui.getCredentials (Ui.in_credentials f) = inl e)
    <-> Ui.handleStart Number f = Ui.Invalid (ua_alert ++ cred_alert).
Proof.
  intros Number f ua_alert cred_alert. subst ua_alert cred_alert.
  unfold Ui.handleStart.
  destruct (String.eqb (Ui.in_userAgent f) EmptyString) eqn:Eua.
  - apply String.eqb_eq in Eua.
    destruct (Ui.getCredentials (Ui.in_credentials f)); simpl;
      (split; [reflexivity | auto]).
  - apply String.eqb_neq in Eua.
    destruct (Ui.getCredentials (Ui.in_credentials f)) as [e|cs]; simpl.
    + split; [reflexivity | eauto].
    + split.
      * intros [H|[e H]]; [contradiction | discriminate].
      * destruct (Ui.getMode f); discriminate.
Qed.

(** ** [Ui.handleSave] and [Ui.handleLoad] *)

(** X8: what [handleSave] stores, [handleLoad] restores, into any form:
    with a mode checked, saving and then loading gives back the user
    agent, the credentials text and the verbose flag, checks the radio
    button of the saved mode, and sets the rate limit to the saved text
    converted to a number and back. *)
Theorem save_then_load :
  forall (Number : string -> number) (String_of_number : number -> string)
         (f f' : Ui.Inputs) (items : gmap string string) (mode : Mode),
    Ui.getMode f = inr mode ->
    let g := Ui.handleLoad Number String_of_number
                           (Ui.handleSave f (Some items)) f' in
    Ui.in_userAgent g = Ui.in_userAgent f
    /\ Ui.in_credentials g = Ui.in_credentials f
    /\ Ui.in_verbose g = Ui.in_verbose f
    /\ Ui.in_rateLimit g = String_of_number (Number (Ui.in_rateLimit f))
    /\ (mode = Mode_Login -> Ui.in_modeLogin g = true)
    /\ (mode = Mode_Restore -> Ui.in_modeRestore g = true)
    /\ (mode = Mode_Auto -> Ui.in_modeAuto g = true).
Proof.
  intros Number String_of_number f f' items mode Hm g. subst g.
  unfold Ui.handleSave. rewrite Hm. unfold Ui.handleLoad.
  cbn [Ui.in_userAgent Ui.in_credentials Ui.in_verbose Ui.in_rateLimit
       Ui.in_modeLogin Ui.in_modeRestore Ui.in_modeAuto].
  rewrite !lookup_insert. cbn.
  repeat split.
  - destruct (Ui.in_verbose f); reflexivity.
  - intros ->. reflexivity.
  - intros ->. reflexivity.
  - intros ->. reflexivity.
Qed.

(** X9: [handleLoad] sets the rate limit on the test of the [userAgent]
    item.  A storage without the items [userAgent], [mode], [credentials]
    and [verbose] leaves the whole form as it is, whatever its [rateLimit]
    item; a storage with a [userAgent] item and no [rateLimit] item sets
    the rate limit to the text of the number 0. *)
Theorem handleLoad_rate_limit_follows_user_agent :
  forall (Number : string -> number) (String_of_number : number -> string)
         (items : gmap string string) (f : Ui.Inputs),
    (items !! "userAgent" = None -> items !! "mode" = None ->
     items !! "credentials" = None -> items !! "verbose" = None ->
     Ui.handleLoad Number String_of_number (Some items) f = f)
    /\ (items !! "userAgent" <> None -> items !! "rateLimit" = None ->
        Ui.in_rateLimit (Ui.handleLoad Number String_of_number (Some items) f)
        = String_of_number (Num 0)).
Proof.
  intros Number String_of_number items f. split.
  - intros Hua Hm Hc Hv. unfold Ui.handleLoad.
    rewrite Hua, Hm, Hc, Hv. destruct f; reflexivity.
  - intros Hua Hrl. unfold Ui.handleLoad. simpl.
    destruct (items !! "userAgent"); [|contradiction].
    rewrite Hrl. reflexivity.
Qed.

(** X10: with no mode checked, [handleSave] stores the user agent and the
    rate limit and then stops: every other item of the storage, among them
    [mode], [credentials] and [verbose], keeps the value it had. *)
Theorem handleSave_without_mode_stops_early :
  forall (f : Ui.Inputs) (items : gmap string string),
    Ui.in_modeLogin f = false -> Ui.in_modeRestore f = false ->
    Ui.in_modeAuto f = false ->
    exists items',
      Ui.handleSave f (Some items) = Some items'
      /\ items' !! "userAgent" = Some (Ui.in_userAgent f)
      /\ items' !! "rateLimit" = Some (Ui.in_rateLimit f)
      /\ forall key, key <> "userAgent" -> key <> "rateLimit" ->
                     items' !! key = items !! key.
Proof.
  intros f items Hl Hr Ha. unfold Ui.handleSave, Ui.getMode.
  rewrite Hl, Hr, Ha. eexists. split; [reflexivity|].
  split; [|split].
  - rewrite lookup_insert_ne by discriminate. apply lookup_insert_eq.
  - apply lookup_insert_eq.
  - intros key Hua Hrl.
    rewrite !lookup_insert_ne by congruence. reflexivity.
Qed.

(** ** The pause and cancel buttons *)

Lemma click_keeps_label k this b :
  label_agrees this b ->
  label_agrees (snd (fst (Ui.click k this b))) (snd (Ui.click k this b)).
Proof.
  unfold label_agrees. intros H.
  destruct k; simpl.
  - destruct (Ui.pauseDisabled b); [exact H|].
    unfold Ui.handlePause, isPaused.
    destruct (_pause this); simpl; split; intros; congruence.
  - destruct (Ui.cancelDisabled b); [exact H|].
    simpl. split; intros; discriminate.
Qed.

Lemma clicks_cons k ks this b :
  Ui.clicks (k :: ks) this b
  = (fst (fst (Ui.click k this b))
       ++ fst (fst (Ui.clicks ks (snd (fst (Ui.click k this b)))
                               (snd (Ui.click k this b)))),
     snd (fst (Ui.clicks ks (snd (fst (Ui.click k this b)))
                         (snd (Ui.click k this b)))),
     snd (Ui.clicks ks (snd (fst (Ui.click k this b)))
                    (snd (Ui.click k this b)))).
Proof.
  simpl. destruct (Ui.click k this b) as [[evs1 this1] b1]. simpl.
  destruct (Ui.clicks ks this1 b1) as [[evs2 this2] b2]. reflexivity.
Qed.

(** X11: whatever is clicked, in whatever order, the pause button reads
    "Resume" exactly while the app is paused. *)
Theorem pause_button_tells_the_state :
  forall (ks : list Ui.Click) (this : App) (b : Ui.Buttons),
    label_agrees this b ->
    label_agrees (snd (fst (Ui.clicks ks this b))) (snd (Ui.clicks ks this b)).
Proof.
  induction ks as [|k ks IH]; intros this b H.
  - exact H.
  - rewrite clicks_cons. simpl.
    apply IH. apply click_keeps_label. exact H.
Qed.

Lemma pause_button_tells_the_state_witness :
  label_agrees new_App (Ui.mkButtons "Pause" false false true)
  /\ label_agrees
       (snd (fst (Ui.clicks [Ui.ClickPause; Ui.ClickPause; Ui.ClickPause]
                            new_App (Ui.mkButtons "Pause" false false true))))
       (snd (Ui.clicks [Ui.ClickPause; Ui.ClickPause; Ui.ClickPause]
                       new_App (Ui.mkButtons "Pause" false false true))).
Proof.
  assert (H : label_agrees new_App (Ui.mkButtons "Pause" false false true)).
  { unfold label_agrees. simpl. split; discriminate. }
  split; [exact H|].
  apply (pause_button_tells_the_state
           [Ui.ClickPause; Ui.ClickPause; Ui.ClickPause]).
  exact H.
Defined.

Lemma clicks_disabled ks this b :
  Ui.pauseDisabled b = true -> Ui.cancelDisabled b = true ->
  Ui.clicks ks this b = ([], this, b).
Proof.
  intros Hp Hc. induction ks as [|k ks IH]; [reflexivity|].
  rewrite clicks_cons.
  assert (Hk : Ui.click k this b = ([], this, b)).
  { destruct k; simpl; [rewrite Hp | rewrite Hc]; reflexivity. }
  rewrite Hk. simpl. rewrite IH. reflexivity.
Qed.

(** X12: a click on the enabled cancel button cancels the app once and for
    all: [cancel] runs, which also ends a pause, the pause button reads
    "Pause" again, and no later click on the pause or cancel button
    reaches the app. *)
Theorem cancel_click_is_final :
  forall (ks : list Ui.Click) (this : App) (b : Ui.Buttons),
    Ui.cancelDisabled b = false ->
    let '(evs, this', b') := Ui.click Ui.ClickCancel this b in
    evs = [Log "info" MCancelling]
    /\ _cancel this' = true
    /\ _pause this' = false
    /\ Ui.pauseText b' = "Pause"
    /\ Ui.clicks ks this' b' = ([], this', b').
Proof.
  intros ks this b Hc. simpl. rewrite Hc. simpl.
  repeat split. apply clicks_disabled; reflexivity.
Qed.

Lemma cancel_click_is_final_witness :
  let '(evs, this', b') :=
    Ui.click Ui.ClickCancel (mkApp false true "ua")
             (Ui.mkButtons "Resume" false false true) in
  evs = [Log "info" MCancelling]
  /\ _cancel this' = true
  /\ _pause this' = false
  /\ Ui.pauseText b' = "Pause"
  /\ Ui.clicks [Ui.ClickPause; Ui.ClickCancel] this' b' = ([], this', b').
Proof.
  apply (cancel_click_is_final [Ui.ClickPause; Ui.ClickCancel]
           (mkApp false true "ua") (Ui.mkButtons "Resume" false false true)).
  reflexivity.
Defined.

(** ** The pause gate *)

Lemma waitUntilUnpaused_from_gate ticks : forall now this,
    let r := waitUntilUnpaused_from ticks now this in
    (completion r = Normal tt /\ _pause (app r) = false)
    \/ (completion r = Suspended /\ _pause (app r) = true
        /\ script (world r) = []).
Proof.
  induction ticks as [|t rest IH]; intros now this; simpl.
  - destruct (_pause this) eqn:Hp; simpl; auto.
  - destruct (_pause this) eqn:Hp; simpl; auto.
    destruct (deliver (ui t) this) as [evs this'].
    unfold prepend; simpl. apply IH.
Qed.

(** X13: [waitUntilUnpaused] returns only with the app not paused, and it
    never throws: if it does not return, the app is still paused and the
    host has nothing more to deliver.  With the app not paused it returns
    at once, without a sleep and without a log line; the lines logged
    while it waits are those of [cancel], [pause] and [unpause]. *)
Theorem pause_gate :
  forall (this : App) (w : World),
    let r := waitUntilUnpaused this w in
    ((completion r = Normal tt /\ _pause (app r) = false)
     \/ (completion r = Suspended /\ _pause (app r) = true
         /\ script (world r) = []))
    /\ (_pause this = false -> r = mkRun (Normal tt) this w [])
    /\ (forall e, In e (out r) -> control_line e).
Proof.
  intros this w r. subst r. split; [|split].
  - apply waitUntilUnpaused_from_gate.
  - intros Hp. unfold waitUntilUnpaused.
    destruct w as [now ticks]; simpl.
    destruct ticks; simpl; rewrite Hp; reflexivity.
  - apply waitUntilUnpaused_control_lines.
Qed.

Lemma pause_gate_witness :
  waitUntilUnpaused new_App world_boundary
  = mkRun (Normal tt) new_App world_boundary [].
Proof.
  destruct (pause_gate new_App world_boundary) as (_ & H & _).
  apply H. reflexivity.
Defined.

(** ** How a run of [start] ends *)

Lemma cancel_only_by_call_nil this : cancel_only_by_call this [] this.
Proof. intros H; now left. Qed.

Lemma cancel_only_by_call_app a b c l1 l2 :
  cancel_only_by_call a l1 b -> cancel_only_by_call b l2 c ->
  cancel_only_by_call a (l1 ++ l2) c.
Proof.
  intros H1 H2 Hc. destruct (H2 Hc) as [Hb|Hin].
  - destruct (H1 Hb) as [Ha|Hin]; [now left|].
    right. apply in_or_app. now left.
  - right. apply in_or_app. now right.
Qed.

Lemma cancel_only_by_call_event this e :
  procedure_event this e -> cancel_only_by_call this [e] this.
Proof. intros _ H; now left. Qed.

Lemma cancel_only_by_call_call act this :
  cancel_only_by_call this (fst (call act this)) (snd (call act this)).
Proof.
  destruct act; simpl; intros H.
  - right. now left.
  - now left.
  - now left.
Qed.

Lemma dispatch_cancel_only_by_call mode cs verbose this w :
  cancel_only_by_call this (out (dispatch mode cs verbose this w))
                      (app (dispatch mode cs verbose this w)).
Proof.
  apply (respects_dispatch cancel_only_by_call cancel_only_by_call_nil
           cancel_only_by_call_app cancel_only_by_call_event
           cancel_only_by_call_call).
Qed.

Lemma no_finish_nil this : no_finish this [] this.
Proof. intros []. Qed.

Lemma no_finish_app (a b c : App) l1 l2 :
  no_finish a l1 b -> no_finish b l2 c -> no_finish a (l1 ++ l2) c.
Proof.
  intros H1 H2 H. apply in_app_or in H as [H|H]; [exact (H1 H) | exact (H2 H)].
Qed.

Lemma no_finish_event this e :
  procedure_event this e -> no_finish this [e] this.
Proof.
  intros He [H|[]]. subst e. inversion He.
Qed.

Lemma no_finish_call act this :
  no_finish this (fst (call act this)) (snd (call act this)).
Proof.
  destruct act; simpl; intros [H|[]]; discriminate.
Qed.

Lemma dispatch_no_finish mode cs verbose this w :
  ~ In HandleFinish (out (dispatch mode cs verbose this w)).
Proof.
  apply (respects_dispatch no_finish no_finish_nil no_finish_app
           no_finish_event no_finish_call).
Qed.

Lemma waitUntilUnpaused_no_finish this w :
  ~ In HandleFinish (out (waitUntilUnpaused this w)).
Proof.
  intros H. apply waitUntilUnpaused_control_lines in H.
  destruct H as [H|[H|H]]; discriminate.
Qed.

Lemma waitUntilUnpaused_cases this w :
  (completion (waitUntilUnpaused this w) = Normal tt
   /\ _pause (app (waitUntilUnpaused this w)) = false)
  \/ completion (waitUntilUnpaused this w) = Suspended.
Proof.
  destruct (waitUntilUnpaused_from_gate (script w) (time w) this)
    as [H|(H & _)]; [left | right]; exact H.
Qed.

(** X14: in a run of [start] that returns, the line logged right after
    the cleanup of the client is "Process cancelled." if [cancel] was
    called while the procedure ran and "Process complete." if not: a
    cancellation from before the run is forgotten by [reset], and one that
    arrives in the final pause gate comes after the line.  What follows
    the line are lines of [cancel], [pause] and [unpause] and the call of
    [Ui.handleFinish]. *)
Theorem terminal_line_tells_cancellation :
  forall (userAgent : string) (rateLimit : number) (mode : Mode)
         (credentials : list Credential) (verbose : bool)
         (this : App) (w : World),
    let r := start userAgent rateLimit mode credentials verbose this w in
    completion r = Normal tt ->
    exists pre line post,
      out r = pre ++ ApiCleanup :: line :: post
      /\ cleanups pre = 0%nat
      /\ (In cancelling pre -> line = Log "info" MProcessCancelled)
      /\ (~ In cancelling pre -> line = Log "info" MProcessComplete)
      /\ forall e, In e post -> control_line e \/ e = HandleFinish.
Proof.
  intros ua rl mode cs v this w r Hn. subst r.
  rewrite start_run in *.
  set (this1 := mkApp false false (composed_userAgent ua)) in *.
  pose proof (dispatch_cancel_kept mode cs v this1 w) as Hk.
  pose proof (dispatch_cancel_only_by_call mode cs v this1 w) as Ho.
  pose proof (dispatch_no_cleanup mode cs v this1 w) as Hcl.
  set (rd := dispatch mode cs v this1 w) in *.
  pose proof (waitUntilUnpaused_control_lines (app rd) (world rd)) as Hctl.
  set (rw := waitUntilUnpaused (app rd) (world rd)) in *.
  cbv zeta in Hn |- *.
  destruct (completion rd) as [[]|err|]; simpl in Hn;
    [|discriminate|discriminate].
  exists ([NewNsApi ua true rl] ++ out rd), (terminal_line (app rd)),
    (out rw ++ match completion rw with
               | Normal _ => [HandleFinish]
               | _ => []
               end).
  simpl. split; [|split; [|split; [|split]]].
  - rewrite <- ?app_assoc. reflexivity.
  - unfold cleanups in *. simpl. exact Hcl.
  - intros [H|H]; [discriminate|].
    unfold terminal_line. rewrite Hk; [reflexivity | now right].
  - intros Hnot. unfold terminal_line.
    destruct (_cancel (app rd)) eqn:Hc; [|reflexivity].
    destruct (Ho Hc) as [H|H]; [discriminate|].
    exfalso. apply Hnot. now right.
  - intros e He. apply in_app_or in He as [He|He].
    + left. apply Hctl. exact He.
    + right. destruct (completion rw); simpl in He;
        try contradiction. destruct He as [He|[]]. now symmetry.
Qed.

(** X15: [start] calls [Ui.handleFinish] exactly when it returns; the call
    is then the last thing the run does, it is made once, and the app is
    not paused at that moment. *)
Theorem finish_ends_the_run :
  forall (userAgent : string) (rateLimit : number) (mode : Mode)
         (credentials : list Credential) (verbose : bool)
         (this : App) (w : World),
    let r := start userAgent rateLimit mode credentials verbose this w in
    (In HandleFinish (out r) <-> completion r = Normal tt)
    /\ (completion r = Normal tt ->
        _pause (app r) = false
        /\ exists pre, out r = pre ++ [HandleFinish]
                       /\ ~ In HandleFinish pre).
Proof.
  intros ua rl mode cs v this w r. subst r.
  rewrite start_run.
  set (this1 := mkApp false false (composed_userAgent ua)).
  pose proof (dispatch_no_finish mode cs v this1 w) as Hd.
  set (rd := dispatch mode cs v this1 w) in *.
  pose proof (waitUntilUnpaused_no_finish (app rd) (world rd)) as Hw.
  pose proof (waitUntilUnpaused_cases (app rd) (world rd)) as Hg.
  set (rw := waitUntilUnpaused (app rd) (world rd)) in *.
  cbv zeta.
  assert (Hpre : ~ In HandleFinish
                   ([NewNsApi ua true rl] ++ out rd
                      ++ [ApiCleanup; terminal_line (app rd)] ++ out rw)).
  { intros H. simpl in H. destruct H as [H|H]; [discriminate|].
    apply in_app_or in H as [H|H]; [exact (Hd H)|].
    simpl in H. destruct H as [H|[H|H]]; try discriminate. exact (Hw H). }
  destruct (completion rd) as [[]|err|]; simpl.
  - destruct Hg as [[Hg Hp]|Hg]; rewrite Hg; simpl.
    + split.
      * split; [reflexivity|]. intros _. right.
        apply in_or_app. right. right. right.
        apply in_or_app. right. now left.
      * intros _. split; [exact Hp|].
        exists ([NewNsApi ua true rl] ++ out rd
                  ++ [ApiCleanup; terminal_line (app rd)] ++ out rw).
        split; [|exact Hpre].
        simpl. rewrite <- !app_assoc. reflexivity.
    + split; [|discriminate].
      split; [|discriminate]. intros H. exfalso. apply Hpre.
      simpl in H |- *. rewrite app_nil_r in H. exact H.
  - split; [|discriminate]. split; [|discriminate].
    intros [H|H]; [discriminate|].
    apply in_app_or in H as [H|H]; [destruct (Hd H)|].
    destruct H as [H|[]]. discriminate.
  - split; [|discriminate]. split; [|discriminate].
    intros [H|H]; [discriminate | destruct (Hd H)].
Qed.

(** X16: started with no credentials in one of the three modes, and
    with arguments the constructor of the client accepts, [App.start] makes
    no request and waits for nothing: it creates the client, logs the
    mode, cleans the client up, logs "Process complete." and finishes,
    leaving the app neither cancelled nor paused. *)
Theorem start_without_credentials :
  forall (NsApi_throws : string -> bool -> number -> option Thrown)
         (userAgent : string) (rateLimit : number) (mode : Mode)
         (verbose : bool) (this : App) (w : World),
    NsApi_throws userAgent true rateLimit = None ->
    mode = Mode_Auto \/ mode = Mode_Login \/ mode = Mode_Restore ->
    App_start NsApi_throws userAgent rateLimit mode [] verbose this w
    = mkRun (Normal tt) (mkApp false false (composed_userAgent userAgent)) w
            [NewNsApi userAgent true rateLimit; mode_line mode; ApiCleanup;
             Log "info" MProcessComplete; HandleFinish].
Proof.
  intros NsApi_throws ua rl mode v this w Hc Hm.
  rewrite (App_start_constructed NsApi_throws ua rl mode [] v this w Hc).
  destruct w as [now ticks]. rewrite start_run.
  destruct Hm as [ -> | [ -> | -> ] ]; destruct ticks; reflexivity.
Qed.

Lemma start_without_credentials_witness :
  App_start refuses_below_600 "ua" (Num 600) Mode_Login [] false new_App
            world_boundary
  = mkRun (Normal tt) (mkApp false false (composed_userAgent "ua"))
          world_boundary
          [NewNsApi "ua" true (Num 600); mode_line Mode_Login; ApiCleanup;
           Log "info" MProcessComplete; HandleFinish].
Proof.
  apply (start_without_credentials refuses_below_600 "ua" (Num 600)
           Mode_Login false new_App world_boundary).
  - reflexivity.
  - right. left. reflexivity.
Defined.

(** ** Batches *)

Lemma auto_body_breaks verbose :
  break_only_when_cancelled (auto_body verbose).
Proof.
  intros c this w Hc H. unfold auto_body in H.
  unfold bind at 1, get_this in H; simpl in H. rewrite Hc in H.
  rewrite ?prepend_nil in H. never_breaks H.
Qed.

Lemma bind_ret_run {B} (f : unit -> M B) this w :
  bind (ret tt) f this w = f tt this w.
Proof.
  unfold bind, ret; simpl. apply prepend_nil.
Qed.

Lemma for_of_app {A} (body : A -> M Flow) xs ys :
  breaks_when_cancelled body ->
  break_only_when_cancelled body ->
  forall this w,
    for_of (xs ++ ys) body this w
    = (for_of xs body >> for_of ys body) this w.
Proof.
  intros Hb Ho. induction xs as [|x xs IH]; intros this w.
  - simpl. now rewrite bind_ret_run.
  - destruct (_cancel this) eqn:Hc.
    + rewrite (for_of_cancelled body ((x :: xs) ++ ys) this w Hb Hc).
      unfold bind at 1.
      rewrite (for_of_cancelled body (x :: xs) this w Hb Hc). simpl.
      now rewrite (for_of_cancelled body ys this w Hb Hc).
    + specialize (Ho x this w Hc). simpl.
      unfold bind.
      destruct (body x this w) as [[[|]|err|] a w' o]; simpl in *;
        try reflexivity; [|congruence].
      rewrite IH. unfold bind.
      destruct (for_of xs body a w') as [[[]|err|] a2 w2 o2];
        unfold prepend; simpl; rewrite <- ?app_assoc; reflexivity.
Qed.

(** X17: a batch is processed as its parts in sequence: in each of the
    three procedures, running a list of credentials followed by another is
    the same run (events, state, completion) as running the first list
    and then the second from where the first left off. *)
Theorem batches_compose :
  forall (cs1 cs2 : list Credential) (verbose : bool)
         (this : App) (w : World),
    loginNations (cs1 ++ cs2) verbose this w
    = (loginNations cs1 verbose >> loginNations cs2 verbose) this w
    /\ restoreNations (cs1 ++ cs2) verbose this w
       = (restoreNations cs1 verbose >> restoreNations cs2 verbose) this w
    /\ auto (cs1 ++ cs2) verbose this w
       = (auto cs1 verbose >> auto cs2 verbose) this w.
Proof.
  intros cs1 cs2 v this w. split; [|split].
  - apply for_of_app;
      [apply loginNations_body_cancelled | apply loginNations_body_breaks].
  - apply for_of_app;
      [apply restoreNations_body_cancelled | apply restoreNations_body_breaks].
  - apply for_of_app;
      [apply auto_body_cancelled | apply auto_body_breaks].
Qed.

(** ** Side-channel requests under any order of events *)

Lemma fold_settled (step : TimerEvent -> Request -> Request) :
  (forall ev r, promise r <> Pending -> promise (step ev r) = promise r) ->
  forall evs r,
    promise r <> Pending ->
    promise (fold_left (fun r ev => step ev r) evs r) = promise r.
Proof.
  intros Hs. induction evs as [|ev evs IH]; intros r Hr; [reflexivity|].
  simpl. rewrite IH by (rewrite Hs; assumption). now apply Hs.
Qed.

Lemma restore_settled ua c ev r :
  promise r <> Pending ->
  promise (restoreRequest_on ua c ev r) = promise r.
Proof.
  intros Hr. destruct ev; simpl.
  - destruct (load_handler r); reflexivity.
  - destruct (promise r); [contradiction | reflexivity | reflexivity].
  - destruct (resolved r); simpl; [reflexivity|].
    destruct (promise r); [contradiction | reflexivity | reflexivity].
Qed.

Lemma login_settled ua c ev r :
  promise r <> Pending ->
  promise (Legacy.loginRequest_on ua c ev r) = promise r.
Proof.
  intros Hr. destruct ev; simpl.
  - destruct (load_handler r); reflexivity.
  - destruct (promise r); [contradiction | reflexivity | reflexivity].
  - destruct (resolved r); simpl; [reflexivity|].
    destruct (promise r); [contradiction | reflexivity | reflexivity].
Qed.

Lemma restore_first_timer ua c evs : forall r,
    promise r = Pending -> resolved r = false ->
    promise (fold_left (fun r ev => restoreRequest_on ua c ev r) evs r)
    = match first_timer evs with
      | Some SettleTimer => Fulfilled
      | Some _ => Rejected
      | None => Pending
      end.
Proof.
  induction evs as [|ev evs IH]; intros r Hp Hr; [exact Hp|].
  destruct ev; simpl.
  - apply IH; destruct (load_handler r); assumption.
  - rewrite (fold_settled (restoreRequest_on ua c) (restore_settled ua c));
      simpl; rewrite Hp; [reflexivity | discriminate].
  - rewrite (fold_settled (restoreRequest_on ua c) (restore_settled ua c));
      rewrite Hr; simpl; rewrite Hp; [reflexivity | discriminate].
Qed.

Lemma login_first_timer ua c evs : forall r,
    promise r = Pending -> resolved r = false ->
    promise (fold_left (fun r ev => Legacy.loginRequest_on ua c ev r) evs r)
    = match first_timer evs with
      | Some _ => Fulfilled
      | None => Pending
      end.
Proof.
  induction evs as [|ev evs IH]; intros r Hp Hr; [exact Hp|].
  destruct ev; simpl.
  - apply IH; destruct (load_handler r); assumption.
  - rewrite (fold_settled (Legacy.loginRequest_on ua c) (login_settled ua c));
      simpl; rewrite Hp; [reflexivity | discriminate].
  - rewrite (fold_settled (Legacy.loginRequest_on ua c) (login_settled ua c));
      rewrite Hr; simpl; rewrite Hp; [reflexivity | discriminate].
Qed.

(** X18: the promise of a side-channel request is decided by the first of
    the two timers to fire, in whatever order the events come, and is not
    changed by anything after it.  For [restoreRequest] the 6 s timer
    fulfils it and the 15 s timer rejects it; for the [loginRequest] of the
    earlier variant either timer fulfils it.  The [load] event of the
    iframe alone settles nothing. *)
Theorem first_timer_decides :
  forall (userAgent : string) (credential : Credential)
         (evs : list TimerEvent),
    promise (after_events (restoreRequest_on userAgent credential) evs)
    = match first_timer evs with
      | Some SettleTimer => Fulfilled
      | Some _ => Rejected
      | None => Pending
      end
    /\ promise (after_events (Legacy.loginRequest_on userAgent credential) evs)
       = match first_timer evs with
         | Some _ => Fulfilled
         | None => Pending
         end.
Proof.
  intros ua c evs. unfold after_events. split.
  - apply restore_first_timer; reflexivity.
  - apply login_first_timer; reflexivity.
Qed.

Lemma restore_submitted ua c evs : forall r,
    submitted (fold_left (fun r ev => restoreRequest_on ua c ev r) evs r)
    = submitted r
        ++ if load_handler r && existsb is_load evs
           then [restoreForm ua c] else [].
Proof.
  induction evs as [|ev evs IH]; intros r.
  - simpl. rewrite andb_false_r, app_nil_r. reflexivity.
  - destruct ev; simpl.
    + destruct (load_handler r) eqn:Hl; simpl.
      * rewrite IH. simpl. rewrite <- app_assoc. reflexivity.
      * rewrite IH. rewrite Hl. reflexivity.
    + rewrite IH. reflexivity.
    + destruct (resolved r); simpl; rewrite IH; reflexivity.
Qed.

Lemma login_submitted ua c evs : forall r,
    submitted (fold_left (fun r ev => Legacy.loginRequest_on ua c ev r) evs r)
    = submitted r
        ++ if load_handler r && existsb is_load evs
           then [Legacy.loginForm ua c] else [].
Proof.
  induction evs as [|ev evs IH]; intros r.
  - simpl. rewrite andb_false_r, app_nil_r. reflexivity.
  - destruct ev; simpl.
    + destruct (load_handler r) eqn:Hl; simpl.
      * rewrite IH. simpl. rewrite <- app_assoc. reflexivity.
      * rewrite IH. rewrite Hl. reflexivity.
    + rewrite IH. reflexivity.
    + destruct (resolved r); simpl; rewrite IH; reflexivity.
Qed.

(** X19: a side-channel request submits its form when the iframe has
    loaded, and only once however often it loads again: after any events,
    the forms submitted are the one form of the credential if a [load]
    event is among them, and none otherwise. *)
Theorem form_submitted_once :
  forall (userAgent : string) (credential : Credential)
         (evs : list TimerEvent),
    submitted (after_events (restoreRequest_on userAgent credential) evs)
    = (if existsb is_load evs
       then [restoreForm userAgent credential] else [])
    /\ submitted (after_events (Legacy.loginRequest_on userAgent credential)
                               evs)
       = (if existsb is_load evs
          then [Legacy.loginForm userAgent credential] else []).
Proof.
  intros ua c evs. unfold after_events. split.
  - rewrite restore_submitted. reflexivity.
  - rewrite login_submitted. reflexivity.
Qed.

(** ** What a run touches *)


Lemma deliver_userAgent acts : forall this,
    _userAgent (snd (deliver acts this)) = _userAgent this.
Proof.
  induction acts as [|a acts IH]; intros this; [reflexivity|].
  simpl. destruct (call a this) as [evs1 this1] eqn:Hc.
  specialize (IH this1).
  destruct (deliver acts this1) as [evs2 this2]. simpl in *.
  rewrite IH. destruct a; simpl in Hc; inversion Hc; reflexivity.
Qed.

Section Confined.

Variable cs : list Credential.



Lemma confined_suspend {A} : confined cs (@suspend A).
Proof. intros this w. split; [reflexivity | intros e []]. Qed.

















End Confined.


(** ** The outcomes a run reports *)

Lemma reported_app l1 l2 : reported (l1 ++ l2) = reported l1 ++ reported l2.
Proof.
  induction l1 as [|e l1 IH]; [reflexivity|].
  simpl. destruct (outcome_of e); simpl; now rewrite IH.
Qed.

Lemma reported_control l :
  (forall e, In e l -> control_line e) -> reported l = [].
Proof.
  induction l as [|e l IH]; intros H; [reflexivity|].
  simpl. destruct (H e (or_introl eq_refl)) as [ -> | [ -> | -> ] ]; simpl;
    apply IH; intros e' He'; apply H; now right.
Qed.

Lemma reported_submits fs : reported (map Submit fs) = [].
Proof. induction fs; [reflexivity | exact IHfs]. Qed.

Lemma reports_nothing {A} (m : M A) ns :
  (forall this w, reported (out (m this w)) = []) ->
  (forall this w a, completion (m this w) <> Normal a) ->
  reports ns m.
Proof.
  intros Ho Hn this w. rewrite Ho. split; [|split].
  - now exists ns.
  - intros a Ha. now apply Hn in Ha.
  - reflexivity.
Qed.

Lemma reports_silent {A} (m : M A) :
  (forall this w, reported (out (m this w)) = []) -> reports [] m.
Proof.
  intros Ho this w. rewrite Ho. split; [now exists []|]. split; reflexivity.
Qed.

Lemma reports_silence {A} (m : M A) this w :
  reports [] m -> reported (out (m this w)) = [].
Proof.
  intros H. destruct (H this w) as [[rest Hr] _].
  symmetry in Hr. now apply app_eq_nil in Hr.
Qed.

Lemma reports_ret {A} (a : A) : reports [] (ret a).
Proof. now apply reports_silent. Qed.

Lemma reports_throw {A} ns err : reports ns (@throw A err).
Proof. apply reports_nothing; [reflexivity | discriminate]. Qed.

Lemma reports_get_this : reports [] get_this.
Proof. now apply reports_silent. Qed.

Lemma reports_Date_now : reports [] Date_now.
Proof. now apply reports_silent. Qed.

Lemma reports_log type m :
  outcome_of (Log type m) = None -> reports [] (Ui_log type m).
Proof.
  intros H. apply reports_silent. intros this w.
  unfold Ui_log, emit. cbn [out reported]. now rewrite H.
Qed.

Lemma reports_outcome type m n :
  outcome_of (Log type m) = Some n -> reports [n] (Ui_log type m).
Proof.
  intros H this w. unfold Ui_log, emit. cbn [out completion reported].
  rewrite H.
  split; [now exists []|]. split; [reflexivity | discriminate].
Qed.

Lemma reports_await : reports [] await.
Proof.
  apply reports_silent. intros this w. unfold await.
  destruct (script w) as [|t rest]; [reflexivity|].
  pose proof (during_control_lines t this) as Hc. unfold during in Hc.
  destruct (deliver (ui t) this) as [evs this']; simpl in *.
  now apply reported_control.
Qed.

Lemma reports_waitUntilUnpaused : reports [] waitUntilUnpaused.
Proof.
  apply reports_silent. intros this w.
  apply reported_control, waitUntilUnpaused_control_lines.
Qed.

Lemma reports_bind_silent {A B} (m : M A) (f : A -> M B) ns :
  reports [] m -> (forall a, reports ns (f a)) -> reports ns (bind m f).
Proof.
  intros Hm Hf this w.
  pose proof (reports_silence m this w Hm) as Ho.
  unfold bind. destruct (completion (m this w)) as [a|err|]; simpl.
  - rewrite reported_app, Ho. apply Hf.
  - rewrite Ho. split; [now exists ns|]. split; [discriminate | reflexivity].
  - rewrite Ho. split; [now exists ns|]. split; discriminate.
Qed.

Lemma reports_bind_ret {A B} (m : M A) (b : B) ns :
  reports ns m -> reports ns (bind m (fun _ => ret b)).
Proof.
  intros Hm this w. destruct (Hm this w) as (Hp & Hn & Ha).
  unfold bind. destruct (completion (m this w)) as [a|err|]; simpl.
  - rewrite app_nil_r. split; [exact Hp|]. split; [|discriminate].
    intros _ _. now apply (Hn a).
  - split; [exact Hp|]. split; [discriminate|]. intros _ _. now apply (Ha err).
  - split; [exact Hp|]. split; discriminate.
Qed.

Lemma reports_try_catch {A} (m : M A) (h : Thrown -> M A) ns :
  reports ns m -> (forall err, reports ns (h err)) ->
  reports ns (try_catch m h).
Proof.
  intros Hm Hh this w. pose proof (Hm this w) as Hmw.
  unfold try_catch.
  case_eq (completion (m this w)); [intros a Hc | intros err Hc | intros Hc].
  - exact Hmw.
  - destruct Hmw as (_ & _ & Ha).
    simpl. rewrite reported_app, (Ha err Hc). apply Hh.
  - exact Hmw.
Qed.

Lemma reports_nationRequest n shards auth :
  reports [] (nationRequest n shards auth).
Proof.
  unfold nationRequest.
  apply reports_bind_silent; [now apply reports_silent|]. intros _.
  apply reports_bind_silent; [apply reports_await|]. intros t.
  destruct (settled t); [apply reports_ret | apply reports_throw].
Qed.

Lemma reports_Ui_confirm : reports [] Ui_confirm.
Proof.
  unfold Ui_confirm.
  apply reports_bind_silent; [now apply reports_silent|]. intros _.
  apply reports_bind_silent; [apply reports_await|]. intros _.
  apply reports_ret.
Qed.

Lemma reports_restoreRequest c : reports [] (restoreRequest c).
Proof.
  unfold restoreRequest, await_request.
  apply reports_bind_silent; [apply reports_await|]. intros t.
  apply reports_bind_silent; [apply reports_get_this|]. intros this0.
  apply reports_bind_silent.
  - apply reports_silent. intros this w. rewrite emit_all_run. simpl.
    apply reported_submits.
  - intros _. destruct (promise _);
      [now apply reports_silent | apply reports_ret | apply reports_throw].
Qed.

Lemma reports_verdict (verbose : bool) type m n detail :
  outcome_of (Log type m) = Some n ->
  outcome_of (Log "error" detail) = None ->
  reports [n] (Ui_log type m >>
               if verbose then Ui_log "error" detail else ret tt).
Proof.
  intros Hm Hd this w.
  destruct verbose; unfold bind, Ui_log, emit, ret, prepend;
    cbn [completion app world out List.app reported];
    rewrite Hm, ?Hd;
    (split; [now exists []|]); (split; [reflexivity | discriminate]).
Qed.

Lemma reports_loginNations_try verbose c :
  reports [nation c] (loginNations_try verbose c).
Proof.
  unfold loginNations_try. apply reports_try_catch.
  - apply reports_bind_silent; [now apply reports_log|]. intros _.
    apply reports_bind_silent; [apply reports_nationRequest|]. intros _.
    apply reports_bind_silent; [apply reports_nationRequest|]. intros data.
    apply reports_bind_silent; [apply reports_Date_now|]. intros ms.
    cbv zeta. destruct (num_gt _ _).
    + now apply reports_verdict.
    + now apply reports_outcome.
  - intros err. now apply reports_verdict.
Qed.

Lemma reports_restoreNations_try verbose c :
  reports [nation c] (restoreNations_try verbose c).
Proof.
  unfold restoreNations_try. apply reports_try_catch.
  - apply reports_bind_silent; [apply reports_restoreRequest|]. intros _.
    apply reports_bind_silent; [apply reports_nationRequest|]. intros _.
    now apply reports_outcome.
  - intros err. now apply reports_verdict.
Qed.

Lemma reports_auto_try c : reports [] (auto_try c).
Proof.
  unfold auto_try. apply reports_try_catch.
  - apply reports_bind_silent; [now apply reports_log|]. intros _.
    apply reports_bind_silent; [apply reports_nationRequest|]. intros _.
    apply reports_ret.
  - intros _. apply reports_bind_silent; [now apply reports_log|]. intros _.
    apply reports_ret.
Qed.

Lemma reports_weaken {A} (m : M A) ns :
  reports ns m -> reports_unless_cancelled ns m.
Proof.
  intros H this w. destruct (H this w) as (Hp & Hn & _).
  split; [exact Hp|]. intros a Ha _. now apply (Hn a).
Qed.

Lemma unless_cancelled_bind_silent {A B} (m : M A) (f : A -> M B) ns :
  reports [] m -> (forall a, reports_unless_cancelled ns (f a)) ->
  reports_unless_cancelled ns (bind m f).
Proof.
  intros Hm Hf this w.
  pose proof (reports_silence m this w Hm) as Ho.
  unfold bind. destruct (completion (m this w)) as [a|err|]; simpl.
  - rewrite reported_app, Ho. apply Hf.
  - rewrite Ho. split; [now exists ns | discriminate].
  - rewrite Ho. split; [now exists ns | discriminate].
Qed.

Lemma unless_cancelled_bind_ret {A B} (m : M A) (b : B) ns :
  reports_unless_cancelled ns m ->
  reports_unless_cancelled ns (bind m (fun _ => ret b)).
Proof.
  intros Hm this w. destruct (Hm this w) as (Hp & Hn).
  unfold bind. destruct (completion (m this w)) as [a|err|]; simpl.
  - rewrite app_nil_r. split; [exact Hp|].
    intros _ _. now apply (Hn a).
  - split; [exact Hp | discriminate].
  - split; [exact Hp | discriminate].
Qed.

Lemma unless_cancelled_for_of {A} (name : A -> string) (body : A -> M Flow) :
  breaks_when_cancelled body ->
  break_only_when_cancelled body ->
  (forall x, reports_unless_cancelled [name x] (body x)) ->
  forall xs, reports_unless_cancelled (map name xs) (for_of xs body).
Proof.
  intros Hb Ho Hbody. induction xs as [|x xs IH]; intros this w.
  - simpl. split; [now exists [] | reflexivity].
  - destruct (_cancel this) eqn:Hc.
    + rewrite (for_of_cancelled body (x :: xs) this w Hb Hc). simpl.
      split; [now eexists | congruence].
    + specialize (Ho x this w Hc).
      destruct (Hbody x this w) as ([rest Hp] & Hn).
      cbn [for_of]. unfold bind.
      destruct (body x this w) as [[[|]|err|] a' w' o]; simpl in *.
      * destruct (_cancel a') eqn:Hc'.
        -- rewrite (for_of_cancelled body xs a' w' Hb Hc'). simpl.
           rewrite app_nil_r. split; [|congruence].
           exists (rest ++ map name xs).
           rewrite app_assoc, <- Hp. reflexivity.
        -- rewrite reported_app, (Hn Next eq_refl eq_refl).
           destruct (IH a' w') as ([rest' Hp'] & Hn').
           split.
           ++ exists rest'. simpl. now rewrite Hp' at 1.
           ++ intros u Hu Hcu. simpl. f_equal. now apply (Hn' u).
      * congruence.
      * split; [|discriminate].
        exists (rest ++ map name xs).
        rewrite app_assoc, <- Hp. reflexivity.
      * split; [|discriminate].
        exists (rest ++ map name xs).
        rewrite app_assoc, <- Hp. reflexivity.
Qed.

Lemma loginNations_body_reports verbose c :
  reports_unless_cancelled [nation c] (loginNations_body verbose c).
Proof.
  intros this w. unfold loginNations_body.
  unfold bind at 1, get_this; simpl. rewrite ?prepend_nil.
  destruct (_cancel this) eqn:Hc.
  - simpl. split; [now eexists | congruence].
  - revert this w Hc.
    assert (H : reports_unless_cancelled [nation c]
                  (waitUntilUnpaused >>
                   loginNations_try verbose c >> ret Next)).
    { apply unless_cancelled_bind_silent;
        [apply reports_waitUntilUnpaused|]. intros _.
      apply unless_cancelled_bind_ret, reports_weaken,
        reports_loginNations_try. }
    intros this w _. apply H.
Qed.

Lemma restoreNations_body_reports verbose c :
  reports_unless_cancelled [nation c] (restoreNations_body verbose c).
Proof.
  intros this w. unfold restoreNations_body.
  unfold bind at 1, get_this; simpl. rewrite ?prepend_nil.
  destruct (_cancel this) eqn:Hc.
  - simpl. split; [now eexists | congruence].
  - revert this w Hc.
    assert (H : reports_unless_cancelled [nation c]
                  (waitUntilUnpaused >>
                   Ui_log "info" (MWaitingForConfirmation (nation c)) >>
                   Ui_confirm >>
                   Ui_log "info" (MConfirmationReceived (nation c)) >>
                   restoreNations_try verbose c >> ret Next)).
    { apply unless_cancelled_bind_silent;
        [apply reports_waitUntilUnpaused|]. intros _.
      apply unless_cancelled_bind_silent; [now apply reports_log|]. intros _.
      apply unless_cancelled_bind_silent; [apply reports_Ui_confirm|].
      intros _.
      apply unless_cancelled_bind_silent; [now apply reports_log|]. intros _.
      apply unless_cancelled_bind_ret, reports_weaken,
        reports_restoreNations_try. }
    intros this w _. apply H.
Qed.

Lemma loginNations_reports verbose cs :
  reports_unless_cancelled (map nation cs) (loginNations cs verbose).
Proof.
  apply unless_cancelled_for_of;
    [apply loginNations_body_cancelled | apply loginNations_body_breaks
    | apply loginNations_body_reports].
Qed.

Lemma restoreNations_reports verbose cs :
  reports_unless_cancelled (map nation cs) (restoreNations cs verbose).
Proof.
  apply unless_cancelled_for_of;
    [apply restoreNations_body_cancelled | apply restoreNations_body_breaks
    | apply restoreNations_body_reports].
Qed.

Lemma auto_body_reports verbose c :
  reports_unless_cancelled [nation c] (auto_body verbose c).
Proof.
  intros this w. unfold auto_body.
  unfold bind at 1, get_this; simpl. rewrite ?prepend_nil.
  destruct (_cancel this) eqn:Hc.
  - simpl. split; [now eexists | congruence].
  - revert this w Hc.
    assert (H : reports_unless_cancelled [nation c]
                  (waitUntilUnpaused >>
                   login <- auto_try c ;;
                   (if login : bool
                    then loginNations [c] verbose
                    else restoreNations [c] verbose) >>
                   ret Next)).
    { apply unless_cancelled_bind_silent;
        [apply reports_waitUntilUnpaused|]. intros _.
      apply unless_cancelled_bind_silent; [apply reports_auto_try|].
      intros login. apply unless_cancelled_bind_ret.
      destruct login;
        [apply (loginNations_reports verbose [c])
        | apply (restoreNations_reports verbose [c])]. }
    intros this w _. apply H.
Qed.

Lemma auto_reports verbose cs :
  reports_unless_cancelled (map nation cs) (auto cs verbose).
Proof.
  apply unless_cancelled_for_of;
    [apply auto_body_cancelled | apply auto_body_breaks
    | apply auto_body_reports].
Qed.

(** X21: each credential gets one outcome line, in the order of the list.
    In every mode and at any moment of a run, the nations of the outcome
    lines logged so far (login or restore, successful or failed) are the
    nations of the first credentials of the list, in order and once each;
    when the procedure returns without having been cancelled, they are
    the nations of the whole list. *)
Theorem one_outcome_per_credential :
  forall (mode : Mode) (credentials : list Credential) (verbose : bool)
         (this : App) (w : World),
    let r := dispatch mode credentials verbose this w in
    (exists rest, map nation credentials = reported (out r) ++ rest)
    /\ (completion r = Normal tt -> _cancel (app r) = false ->
        reported (out r) = map nation credentials).
Proof.
  intros mode cs v this w r. subst r.
  assert (H : reports_unless_cancelled (map nation cs) (dispatch mode cs v)).
  { unfold dispatch.
    destruct (mode =? Mode_Auto);
      [|destruct (mode =? Mode_Login); [|destruct (mode =? Mode_Restore)]].
    - apply unless_cancelled_bind_silent; [now apply reports_log|].
      intros _. apply auto_reports.
    - apply unless_cancelled_bind_silent; [now apply reports_log|].
      intros _. apply loginNations_reports.
    - apply unless_cancelled_bind_silent; [now apply reports_log|].
      intros _. apply restoreNations_reports.
    - apply reports_weaken, reports_throw. }
  destruct (H this w) as [Hp Hn]. split; [exact Hp|]. apply Hn.
Qed.

(** ** The verbose flag *)

Lemma without_detail_app l1 l2 :
  without_detail (l1 ++ l2) = without_detail l1 ++ without_detail l2.
Proof. apply List.filter_app. Qed.

Lemma without_detail_control l :
  (forall e, In e l -> control_line e) -> without_detail l = l.
Proof.
  induction l as [|e l IH]; intros H; [reflexivity|].
  unfold without_detail in *. simpl.
  destruct (H e (or_introl eq_refl)) as [ -> | [ -> | -> ] ]; simpl;
    f_equal; apply IH; intros e' He'; apply H; now right.
Qed.

Lemma mirrors_same {A} (m : M A) :
  (forall this w, without_detail (out (m this w)) = out (m this w)) ->
  mirrors m m.
Proof. intros H this w. repeat split. apply H. Qed.

Lemma mirrors_ret {A} (a : A) : mirrors (ret a) (ret a).
Proof. now apply mirrors_same. Qed.

Lemma mirrors_throw {A} err : mirrors (@throw A err) (throw err).
Proof. now apply mirrors_same. Qed.

Lemma mirrors_suspend {A} : mirrors (@suspend A) suspend.
Proof. now apply mirrors_same. Qed.

Lemma mirrors_get_this : mirrors get_this get_this.
Proof. now apply mirrors_same. Qed.

Lemma mirrors_set_this f : mirrors (set_this f) (set_this f).
Proof. now apply mirrors_same. Qed.

Lemma mirrors_Date_now : mirrors Date_now Date_now.
Proof. now apply mirrors_same. Qed.

Lemma mirrors_emit e : is_detail e = false -> mirrors (emit e) (emit e).
Proof.
  intros H. apply mirrors_same. intros this w.
  unfold emit, without_detail. cbn [out List.filter]. now rewrite H.
Qed.

Lemma mirrors_detail type m :
  is_detail (Log type m) = true -> mirrors (Ui_log type m) (ret tt).
Proof.
  intros H this w. repeat split.
  unfold Ui_log, emit, ret, without_detail. cbn [out List.filter].
  now rewrite H.
Qed.

Lemma mirrors_await : mirrors await await.
Proof.
  apply mirrors_same. intros this w. unfold await.
  destruct (script w) as [|t rest]; [reflexivity|].
  pose proof (during_control_lines t this) as Hc. unfold during in Hc.
  destruct (deliver (ui t) this) as [evs this']; simpl in *.
  now apply without_detail_control.
Qed.

Lemma mirrors_waitUntilUnpaused : mirrors waitUntilUnpaused waitUntilUnpaused.
Proof.
  apply mirrors_same. intros this w.
  apply without_detail_control, waitUntilUnpaused_control_lines.
Qed.

Lemma mirrors_bind {A B} (m1 m2 : M A) (f1 f2 : A -> M B) :
  mirrors m1 m2 -> (forall a, mirrors (f1 a) (f2 a)) ->
  mirrors (bind m1 f1) (bind m2 f2).
Proof.
  intros Hm Hf this w. destruct (Hm this w) as (Hc & Ha & Hw & Ho).
  unfold bind.
  destruct (m1 this w) as [c1 a1 w1 o1], (m2 this w) as [c2 a2 w2 o2].
  simpl in *. subst c2 a2 w2 o2.
  destruct c1 as [a|err|]; simpl; [|now repeat split|now repeat split].
  destruct (Hf a a1 w1) as (Hc' & Ha' & Hw' & Ho').
  rewrite without_detail_app, Ho'. now repeat split.
Qed.

Lemma mirrors_try_catch {A} (m1 m2 : M A) (h1 h2 : Thrown -> M A) :
  mirrors m1 m2 -> (forall err, mirrors (h1 err) (h2 err)) ->
  mirrors (try_catch m1 h1) (try_catch m2 h2).
Proof.
  intros Hm Hh this w. destruct (Hm this w) as (Hc & Ha & Hw & Ho).
  unfold try_catch.
  destruct (m1 this w) as [c1 a1 w1 o1], (m2 this w) as [c2 a2 w2 o2].
  simpl in *. subst c2 a2 w2 o2.
  destruct c1 as [a|err|]; simpl; [now repeat split| |now repeat split].
  destruct (Hh err a1 w1) as (Hc' & Ha' & Hw' & Ho').
  rewrite without_detail_app, Ho'. now repeat split.
Qed.

Lemma mirrors_try_finally {A} (m1 m2 : M A) (fin : M unit) :
  mirrors m1 m2 -> mirrors fin fin ->
  mirrors (try_finally m1 fin) (try_finally m2 fin).
Proof.
  intros Hm Hf this w. destruct (Hm this w) as (Hc & Ha & Hw & Ho).
  unfold try_finally.
  destruct (m1 this w) as [c1 a1 w1 o1], (m2 this w) as [c2 a2 w2 o2].
  simpl in *. subst c2 a2 w2 o2.
  destruct (Hf a1 w1) as (_ & _ & _ & Ho').
  destruct c1 as [a|err|]; simpl; [| |now repeat split];
    destruct (completion (fin a1 w1)); simpl;
    rewrite without_detail_app, Ho'; now repeat split.
Qed.

Lemma mirrors_for_of {A} (xs : list A) (body1 body2 : A -> M Flow) :
  (forall x, mirrors (body1 x) (body2 x)) ->
  mirrors (for_of xs body1) (for_of xs body2).
Proof.
  intros Hb. induction xs as [|x xs IH]; simpl.
  - apply mirrors_ret.
  - apply mirrors_bind; [apply Hb|].
    intros [|]; [exact IH | apply mirrors_ret].
Qed.

Lemma mirrors_log type m :
  is_detail (Log type m) = false -> mirrors (Ui_log type m) (Ui_log type m).
Proof. apply mirrors_emit. Qed.

Lemma mirrors_nationRequest n shards auth :
  mirrors (nationRequest n shards auth) (nationRequest n shards auth).
Proof.
  unfold nationRequest.
  apply mirrors_bind; [now apply mirrors_emit|]. intros _.
  apply mirrors_bind; [apply mirrors_await|]. intros t.
  destruct (settled t); [apply mirrors_ret | apply mirrors_throw].
Qed.

Lemma mirrors_Ui_confirm : mirrors Ui_confirm Ui_confirm.
Proof.
  unfold Ui_confirm.
  apply mirrors_bind; [now apply mirrors_emit|]. intros _.
  apply mirrors_bind; [apply mirrors_await|]. intros _.
  apply mirrors_ret.
Qed.

Lemma without_detail_submits fs :
  without_detail (map Submit fs) = map Submit fs.
Proof.
  induction fs as [|f fs IH]; [reflexivity|].
  unfold without_detail in *. simpl. now rewrite IH.
Qed.

Lemma mirrors_restoreRequest c : mirrors (restoreRequest c) (restoreRequest c).
Proof.
  unfold restoreRequest, await_request.
  apply mirrors_bind; [apply mirrors_await|]. intros t.
  apply mirrors_bind; [apply mirrors_get_this|]. intros this0.
  apply mirrors_bind.
  - apply mirrors_same. intros this w. rewrite emit_all_run. simpl.
    apply without_detail_submits.
  - intros _. destruct (promise _);
      [apply mirrors_suspend | apply mirrors_ret | apply mirrors_throw].
Qed.

Lemma mirrors_caught type m detail :
  is_detail (Log type m) = false ->
  is_detail (Log "error" detail) = true ->
  mirrors (Ui_log type m >> Ui_log "error" detail)
          (Ui_log type m >> ret tt).
Proof.
  intros Hm Hd.
  apply mirrors_bind; [now apply mirrors_log|]. intros _.
  now apply mirrors_detail.
Qed.

Lemma mirrors_loginNations_body c :
  mirrors (loginNations_body true c) (loginNations_body false c).
Proof.
  unfold loginNations_body, loginNations_try.
  apply mirrors_bind; [apply mirrors_get_this|]. intros this.
  destruct (_cancel this); [apply mirrors_ret|].
  apply mirrors_bind; [apply mirrors_waitUntilUnpaused|]. intros _.
  apply mirrors_bind; [|intros; apply mirrors_ret].
  apply mirrors_try_catch.
  - apply mirrors_bind; [now apply mirrors_log|]. intros _.
    apply mirrors_bind; [apply mirrors_nationRequest|]. intros _.
    apply mirrors_bind; [apply mirrors_nationRequest|]. intros data.
    apply mirrors_bind; [apply mirrors_Date_now|]. intros ms.
    cbv zeta. destruct (num_gt _ _).
    + now apply mirrors_caught.
    + now apply mirrors_log.
  - intros err. now apply mirrors_caught.
Qed.

Lemma mirrors_restoreNations_body c :
  mirrors (restoreNations_body true c) (restoreNations_body false c).
Proof.
  unfold restoreNations_body, restoreNations_try.
  apply mirrors_bind; [apply mirrors_get_this|]. intros this.
  destruct (_cancel this); [apply mirrors_ret|].
  apply mirrors_bind; [apply mirrors_waitUntilUnpaused|]. intros _.
  apply mirrors_bind; [now apply mirrors_log|]. intros _.
  apply mirrors_bind; [apply mirrors_Ui_confirm|]. intros _.
  apply mirrors_bind; [now apply mirrors_log|]. intros _.
  apply mirrors_bind; [|intros; apply mirrors_ret].
  apply mirrors_try_catch.
  - apply mirrors_bind; [apply mirrors_restoreRequest|]. intros _.
    apply mirrors_bind; [apply mirrors_nationRequest|]. intros _.
    now apply mirrors_log.
  - intros err. now apply mirrors_caught.
Qed.

Lemma mirrors_auto_body c :
  mirrors (auto_body true c) (auto_body false c).
Proof.
  unfold auto_body, auto_try.
  apply mirrors_bind; [apply mirrors_get_this|]. intros this.
  destruct (_cancel this); [apply mirrors_ret|].
  apply mirrors_bind; [apply mirrors_waitUntilUnpaused|]. intros _.
  apply mirrors_bind.
  - apply mirrors_try_catch.
    + apply mirrors_bind; [now apply mirrors_log|]. intros _.
      apply mirrors_bind; [apply mirrors_nationRequest|]. intros _.
      apply mirrors_ret.
    + intros _. apply mirrors_bind; [now apply mirrors_log|]. intros _.
      apply mirrors_ret.
  - intros login. apply mirrors_bind; [|intros; apply mirrors_ret].
    destruct login; apply mirrors_for_of; intros x.
    + apply mirrors_loginNations_body.
    + apply mirrors_restoreNations_body.
Qed.

Lemma mirrors_dispatch mode cs :
  mirrors (dispatch mode cs true) (dispatch mode cs false).
Proof.
  unfold dispatch.
  destruct (mode =? Mode_Auto);
    [|destruct (mode =? Mode_Login); [|destruct (mode =? Mode_Restore)]].
  - apply mirrors_bind; [now apply mirrors_log|]. intros _.
    apply mirrors_for_of, mirrors_auto_body.
  - apply mirrors_bind; [now apply mirrors_log|]. intros _.
    apply mirrors_for_of, mirrors_loginNations_body.
  - apply mirrors_bind; [now apply mirrors_log|]. intros _.
    apply mirrors_for_of, mirrors_restoreNations_body.
  - apply mirrors_throw.
Qed.

(** X22: the verbose flag changes nothing but the log.  A verbose run of
    [start] completes as the run without the flag does, leaves the same
    state, and produces the same events in the same order, requests and
    forms included, except that it also logs the detail lines ("More
    than 30 seconds between now and last login" and the inspected
    exceptions). *)
Theorem verbose_only_adds_detail :
  forall (userAgent : string) (rateLimit : number) (mode : Mode)
         (credentials : list Credential) (this : App) (w : World),
    let loud := start userAgent rateLimit mode credentials true this w in
    let quiet := start userAgent rateLimit mode credentials false this w in
    completion loud = completion quiet
    /\ app loud = app quiet
    /\ world loud = world quiet
    /\ without_detail (out loud) = out quiet.
Proof.
  intros ua rl mode cs this w.
  assert (H : mirrors (start ua rl mode cs true) (start ua rl mode cs false)).
  { unfold start.
    apply mirrors_bind; [apply mirrors_set_this|]. intros _.
    apply mirrors_bind; [apply mirrors_set_this|]. intros _.
    apply mirrors_bind; [now apply mirrors_emit|]. intros _.
    apply mirrors_bind.
    - apply mirrors_try_finally;
        [apply mirrors_dispatch | now apply mirrors_emit].
    - intros _. apply mirrors_bind; [apply mirrors_get_this|]. intros a.
      apply mirrors_bind.
      + destruct (_cancel a); now apply mirrors_log.
      + intros _. apply mirrors_bind; [apply mirrors_waitUntilUnpaused|].
        intros _. now apply mirrors_emit. }
  apply H.
Qed.

(** ** [App.toId] on every name *)

Lemma replace_absent (a b : ascii) (s : string) :
  occurs a s = false ->
  JsString.replace (String a EmptyString) (String b EmptyString) s = s.
Proof.
  induction s as [|c s IH]; intros H; simpl in *; [reflexivity|].
  apply orb_false_iff in H as [Hc Hs].
  destruct (ascii_dec a c) as [->|_].
  - now rewrite Ascii.eqb_refl in Hc.
  - now rewrite IH.
Qed.

Lemma lower_unit_space c :
  Ascii.eqb (JsString.lower_unit c) " " = Ascii.eqb c " ".
Proof.
  destruct c as [[] [] [] [] [] [] [] []]; reflexivity.
Qed.

Lemma toLowerCase_app s1 s2 :
  JsString.toLowerCase (s1 +:+ s2)
  = JsString.toLowerCase s1 +:+ JsString.toLowerCase s2.
Proof.
  induction s1 as [|c s1 IH]; simpl; [reflexivity | now rewrite IH].
Qed.

Lemma toLowerCase_spaces s :
  occurs " " (JsString.toLowerCase s) = occurs " " s.
Proof.
  induction s as [|c s IH]; simpl; [reflexivity|].
  now rewrite lower_unit_space, IH.
Qed.

Lemma replace_all_units_app a b s1 s2 :
  JsString.replace_all_units a b (s1 +:+ s2)
  = JsString.replace_all_units a b s1 +:+ JsString.replace_all_units a b s2.
Proof.
  induction s1 as [|c s1 IH]; simpl; [reflexivity | now rewrite IH].
Qed.

Lemma replace_all_units_absent a b s :
  occurs a s = false -> JsString.replace_all_units a b s = s.
Proof.
  induction s as [|c s IH]; simpl; intros H; [reflexivity|].
  apply orb_false_iff in H as [Hc Hs]. now rewrite Hc, IH.
Qed.

Lemma replace_all_units_fixed a b s :
  a <> b -> JsString.replace_all_units a b s = s -> occurs a s = false.
Proof.
  intros Hab. induction s as [|c s IH]; simpl; intros H; [reflexivity|].
  injection H as Hc Hs. rewrite (IH Hs), orb_false_r.
  destruct (Ascii.eqb c a) eqn:E; [|reflexivity].
  apply Ascii.eqb_eq in E. congruence.
Qed.

Lemma string_app_inv_head (s a b : string) : s +:+ a = s +:+ b -> a = b.
Proof.
  induction s as [|c s IH]; simpl; intros H; [exact H|].
  injection H as H. now apply IH.
Qed.

(** X23: what [toId] does to every name that has no underscore and no
    white space around it: the name is lower-cased and its FIRST space
    becomes an underscore, the spaces after it staying as they are.  So
    [toId] gives what its doc comment says (all lowercase, spaces replaced
    with underscores) exactly when the name has no second space. *)
Theorem toId_rewrites_the_first_space :
  forall s1 s2 : string,
    occurs "_" (s1 +:+ String " " s2) = false ->
    JsString.trim (s1 +:+ String " " s2) = s1 +:+ String " " s2 ->
    occurs " " s1 = false ->
    toId (s1 +:+ String " " s2)
    = JsString.toLowerCase s1 +:+ String "_" (JsString.toLowerCase s2)
    /\ (toId (s1 +:+ String " " s2) = toId_doc (s1 +:+ String " " s2)
        <-> occurs " " s2 = false).
Proof.
  intros s1 s2 Hu Ht Hs.
  assert (Hid : toId (s1 +:+ String " " s2)
                = JsString.toLowerCase s1
                    +:+ String "_" (JsString.toLowerCase s2)).
  { unfold toId. rewrite (replace_absent "_" " " _ Hu), Ht.
    rewrite toLowerCase_app.
    change (JsString.toLowerCase (String " " s2))
      with (String " " (JsString.toLowerCase s2)).
    apply replace_first_occurrence. now rewrite toLowerCase_spaces. }
  split; [exact Hid|].
  rewrite Hid. unfold toId_doc.
  rewrite toLowerCase_app, replace_all_units_app.
  rewrite (replace_all_units_absent " " "_" (JsString.toLowerCase s1))
    by now rewrite toLowerCase_spaces.
  change (JsString.toLowerCase (String " " s2))
    with (String " " (JsString.toLowerCase s2)).
  change (JsString.replace_all_units " " "_"
            (String " " (JsString.toLowerCase s2)))
    with (String "_" (JsString.replace_all_units " " "_"
                        (JsString.toLowerCase s2))).
  rewrite <- (toLowerCase_spaces s2). split.
  - intros H. apply string_app_inv_head in H. injection H as H.
    apply (replace_all_units_fixed " " "_"); [discriminate | now symmetry].
  - intros H. now rewrite replace_all_units_absent.
Qed.

Lemma toId_rewrites_the_first_space_witness :
  toId "The Holy Empire" = "the" +:+ String "_" "holy empire"
  /\ (toId "The Holy Empire" = toId_doc "The Holy Empire"
      <-> occurs " " "Holy Empire" = false).
Proof.
  apply (toId_rewrites_the_first_space "The" "Holy Empire"); reflexivity.
Defined.

(** ** A load after the promise has settled *)

Lemma first_timer_app evs1 evs2 ev :
  first_timer evs1 = Some ev -> first_timer (evs1 ++ evs2) = Some ev.
Proof.
  unfold first_timer. induction evs1 as [|e evs1 IH]; simpl; [discriminate|].
  destruct (is_timer e); [trivial | exact IH].
Qed.

(** X24: settling the promise does not detach the [load] handler.  If the
    15 s timer fires before the iframe has loaded, [restoreRequest] is
    rejected (the [loginRequest] of the earlier variant is fulfilled) with
    no form submitted; a [load] event that comes after that still finds
    the handler attached and submits the form of the credential, and the
    promise stays as it was.  So a form can be submitted after its request
    has been reported as failed. *)
Theorem late_load_still_submits :
  forall (userAgent : string) (credential : Credential)
         (before later : list TimerEvent),
    existsb is_load before = false ->
    first_timer before = Some CeilingTimer ->
    (promise (after_events (restoreRequest_on userAgent credential) before)
     = Rejected
     /\ submitted (after_events (restoreRequest_on userAgent credential)
                                before) = []
     /\ promise (after_events (restoreRequest_on userAgent credential)
                              (before ++ IframeLoad :: later)) = Rejected
     /\ submitted (after_events (restoreRequest_on userAgent credential)
                                (before ++ IframeLoad :: later))
        = [restoreForm userAgent credential])
    /\ (promise (after_events (Legacy.loginRequest_on userAgent credential)
                              before) = Fulfilled
        /\ submitted (after_events
                        (Legacy.loginRequest_on userAgent credential) before)
           = []
        /\ promise (after_events (Legacy.loginRequest_on userAgent credential)
                                 (before ++ IframeLoad :: later)) = Fulfilled
        /\ submitted (after_events
                        (Legacy.loginRequest_on userAgent credential)
                        (before ++ IframeLoad :: later))
           = [Legacy.loginForm userAgent credential]).
Proof.
  intros ua c before later Hl Ht.
  assert (Hl' : existsb is_load (before ++ IframeLoad :: later) = true).
  { rewrite existsb_app. simpl. apply orb_true_r. }
  pose proof (first_timer_app before (IframeLoad :: later) _ Ht) as Ht'.
  unfold after_events. split.
  - rewrite !restore_first_timer by reflexivity.
    rewrite !restore_submitted. rewrite Ht, Ht', Hl, Hl'. now repeat split.
  - rewrite !login_first_timer by reflexivity.
    rewrite !login_submitted. rewrite Ht, Ht', Hl, Hl'. now repeat split.
Qed.

Lemma late_load_still_submits_witness :
  (promise (after_events (restoreRequest_on "ua" ghostnation) [CeilingTimer])
   = Rejected
   /\ submitted (after_events (restoreRequest_on "ua" ghostnation)
                              [CeilingTimer]) = []
   /\ promise (after_events (restoreRequest_on "ua" ghostnation)
                            ([CeilingTimer] ++ IframeLoad :: [SettleTimer]))
      = Rejected
   /\ submitted (after_events (restoreRequest_on "ua" ghostnation)
                              ([CeilingTimer] ++ IframeLoad :: [SettleTimer]))
      = [restoreForm "ua" ghostnation])
  /\ (promise (after_events (Legacy.loginRequest_on "ua" ghostnation)
                            [CeilingTimer]) = Fulfilled
      /\ submitted (after_events (Legacy.loginRequest_on "ua" ghostnation)
                                 [CeilingTimer]) = []
      /\ promise (after_events (Legacy.loginRequest_on "ua" ghostnation)
                               ([CeilingTimer] ++ IframeLoad :: [SettleTimer]))
         = Fulfilled
      /\ submitted (after_events (Legacy.loginRequest_on "ua" ghostnation)
                                 ([CeilingTimer] ++ IframeLoad :: [SettleTimer]))
         = [Legacy.loginForm "ua" ghostnation]).
Proof.
  apply (late_load_still_submits "ua" ghostnation [CeilingTimer]
           [SettleTimer]); reflexivity.
Defined.

(** ** Waiting *)






Lemma hosted_never_suspended {A} (m : M A) :
  (forall this w, completion (m this w) <> Suspended) ->
  waits_for_host_only m.
Proof. intros H this w Hs. now apply H in Hs. Qed.

Lemma hosted_ret {A} (a : A) : waits_for_host_only (ret a).
Proof. now apply hosted_never_suspended. Qed.

Lemma hosted_throw {A} err : waits_for_host_only (@throw A err).
Proof. now apply hosted_never_suspended. Qed.

Lemma hosted_get_this : waits_for_host_only get_this.
Proof. now apply hosted_never_suspended. Qed.

Lemma hosted_set_this f : waits_for_host_only (set_this f).
Proof. now apply hosted_never_suspended. Qed.

Lemma hosted_Date_now : waits_for_host_only Date_now.
Proof. now apply hosted_never_suspended. Qed.

Lemma hosted_emit e : waits_for_host_only (emit e).
Proof. now apply hosted_never_suspended. Qed.

Lemma hosted_await : waits_for_host_only await.
Proof.
  intros this w. unfold await.
  destruct (script w) as [|t rest] eqn:Hs; simpl; [now intros _|].
  destruct (deliver (ui t) this). discriminate.
Qed.

Lemma hosted_waitUntilUnpaused : waits_for_host_only waitUntilUnpaused.
Proof.
  intros this w Hs.
  destruct (waitUntilUnpaused_from_gate (script w) (time w) this)
    as [[Hn _]|(_ & _ & He)]; [|exact He].
  unfold waitUntilUnpaused in Hs. congruence.
Qed.

Lemma hosted_bind {A B} (m : M A) (f : A -> M B) :
  waits_for_host_only m -> (forall a, waits_for_host_only (f a)) ->
  waits_for_host_only (bind m f).
Proof.
  intros Hm Hf this w. unfold bind. specialize (Hm this w).
  destruct (completion (m this w)) as [a|err|]; simpl;
    [apply Hf | discriminate | intros _; now apply Hm].
Qed.

Lemma hosted_try_catch {A} (m : M A) (h : Thrown -> M A) :
  waits_for_host_only m -> (forall err, waits_for_host_only (h err)) ->
  waits_for_host_only (try_catch m h).
Proof.
  intros Hm Hh this w. unfold try_catch. pose proof (Hm this w) as Hmw.
  case_eq (completion (m this w));
    [intros a Hc | intros err Hc | intros Hc].
  - rewrite Hc. discriminate.
  - simpl. apply Hh.
  - intros _. now apply Hmw.
Qed.

Lemma hosted_try_finally {A} (m : M A) (fin : M unit) :
  waits_for_host_only m -> waits_for_host_only fin ->
  waits_for_host_only (try_finally m fin).
Proof.
  intros Hm Hf this w. unfold try_finally. pose proof (Hm this w) as Hmw.
  pose proof (Hf (app (m this w)) (world (m this w))) as Hfw.
  case_eq (completion (m this w));
    [intros a Hc | intros err Hc | intros Hc].
  - destruct (completion (fin _ _)); simpl; try discriminate.
    intros _. now apply Hfw.
  - destruct (completion (fin _ _)); simpl; try discriminate.
    intros _. now apply Hfw.
  - intros _. now apply Hmw.
Qed.

Lemma hosted_for_of {A} (xs : list A) (body : A -> M Flow) :
  (forall x, waits_for_host_only (body x)) ->
  waits_for_host_only (for_of xs body).
Proof.
  intros Hb. induction xs as [|x xs IH]; simpl.
  - apply hosted_ret.
  - apply hosted_bind; [apply Hb|].
    intros [|]; [exact IH | apply hosted_ret].
Qed.

Lemma hosted_nationRequest n shards auth :
  waits_for_host_only (nationRequest n shards auth).
Proof.
  unfold nationRequest.
  apply hosted_bind; [apply hosted_emit|]. intros _.
  apply hosted_bind; [apply hosted_await|]. intros t.
  destruct (settled t); [apply hosted_ret | apply hosted_throw].
Qed.

Lemma hosted_Ui_confirm : waits_for_host_only Ui_confirm.
Proof.
  unfold Ui_confirm.
  apply hosted_bind; [apply hosted_emit|]. intros _.
  apply hosted_bind; [apply hosted_await|]. intros _.
  apply hosted_ret.
Qed.

(** Under each of the three orders of events the promise of
    [restoreRequest] settles: the request itself never leaves the
    procedure waiting. *)
Lemma hosted_restoreRequest c : waits_for_host_only (restoreRequest c).
Proof.
  unfold restoreRequest, await_request.
  apply hosted_bind; [apply hosted_await|]. intros t.
  apply hosted_bind; [apply hosted_get_this|]. intros this0.
  apply hosted_bind.
  - apply hosted_never_suspended. intros this w.
    rewrite emit_all_run. discriminate.
  - intros _. destruct (iframe t); cbn;
      [apply hosted_ret | apply hosted_throw | apply hosted_throw].
Qed.

Lemma hosted_caught (verbose : bool) type m detail :
  waits_for_host_only (Ui_log type m >>
                       if verbose then Ui_log "error" detail else ret tt).
Proof.
  apply hosted_bind; [apply hosted_emit|]. intros _.
  destruct verbose; [apply hosted_emit | apply hosted_ret].
Qed.

Lemma hosted_loginNations_body verbose c :
  waits_for_host_only (loginNations_body verbose c).
Proof.
  unfold loginNations_body, loginNations_try.
  apply hosted_bind; [apply hosted_get_this|]. intros this.
  destruct (_cancel this); [apply hosted_ret|].
  apply hosted_bind; [apply hosted_waitUntilUnpaused|]. intros _.
  apply hosted_bind; [|intros; apply hosted_ret].
  apply hosted_try_catch.
  - apply hosted_bind; [apply hosted_emit|]. intros _.
    apply hosted_bind; [apply hosted_nationRequest|]. intros _.
    apply hosted_bind; [apply hosted_nationRequest|]. intros data.
    apply hosted_bind; [apply hosted_Date_now|]. intros ms.
    cbv zeta. destruct (num_gt _ _);
      [apply hosted_caught | apply hosted_emit].
  - intros err. apply hosted_caught.
Qed.

Lemma hosted_restoreNations_body verbose c :
  waits_for_host_only (restoreNations_body verbose c).
Proof.
  unfold restoreNations_body, restoreNations_try.
  apply hosted_bind; [apply hosted_get_this|]. intros this.
  destruct (_cancel this); [apply hosted_ret|].
  apply hosted_bind; [apply hosted_waitUntilUnpaused|]. intros _.
  apply hosted_bind; [apply hosted_emit|]. intros _.
  apply hosted_bind; [apply hosted_Ui_confirm|]. intros _.
  apply hosted_bind; [apply hosted_emit|]. intros _.
  apply hosted_bind; [|intros; apply hosted_ret].
  apply hosted_try_catch.
  - apply hosted_bind; [apply hosted_restoreRequest|]. intros _.
    apply hosted_bind; [apply hosted_nationRequest|]. intros _.
    apply hosted_emit.
  - intros err. apply hosted_caught.
Qed.

Lemma hosted_auto_body verbose c :
  waits_for_host_only (auto_body verbose c).
Proof.
  unfold auto_body, auto_try.
  apply hosted_bind; [apply hosted_get_this|]. intros this.
  destruct (_cancel this); [apply hosted_ret|].
  apply hosted_bind; [apply hosted_waitUntilUnpaused|]. intros _.
  apply hosted_bind.
  - apply hosted_try_catch.
    + apply hosted_bind; [apply hosted_emit|]. intros _.
      apply hosted_bind; [apply hosted_nationRequest|]. intros _.
      apply hosted_ret.
    + intros _. apply hosted_bind; [apply hosted_emit|]. intros _.
      apply hosted_ret.
  - intros login. apply hosted_bind; [|intros; apply hosted_ret].
    destruct login; apply hosted_for_of; intros x.
    + apply hosted_loginNations_body.
    + apply hosted_restoreNations_body.
Qed.

Lemma hosted_dispatch mode cs verbose :
  waits_for_host_only (dispatch mode cs verbose).
Proof.
  unfold dispatch.
  destruct (mode =? Mode_Auto);
    [|destruct (mode =? Mode_Login); [|destruct (mode =? Mode_Restore)]].
  - apply hosted_bind; [apply hosted_emit|]. intros _.
    apply hosted_for_of, hosted_auto_body.
  - apply hosted_bind; [apply hosted_emit|]. intros _.
    apply hosted_for_of, hosted_loginNations_body.
  - apply hosted_bind; [apply hosted_emit|]. intros _.
    apply hosted_for_of, hosted_restoreNations_body.
  - apply hosted_throw.
Qed.

(** X26: [start] never waits on itself.  Whenever a run has neither
    returned nor thrown, it is waiting for the host (a request of the API,
    the confirmation click, the timers of a restore request or the sleep
    of the pause gate) and has consumed everything the host delivered: the
    15 s timer makes every restore request settle, and no other wait is
    of the program's own making. *)
Theorem start_waits_for_the_host_only :
  forall (userAgent : string) (rateLimit : number) (mode : Mode)
         (credentials : list Credential) (verbose : bool)
         (this : App) (w : World),
    completion (start userAgent rateLimit mode credentials verbose this w)
    = Suspended ->
    script (world (start userAgent rateLimit mode credentials verbose this w))
    = [].
Proof.
  intros ua rl mode cs v.
  change (waits_for_host_only (start ua rl mode cs v)).
  unfold start.
  apply hosted_bind; [apply hosted_set_this|]. intros _.
  apply hosted_bind; [apply hosted_set_this|]. intros _.
  apply hosted_bind; [apply hosted_emit|]. intros _.
  apply hosted_bind.
  - apply hosted_try_finally; [apply hosted_dispatch | apply hosted_emit].
  - intros _. apply hosted_bind; [apply hosted_get_this|]. intros a.
    apply hosted_bind.
    + destruct (_cancel a); apply hosted_emit.
    + intros _. apply hosted_bind; [apply hosted_waitUntilUnpaused|].
      intros _. apply hosted_emit.
Qed.

Lemma start_waits_for_the_host_only_witness :
  script (world (start "ua" (Num 6) Mode_Login [testlandia] false new_App
                   (mkWorld 0 [answered ∅ 1000])))
  = [].
Proof.
  apply (start_waits_for_the_host_only "ua" (Num 6) Mode_Login [testlandia]
           false new_App (mkWorld 0 [answered ∅ 1000])).
  reflexivity.
Defined.

(** ** The further properties on concrete inputs *)

Lemma getCredentials_round_trip_witness :
  Ui.getCredentials (text_of [testlandia; ghostnation])
  = inr [testlandia; ghostnation].
Proof.
  apply (getCredentials_round_trip [testlandia; ghostnation]).
  - discriminate.
  - repeat constructor.
Defined.

Lemma handleStart_checks_all_but_the_rate_limit_witness :
  "ua" <> EmptyString
  /\ [testlandia] <> []
  /\ Ui.getCredentials "Testlandia,pw1" = inr [testlandia]
  /\ Mode_Login = Mode_Login
  /\ JsNumber.parseInt_string "600" = JsNumber.parseInt_string "600"
  /\ forall this w err,
      completion (App_start refuses_below_600 "ua"
                            (JsNumber.parseInt_string "600") Mode_Login
                            [testlandia] false this w) = Abrupt err
      <-> refuses_below_600 "ua" true (JsNumber.parseInt_string "600")
          = Some err.
Proof.
  apply (handleStart_checks_all_but_the_rate_limit
           refuses_below_600 JsNumber.parseInt_string
           (Ui.mkInputs "ua" "600" true false false "Testlandia,pw1" false)
           "ua" (JsNumber.parseInt_string "600") Mode_Login [testlandia]
           false).
  reflexivity.
Defined.

Lemma save_then_load_witness :
  Ui.in_credentials
    (Ui.handleLoad (fun _ => Num 6) (fun _ => "6")
       (Ui.handleSave
          (Ui.mkInputs "ua" "6" true false false "Testlandia,pw1" false)
          (Some ∅))
       (Ui.mkInputs "other" "1" false false true "a,b" true))
  = "Testlandia,pw1".
Proof.
  destruct (save_then_load
              (fun _ => Num 6) (fun _ => "6")
              (Ui.mkInputs "ua" "6" true false false "Testlandia,pw1" false)
              (Ui.mkInputs "other" "1" false false true "a,b" true)
              ∅ Mode_Login eq_refl)
    as (_ & H & _).
  exact H.
Defined.

Lemma handleLoad_rate_limit_follows_user_agent_witness :
  Ui.handleLoad (fun _ => Num 6) (fun _ => "6")
                (Some {[ "rateLimit" := "7" ]})
                (Ui.mkInputs "other" "1" false false true "a,b" true)
  = Ui.mkInputs "other" "1" false false true "a,b" true.
Proof.
  destruct (handleLoad_rate_limit_follows_user_agent
              (fun _ => Num 6) (fun _ => "6") {[ "rateLimit" := "7" ]}
              (Ui.mkInputs "other" "1" false false true "a,b" true))
    as [H _].
  apply H; vm_compute; reflexivity.
Defined.

Lemma handleSave_without_mode_stops_early_witness :
  exists items',
    Ui.handleSave (Ui.mkInputs "ua" "6" false false false "a,b" true)
                  (Some {[ "credentials" := "old,pw" ]})
    = Some items'
    /\ items' !! "userAgent" = Some "ua"
    /\ items' !! "rateLimit" = Some "6"
    /\ forall key, key <> "userAgent" -> key <> "rateLimit" ->
                   items' !! key
                   = ({[ "credentials" := "old,pw" ]} : gmap string string)
                       !! key.
Proof.
  apply (handleSave_without_mode_stops_early
           (Ui.mkInputs "ua" "6" false false false "a,b" true)
           {[ "credentials" := "old,pw" ]}); reflexivity.
Defined.

Lemma terminal_line_tells_cancellation_witness :
  exists pre line post,
    out (start "ua" (Num 6) Mode_Login [testlandia] false new_App
           world_cancelled)
    = pre ++ ApiCleanup :: line :: post
    /\ cleanups pre = 0%nat
    /\ (In cancelling pre -> line = Log "info" MProcessCancelled)
    /\ (~ In cancelling pre -> line = Log "info" MProcessComplete)
    /\ forall e, In e post -> control_line e \/ e = HandleFinish.
Proof.
  apply (terminal_line_tells_cancellation "ua" (Num 6) Mode_Login
           [testlandia] false new_App world_cancelled).
  vm_compute. reflexivity.
Defined.

Lemma finish_ends_the_run_witness :
  _pause (app (start "ua" (Num 6) Mode_Login [testlandia] false new_App
                 world_boundary)) = false
  /\ exists pre,
      out (start "ua" (Num 6) Mode_Login [testlandia] false new_App
             world_boundary)
      = pre ++ [HandleFinish]
      /\ ~ In HandleFinish pre.
Proof.
  destruct (finish_ends_the_run "ua" (Num 6) Mode_Login [testlandia] false
              new_App world_boundary) as [_ H].
  apply H. vm_compute. reflexivity.
Defined.


Lemma one_outcome_per_credential_witness :
  reported (out (dispatch Mode_Login [testlandia] false new_App
                   world_boundary))
  = map nation [testlandia].
Proof.
  destruct (one_outcome_per_credential Mode_Login [testlandia] false new_App
              world_boundary) as [_ H].
  apply H; vm_compute; reflexivity.
Defined.

(** ** The two variants *)

Lemma deliver_cancels acts : forall this,
    Forall (eq Cancel) acts -> _pause this = false ->
    _pause (snd (deliver acts this)) = false.
Proof.
  induction acts as [|a acts IH]; intros this Ha Hp; [exact Hp|].
  inversion Ha as [|? ? <- Hrest]; subst. simpl.
  specialize (IH (mkApp true false (_userAgent this)) Hrest eq_refl).
  destruct (deliver acts _) as [evs2 this2]. exact IH.
Qed.

Lemma calm_quiet {A} (m : M A) :
  (forall this w, app (m this w) = this /\ world (m this w) = w) ->
  same_when_calm m m.
Proof.
  intros H this w Hp Hc. destruct (H this w) as [-> ->]. now repeat split.
Qed.

Lemma calm_ret {A} (a : A) : same_when_calm (ret a) (ret a).
Proof. now apply calm_quiet. Qed.

Lemma calm_throw {A} err : same_when_calm (@throw A err) (throw err).
Proof. now apply calm_quiet. Qed.

Lemma calm_suspend {A} : same_when_calm (@suspend A) suspend.
Proof. now apply calm_quiet. Qed.

Lemma calm_get_this : same_when_calm get_this get_this.
Proof. now apply calm_quiet. Qed.

Lemma calm_emit e : same_when_calm (emit e) (emit e).
Proof. now apply calm_quiet. Qed.

Lemma calm_emit_all evs : same_when_calm (emit_all evs) (emit_all evs).
Proof.
  apply calm_quiet. intros this w. now rewrite emit_all_run.
Qed.

Lemma calm_await : same_when_calm await await.
Proof.
  intros this w Hp Hc. split; [reflexivity|].
  unfold await. unfold calm in *.
  destruct (script w) as [|t rest] eqn:Hs; simpl;
    [split; [exact Hp | rewrite Hs; constructor]|].
  inversion Hc as [|? ? Ht Hrest]; subst.
  pose proof (deliver_cancels (ui t) this Ht Hp) as Hd.
  destruct (deliver (ui t) this) as [evs this']. simpl in *.
  split; [exact Hd | exact Hrest].
Qed.

Lemma calm_bind {A B} (m1 m2 : M A) (f1 f2 : A -> M B) :
  same_when_calm m1 m2 -> (forall a, same_when_calm (f1 a) (f2 a)) ->
  same_when_calm (bind m1 f1) (bind m2 f2).
Proof.
  intros Hm Hf this w Hp Hc.
  destruct (Hm this w Hp Hc) as (He & Hp' & Hc').
  unfold bind. rewrite <- He.
  destruct (m1 this w) as [[a|err|] a1 w1 o1]; simpl in *;
    [|now repeat split|now repeat split].
  destruct (Hf a a1 w1 Hp' Hc') as (He2 & Hp2 & Hc2).
  rewrite <- He2. now repeat split.
Qed.

Lemma calm_try_catch {A} (m1 m2 : M A) (h1 h2 : Thrown -> M A) :
  same_when_calm m1 m2 -> (forall err, same_when_calm (h1 err) (h2 err)) ->
  same_when_calm (try_catch m1 h1) (try_catch m2 h2).
Proof.
  intros Hm Hh this w Hp Hc.
  destruct (Hm this w Hp Hc) as (He & Hp' & Hc').
  unfold try_catch. rewrite <- He.
  destruct (m1 this w) as [[a|err|] a1 w1 o1]; simpl in *;
    [now repeat split| |now repeat split].
  destruct (Hh err a1 w1 Hp' Hc') as (He2 & Hp2 & Hc2).
  rewrite <- He2. now repeat split.
Qed.

Lemma calm_for_of {A} (xs : list A) (body1 body2 : A -> M Flow) :
  (forall x, same_when_calm (body1 x) (body2 x)) ->
  same_when_calm (for_of xs body1) (for_of xs body2).
Proof.
  intros Hb. induction xs as [|x xs IH]; simpl.
  - apply calm_ret.
  - apply calm_bind; [apply Hb|].
    intros [|]; [exact IH | apply calm_ret].
Qed.

Lemma calm_nationRequest n shards auth :
  same_when_calm (nationRequest n shards auth) (nationRequest n shards auth).
Proof.
  unfold nationRequest.
  apply calm_bind; [apply calm_emit|]. intros _.
  apply calm_bind; [apply calm_await|]. intros t.
  destruct (settled t); [apply calm_ret | apply calm_throw].
Qed.

Lemma calm_Ui_confirm : same_when_calm Ui_confirm Ui_confirm.
Proof.
  unfold Ui_confirm.
  apply calm_bind; [apply calm_emit|]. intros _.
  apply calm_bind; [apply calm_await|]. intros _.
  apply calm_ret.
Qed.

Lemma calm_restoreRequest c :
  same_when_calm (restoreRequest c) (restoreRequest c).
Proof.
  unfold restoreRequest, await_request.
  apply calm_bind; [apply calm_await|]. intros t.
  apply calm_bind; [apply calm_get_this|]. intros this0.
  apply calm_bind; [apply calm_emit_all|]. intros _.
  destruct (promise _);
    [apply calm_suspend | apply calm_ret | apply calm_throw].
Qed.

Lemma calm_restoreNations_try verbose c :
  same_when_calm (restoreNations_try verbose c) (restoreNations_try verbose c).
Proof.
  unfold restoreNations_try. apply calm_try_catch.
  - apply calm_bind; [apply calm_restoreRequest|]. intros _.
    apply calm_bind; [apply calm_nationRequest|]. intros _.
    apply calm_emit.
  - intros err. apply calm_bind; [apply calm_emit|]. intros _.
    destruct verbose; [apply calm_emit | apply calm_ret].
Qed.

(** The pause gate is passed at once by an app that is not paused. *)
Lemma calm_gate {A} (m1 m2 : M A) :
  same_when_calm m1 m2 -> same_when_calm (waitUntilUnpaused >> m1) m2.
Proof.
  intros H this w Hp Hc.
  assert (Hg : waitUntilUnpaused this w = mkRun (Normal tt) this w []).
  { unfold waitUntilUnpaused. destruct w as [now ticks]; simpl.
    destruct ticks; simpl; rewrite Hp; reflexivity. }
  erewrite bind_normal_run by exact Hg.
  rewrite prepend_nil. now apply H.
Qed.

Lemma calm_restoreNations_body verbose c :
  same_when_calm (restoreNations_body verbose c)
                 (LegacyApp.restoreNations_body verbose c).
Proof.
  unfold restoreNations_body, LegacyApp.restoreNations_body.
  apply calm_bind; [apply calm_get_this|]. intros this.
  destruct (_cancel this); [apply calm_ret|].
  apply calm_gate.
  apply calm_bind; [apply calm_emit|]. intros _.
  apply calm_bind; [apply calm_Ui_confirm|]. intros _.
  apply calm_bind; [apply calm_emit|]. intros _.
  apply calm_bind; [apply calm_restoreNations_try|]. intros _.
  apply calm_ret.
Qed.

(** X27: the pause gate changes nothing when the pause is not used.  From
    an app that is not paused, in a world where no other method than
    [cancel] is called, [restoreNations] runs exactly as the
    [restoreNations] of the earlier variant, which has no pause gate: the
    same events, the same state, the same completion. *)
Theorem restore_without_pause_is_the_earlier_restore :
  forall (credentials : list Credential) (verbose : bool)
         (this : App) (w : World),
    _pause this = false -> calm w ->
    restoreNations credentials verbose this w
    = LegacyApp.restoreNations credentials verbose this w.
Proof.
  intros cs v this w Hp Hc.
  apply (calm_for_of cs (restoreNations_body v)
           (LegacyApp.restoreNations_body v));
    [intros c; apply calm_restoreNations_body | exact Hp | exact Hc].
Qed.

Lemma restore_without_pause_is_the_earlier_restore_witness :
  restoreNations [ghostnation] false new_App world_restored
  = LegacyApp.restoreNations [ghostnation] false new_App world_restored.
Proof.
  apply (restore_without_pause_is_the_earlier_restore [ghostnation] false
           new_App world_restored).
  - reflexivity.
  - unfold calm. simpl. repeat constructor.
Defined.

Lemma loginRequest_run c this now t rest :
  Legacy.loginRequest c this (mkWorld now (t :: rest))
  = mkRun (Normal tt) (after t this) (mkWorld (clock t) rest)
          (during t this
             ++ match iframe t with
                | NeverLoads => []
                | _ => [Submit (Legacy.loginForm (_userAgent this) c)]
                end).
Proof.
  unfold Legacy.loginRequest, await_request.
  erewrite bind_normal_run by apply await_run.
  unfold bind, get_this. cbn [completion app world out].
  rewrite emit_all_run. cbn [completion app world out].
  unfold after. rewrite deliver_userAgent.
  destruct (iframe t); cbn; unfold prepend, ret; cbn;
    rewrite ?app_nil_r; reflexivity.
Qed.

(** X28: in the earlier variant, a login is judged by the [lastlogin]
    read alone.  For a credential whose turn comes without the app being
    cancelled, whatever the iframe does, even if the login form never
    loads and nothing is submitted, [loginRequest] completes and the
    procedure goes on to read [lastlogin]; the outcome is "Login failed"
    if that read throws, and otherwise the verdict of the 30 s test on its
    answer. *)
Theorem earlier_login_is_judged_by_lastlogin :
  forall (verbose : bool) (c : Credential) (this : App) (now : Z)
         (t1 t2 : Tick) (rest : list Tick),
    _pause this = false -> calm (mkWorld now (t1 :: t2 :: rest)) ->
    _cancel this = false ->
    LegacyApp.loginNations [c] verbose this (mkWorld now (t1 :: t2 :: rest))
    = mkRun (Normal tt) (after t2 (after t1 this)) (mkWorld (clock t2) rest)
            (Log "info" (MLoggingIn (nation c))
             :: during t1 this
             ++ match iframe t1 with
                | NeverLoads => []
                | _ => [Submit (Legacy.loginForm (_userAgent this) c)]
                end
             ++ NationRequest (nation c) ["lastlogin"] None
             :: during t2 (after t1 this)
             ++ match settled t2 with
                | Fulfil data => login_verdict verbose c (clock t2) data
                | Reject err => login_caught verbose c err
                end).
Proof.
  intros v c this now t1 t2 rest _ _ Hc.
  assert (Htry : LegacyApp.loginNations_try v c this
                   (mkWorld now (t1 :: t2 :: rest))
                 = mkRun (Normal tt) (after t2 (after t1 this))
                     (mkWorld (clock t2) rest)
                     (Log "info" (MLoggingIn (nation c))
                      :: during t1 this
                      ++ match iframe t1 with
                         | NeverLoads => []
                         | _ => [Submit (Legacy.loginForm (_userAgent this) c)]
                         end
                      ++ NationRequest (nation c) ["lastlogin"] None
                      :: during t2 (after t1 this)
                      ++ match settled t2 with
                         | Fulfil data => login_verdict v c (clock t2) data
                         | Reject err => login_caught v c err
                         end)).
  { unfold LegacyApp.loginNations_try.
    destruct (settled t2) as [d2|err] eqn:H2.
    - erewrite try_catch_normal_run; [reflexivity|].
      erewrite bind_normal_run by reflexivity.
      erewrite bind_normal_run by apply loginRequest_run.
      erewrite bind_normal_run by (apply nationRequest_fulfil; eassumption).
      erewrite bind_normal_run by reflexivity.
      rewrite login_verdict_run. unfold prepend; simpl.
      rewrite <- ?app_assoc. simpl. rewrite <- ?app_assoc. reflexivity.
    - erewrite try_catch_abrupt_run.
      2:{ erewrite bind_normal_run by reflexivity.
          erewrite bind_normal_run by apply loginRequest_run.
          erewrite bind_abrupt_run
            by (apply nationRequest_reject; eassumption).
          reflexivity. }
      rewrite login_caught_run. unfold prepend; simpl.
      rewrite <- ?app_assoc. simpl. rewrite <- ?app_assoc. reflexivity. }
  unfold LegacyApp.loginNations. cbn [for_of].
  erewrite bind_normal_run.
  2:{ unfold LegacyApp.loginNations_body.
      erewrite bind_normal_run by reflexivity.
      rewrite prepend_nil. cbv beta. rewrite Hc.
      erewrite bind_normal_run by exact Htry.
      unfold prepend, ret. cbn [completion app world out].
      rewrite app_nil_r. reflexivity. }
  unfold prepend, ret. cbn [completion app world out].
  rewrite app_nil_r. reflexivity.
Qed.

Lemma earlier_login_is_judged_by_lastlogin_witness :
  In (outcome_line testlandia LoginSucceeded)
     (out (LegacyApp.loginNations [testlandia] false new_App
             (mkWorld 0 [mkTick [] (Fulfil ∅) NeverLoads 1029000;
                         answered (lastlogin_is "1000") 1030000]))).
Proof.
  rewrite (earlier_login_is_judged_by_lastlogin false testlandia new_App 0
             (mkTick [] (Fulfil ∅) NeverLoads 1029000)
             (answered (lastlogin_is "1000") 1030000) []);
    [|reflexivity|unfold calm; simpl; repeat constructor|reflexivity].
  vm_compute. do 2 right. left. reflexivity.
Defined.
